(** * meshmode: meshes of simplices, vertex connectivity and face restriction

    A shallow embedding of [meshmode/mesh/__init__.py] and
    [meshmode/discretization/connection/face.py], and the properties of the
    written specification that can be stated about it.

    Conventions of the embedding:
    - a raised Python exception is the [Raise] branch of [result];
    - [np.float64] is Rocq's primitive binary64 [float];
    - integers stored in arrays are [Z] (an index may be negative, and then
      addresses from the end, as in Python and numpy); lengths, shapes,
      dimensions and the element/node offsets of a mesh are [nat];
    - a 2-D array is its list of rows together with the length of its last
      axis, so that an array without rows keeps its column count. *)

From Stdlib Require Import ZArith Lia PrimFloat.
From stdpp Require Import base option list list_numbers sorting gmap strings.

Open Scope Z_scope.

(** ** Exceptions *)

Inductive exn :=
  | RuntimeError | NotImplementedError | IndexError | AssertionError
  | AttributeError | TypeError | ValueError | KeyError
  | ConnectivityUnavailable.

Inductive result (A : Type) :=
  | Ok (a : A)
  | Raise (e : exn).
Arguments Ok {A} a.
Arguments Raise {A} e.

#[global] Instance result_ret : MRet result := fun A a => Ok a.
#[global] Instance result_bind : MBind result := fun A B f m =>
  match m with Ok a => f a | Raise e => Raise e end.
#[global] Instance result_fmap : FMap result := fun A B f m =>
  match m with Ok a => Ok (f a) | Raise e => Raise e end.

Definition is_Ok {A} (m : result A) : Prop := ∃ a, m = Ok a.

(** [assert c] of Python. *)
Definition py_assert (c : bool) : result unit :=
  if c then Ok tt else Raise AssertionError.

(** ** Lists and arrays the way Python and numpy index them *)

(** [l[i]]: a negative [i] counts from the end, anything outside raises. *)
Definition py_index {A} (l : list A) (i : Z) : result A :=
  let n := Z.of_nat (length l) in
  let j := if decide (i < 0) then i + n else i in
  if decide (0 ≤ j < n) then
    match l !! Z.to_nat j with Some x => Ok x | None => Raise IndexError end
  else Raise IndexError.

(** [l[i] = f(l[i])], with the same addressing. *)
Definition py_alter {A} (f : A → A) (l : list A) (i : Z) : result (list A) :=
  let n := Z.of_nat (length l) in
  let j := if decide (i < 0) then i + n else i in
  if decide (0 ≤ j < n) then Ok (alter f (Z.to_nat j) l) else Raise IndexError.

Definition py_set {A} (l : list A) (i : Z) (x : A) : result (list A) :=
  py_alter (λ _, x) l i.

(** [arr[idx]] for an index array [idx] (fancy indexing). *)
Definition np_take {A} (l : list A) (idx : list Z) : result (list A) :=
  mapM (py_index l) idx.

(** [arr[flags]] for a boolean mask, which must be as long as [arr]. *)
Definition np_mask {A} (l : list A) (flags : list bool) : result (list A) :=
  if decide (length flags = length l) then
    Ok (fst <$> filter (λ p, snd p = true) (zip l flags))
  else Raise IndexError.

Record ndarray (A : Type) := NdArray {
  shape1 : nat;            (* length of the last axis *)
  rows : list (list A);
}.
Arguments NdArray {A} _ _.
Arguments shape1 {A} _.
Arguments rows {A} _.

Definition shape0 {A} (a : ndarray A) : nat := length (rows a).

(** [a[idx]]: rows picked by an index array. *)
Definition take_rows {A} (a : ndarray A) (idx : list Z) : result (ndarray A) :=
  rs ← np_take (rows a) idx; Ok (NdArray (shape1 a) rs).

(** [a[:, idx]]: columns picked by an index array. *)
Definition take_cols {A} (a : ndarray A) (idx : list Z) : result (ndarray A) :=
  rs ← mapM (λ r, np_take r idx) (rows a); Ok (NdArray (length idx) rs).

(** [a.T] *)
Fixpoint transpose_rows {A} (ncols : nat) (rs : list (list A)) : list (list A) :=
  match ncols with
  | O => []
  | S n =>
      (omap head rs) :: transpose_rows n (tail <$> rs)
  end.

Definition transpose {A} (a : ndarray A) : ndarray A :=
  NdArray (shape0 a) (transpose_rows (shape1 a) (rows a)).

(** ** Float arithmetic on arrays *)

(** Sum of products of two vectors of one length, accumulated from [0.0]
    left to right. *)
Definition fdot (u v : list float) : float :=
  foldl (λ acc p, (acc + fst p * snd p)%float) 0%float (zip u v).

(** [np.dot(a, x)] for 2-D arrays: the inner axes must agree. *)
Definition np_dot (a x : ndarray float) : result (ndarray float) :=
  if decide (shape1 a = shape0 x) then
    Ok (NdArray (shape1 x)
          ((λ r : list float, fdot r <$> rows (transpose x)) <$> rows a))
  else Raise ValueError.

(** [(m.T + b).T]: [b] is added along the first axis of [m]; numpy stretches
    a [b] of length one, or an [m] with a single row, to the length of the
    other, and raises when the lengths differ otherwise. *)
Definition add_along_rows (m : ndarray float) (b : list float)
    : result (ndarray float) :=
  if decide (length b = shape0 m) then
    Ok (NdArray (shape1 m)
          (zip_with (λ (r : list float) bi, (λ x, (x + bi)%float) <$> r)
             (rows m) b))
  else if decide (length b = 1%nat) then
    Ok (NdArray (shape1 m)
          ((λ r : list float,
              (λ x, (x + default 0%float (head b))%float) <$> r) <$> rows m))
  else if decide (shape0 m = 1%nat) then
    Ok (NdArray (shape1 m)
          ((λ bi, (λ x, (x + bi)%float) <$> default [] (head (rows m))) <$> b))
  else Raise ValueError.

(** [(u + 1) * 0.5] *)
Definition to_01 (u : ndarray float) : ndarray float :=
  NdArray (shape1 u)
    ((λ r : list float, (λ x, ((x + 1) * 0.5)%float) <$> r) <$> rows u).

(** [(np.dot(A, x).T + b).T] *)
Definition affine_apply (A : ndarray float) (b : list float)
    (x : ndarray float) : result (ndarray float) :=
  m ← np_dot A x; add_along_rows m b.


(** A monadic left fold: a [for] loop whose body may raise. *)
Fixpoint foldM {A B} (f : B → A → result B) (b : B) (l : list A) : result B :=
  match l with
  | [] => Ok b
  | a :: l => b' ← f b a; foldM f b' l
  end.

(** [np.cumsum] *)
Fixpoint cumsum_from (acc : Z) (l : list Z) : list Z :=
  match l with
  | [] => []
  | x :: l => (acc + x) :: cumsum_from (acc + x) l
  end.
Definition np_cumsum (l : list Z) : list Z := cumsum_from 0 l.

(** [l[lo:hi]] for bounds that are not negative. *)
Definition py_slice {A} (l : list A) (lo hi : Z) : list A :=
  take (Z.to_nat hi - Z.to_nat lo) (drop (Z.to_nat lo) l).

(** ** meshmode/mesh/__init__.py: element groups *)

(** [MeshElementGroup] and its subclass [SimplexElementGroup]. *)
Inductive group_class := MeshElementGroup_class | SimplexElementGroup_class.

#[global] Instance group_class_eq_dec : EqDecision group_class.
Proof. solve_decision. Defined.

(** Nodal coordinates, indexed [ambient axis][element][unit node]. *)
Abbreviation nodes_tensor := (list (list (list float))).

(** A group as its constructor leaves it.  [unit_nodes] is the array that
    [SimplexElementGroup.__init__] always sets; a group of the base class
    made without unit nodes (the default [None] of
    [MeshElementGroup.__init__]), whose [nnodes] raises, is not
    represented. *)
Record MeshElementGroup := {
  class_of : group_class;
  order : nat;
  vertex_indices : ndarray Z;
  nodes : nodes_tensor;
  unit_nodes : ndarray float;
  element_nr_base : option nat;
  node_nr_base : option nat;
}.

(** What the code takes from outside the repository: modepy's node sets,
    bases and resampling matrices, numpy's operations on the 3-D nodal
    tensors, the contents of memory that [np.empty] hands out, and the
    checks [Mesh.__init__] runs unless told to skip them (node/vertex
    consistency through modepy, index dtypes, element orientation through
    [meshmode.mesh.processing]).  None of them is fixed here: every
    statement below holds whatever they are. *)
Class Environment := {
  basis : Type;
  simplex_onb : nat → nat → result basis;
  warp_and_blend_nodes : Z → nat → result (ndarray float);
  resampling_matrix :
    basis → ndarray float → ndarray float → result (ndarray float);
  (* [np.empty((d, e, n))] *)
  nodes_empty : nat → nat → nat → nodes_tensor;
  (* [np.einsum("ij,dej->dei", mat, t[:, idx, :])] *)
  nodes_resample : ndarray float → nodes_tensor → list Z → result nodes_tensor;
  (* [t[:, idx, :] = x] *)
  nodes_assign : nodes_tensor → list Z → nodes_tensor → result nodes_tensor;
  (* entry (i, j) of a fresh [np.empty] integer array *)
  uninitialized : nat → nat → Z;
  mesh_tests : ndarray float → list MeshElementGroup → result unit;
}.

(** The order in which Python iterates over a set is not specified: it is
    some enumeration of the elements, each once. *)
Class SetOrder := {
  set_iter : gset Z → list Z;
  set_iter_perm : ∀ s, set_iter s ≡ₚ elements s;
}.

#[global] Instance elements_order : SetOrder :=
  {| set_iter := elements; set_iter_perm := λ s, reflexivity _ |}.

Section element_group.
Context `{Environment}.

(** [SimplexElementGroup.__init__]; the test that [vertex_indices] has an
    integral dtype is carried by its type. *)
Definition SimplexElementGroup_init (order : nat) (vertex_indices : ndarray Z)
    (nodes : nodes_tensor) (element_nr_base node_nr_base : option nat)
    (unit_nodes : option (ndarray float)) (dim : option nat)
    : result MeshElementGroup :=
  unit_nodes ←
    match unit_nodes with
    | Some u => Ok u
    | None =>
        match dim with
        | None => Raise TypeError
        | Some dim => warp_and_blend_nodes (Z.of_nat dim) order
        end
    end;
  let dims := shape0 unit_nodes in
  if decide (shape1 vertex_indices ≠ (dims + 1)%nat) then Raise ValueError
  else Ok {| class_of := SimplexElementGroup_class; order := order;
             vertex_indices := vertex_indices; nodes := nodes;
             unit_nodes := unit_nodes;
             element_nr_base := element_nr_base;
             node_nr_base := node_nr_base |}.

(** The keyword arguments of [copy]: [None] when the key is not passed.  For
    the two offsets, [Some None] is the key passed with the value [None]. *)
Record copy_kwargs := {
  kw_order : option nat;
  kw_vertex_indices : option (ndarray Z);
  kw_nodes : option nodes_tensor;
  kw_unit_nodes : option (ndarray float);
  kw_element_nr_base : option (option nat);
  kw_node_nr_base : option (option nat);
}.

Definition no_kwargs : copy_kwargs :=
  {| kw_order := None; kw_vertex_indices := None; kw_nodes := None;
     kw_unit_nodes := None; kw_element_nr_base := None;
     kw_node_nr_base := None |}.

(** [MeshElementGroup.copy]: the two offsets default to [None]; then
    [Record.copy] fills every other field that was not passed from [self]
    and calls the class of [self] on the result. *)
Definition copy (self : MeshElementGroup) (kwargs : copy_kwargs)
    : result MeshElementGroup :=
  let element_nr_base := default None (kw_element_nr_base kwargs) in
  let node_nr_base := default None (kw_node_nr_base kwargs) in
  let order' := default (order self) (kw_order kwargs) in
  let vertex_indices' :=
    default (vertex_indices self) (kw_vertex_indices kwargs) in
  let nodes' := default (nodes self) (kw_nodes kwargs) in
  let unit_nodes' := default (unit_nodes self) (kw_unit_nodes kwargs) in
  match class_of self with
  | MeshElementGroup_class =>
      Ok {| class_of := MeshElementGroup_class; order := order';
            vertex_indices := vertex_indices'; nodes := nodes';
            unit_nodes := unit_nodes';
            element_nr_base := element_nr_base;
            node_nr_base := node_nr_base |}
  | SimplexElementGroup_class =>
      SimplexElementGroup_init order' vertex_indices' nodes'
        element_nr_base node_nr_base (Some unit_nodes') None
  end.

Definition dim (self : MeshElementGroup) : nat := shape0 (unit_nodes self).

Definition join_mesh (self : MeshElementGroup) (element_nr_base' node_nr_base' : nat)
    : result MeshElementGroup :=
  match element_nr_base self with
  | Some _ => Raise RuntimeError
  | None =>
      copy self {| kw_order := None; kw_vertex_indices := None;
                   kw_nodes := None; kw_unit_nodes := None;
                   kw_element_nr_base := Some (Some element_nr_base');
                   kw_node_nr_base := Some (Some node_nr_base') |}
  end.

Definition nelements (self : MeshElementGroup) : nat :=
  shape0 (vertex_indices self).

Definition nunit_nodes (self : MeshElementGroup) : nat :=
  shape1 (unit_nodes self).

Definition nnodes (self : MeshElementGroup) : nat :=
  (nelements self * shape1 (unit_nodes self))%nat.

(** [SimplexElementGroup.face_vertex_indices]; the base class has no such
    method. *)
Definition face_vertex_indices (self : MeshElementGroup)
    : result (list (list Z)) :=
  match class_of self with
  | MeshElementGroup_class => Raise AttributeError
  | SimplexElementGroup_class =>
      if decide (dim self = 1%nat) then Ok [[0; 1]]
      else if decide (dim self = 2%nat) then Ok [[0; 1]; [2; 0]; [1; 2]]
      else if decide (dim self = 3%nat) then
        Ok [[0; 1; 2]; [0; 3; 1]; [0; 2; 3]; [1; 3; 2]]
      else Raise NotImplementedError
  end.

(** [SimplexElementGroup.vertex_unit_coordinates] *)
Definition vertex_unit_coordinates (self : MeshElementGroup)
    : result (ndarray float) :=
  match class_of self with
  | MeshElementGroup_class => Raise AttributeError
  | SimplexElementGroup_class =>
      if decide (dim self = 1%nat) then
        Ok (NdArray 1 [[-1]; [1]])%float
      else if decide (dim self = 2%nat) then
        Ok (NdArray 2 [[-1; -1]; [1; -1]; [-1; 1]])%float
      else if decide (dim self = 3%nat) then
        Ok (NdArray 3 [[-1; -1; -1]; [1; -1; -1]; [-1; 1; -1]; [-1; -1; 1]])%float
      else Raise NotImplementedError
  end.

End element_group.

(** ** meshmode/mesh/__init__.py: the mesh *)

(** [ElementConnectivity] is a [pytools.Record]: it holds whatever keyword
    arguments it was made from, under their names. *)
Abbreviation ElementConnectivity := (gmap string (list Z)).

(** [getattr(record, name)] *)
Definition getattr (record : ElementConnectivity) (name : string)
    : result (list Z) :=
  match record !! name with Some v => Ok v | None => Raise AttributeError end.

(** The three states of [Mesh._element_connectivity]. *)
Inductive connectivity_state :=
  | ConnFalse
  | ConnNone
  | ConnRecord (c : ElementConnectivity).

(** The [element_connectivity] argument of [Mesh.__init__]. *)
Inductive connectivity_arg :=
  | ArgFalse
  | ArgNone
  | ArgTuple (element_neighbors_starts element_neighbors : list Z).

Inductive int_dtype := int32 | int64.

(** One entry of a group's facial adjacency table (an input of face.py that
    the mesh carries): the flagged elements, their local faces and, for the
    boundary entry, the negated tag bits of each face. *)
Module Fa.
Record group := {
  igroup : Z;
  ineighbor_group : option Z;
  elements : list Z;
  element_faces : list Z;
  neighbors : list Z;
}.
End Fa.

(** The table of one element group: a dictionary from the neighboring group
    ([None] for the boundary) to its entry, in the dictionary's iteration
    order. *)
Definition fagrp_map := list (option Z * Fa.group).

(** [fagrp_map.get(key)] *)
Definition fagrp_get (m : fagrp_map) (key : option Z) : option Fa.group :=
  (λ p, snd (snd p)) <$> list_find (λ p, fst p = key) m.

Definition boundary_tag := string.

Record Mesh := {
  vertices : ndarray float;
  groups : list MeshElementGroup;
  _element_connectivity : connectivity_state;
  vertex_id_dtype : int_dtype;
  element_id_dtype : int_dtype;
  (* Modelled from the spec: face.py reads [facial_adjacency_groups] and
     [boundary_tag_bit] off the mesh, and the [Mesh] class under src/ does
     not define them; the spec (section 3) has the facial adjacency table
     and its tag bitmasks as an external input, one table per group. *)
  facial_adjacency_groups : list fagrp_map;
  boundary_tag_bit : option boundary_tag → Z;
}.

(** Modelled from the spec: [mesh.nvertices], which face.py reads and the
    [Mesh] class under src/ does not define; the spec has [vertices] of
    shape (ambient_dim, nvertices). *)
Definition nvertices (mesh : Mesh) : nat := shape1 (vertices mesh).

Definition ambient_dim (mesh : Mesh) : nat := shape0 (vertices mesh).

Definition Mesh_nelements (mesh : Mesh) : nat :=
  sum_list (nelements <$> groups mesh).

Section mesh.
Context `{Environment}.

(** The loop of [Mesh.__init__] that stamps the groups. *)
Fixpoint join_groups (el_nr node_nr : nat) (groups : list MeshElementGroup)
    : result (list MeshElementGroup) :=
  match groups with
  | [] => Ok []
  | g :: groups =>
      ng ← join_mesh g el_nr node_nr;
      new_groups ← join_groups (el_nr + nelements ng) (node_nr + nnodes ng) groups;
      Ok (ng :: new_groups)
  end.

(** [Mesh.__init__]; the mesh it builds carries no facial adjacency. *)
Definition Mesh_init (vertices : ndarray float) (groups : list MeshElementGroup)
    (skip_tests : bool) (element_connectivity : connectivity_arg)
    (vertex_id_dtype element_id_dtype : int_dtype) : result Mesh :=
  new_groups ← join_groups 0 0 groups;
  let element_connectivity :=
    match element_connectivity with
    | ArgFalse => ConnFalse
    | ArgNone => ConnNone
    | ArgTuple nb_starts nbs =>
        ConnRecord (<["element_neighbors_starts" := nb_starts]>
                      (<["element_neighbors" := nbs]> ∅))
    end in
  let self :=
    {| vertices := vertices; groups := new_groups;
       _element_connectivity := element_connectivity;
       vertex_id_dtype := vertex_id_dtype;
       element_id_dtype := element_id_dtype;
       facial_adjacency_groups := [];
       boundary_tag_bit := λ _, 0 |} in
  if skip_tests then Ok self
  else _ ← mesh_tests vertices new_groups; Ok self.

End mesh.

(** ** Vertex-based connectivity *)

Section connectivity.
Context `{SetOrder}.

(** The innermost loop of the first pass: element [iel_grp] of a group is
    appended to the list of each of its vertices.  In
    [vertex_to_element[ivertex].append(iel_base + iel_grp)] the list is
    looked up before the sum is formed. *)
Definition record_element (iel_base : option nat) (iel_grp : nat)
    (vertex_to_element : list (list Z)) (row : list Z)
    : result (list (list Z)) :=
  foldM (λ vertex_to_element ivertex,
           _ ← py_index vertex_to_element ivertex;
           match iel_base with
           | None => Raise TypeError
           | Some iel_base =>
               py_alter (λ l, l ++ [Z.of_nat (iel_base + iel_grp)])
                 vertex_to_element ivertex
           end) vertex_to_element row.

(** The innermost loop of the second pass: the set of element [iel_grp] takes
    in the elements of each of its vertices. *)
Definition gather_neighbors (vertex_to_element : list (list Z))
    (iel_base : option nat) (iel_grp : nat)
    (element_to_element : list (gset Z)) (row : list Z)
    : result (list (gset Z)) :=
  foldM (λ element_to_element ivertex,
           match iel_base with
           | None => Raise TypeError
           | Some iel_base =>
               els ← py_index vertex_to_element ivertex;
               py_alter (λ s, s ∪ list_to_set els) element_to_element
                 (Z.of_nat (iel_base + iel_grp))
           end) element_to_element row.

(** [for grp in mesh.groups: for iel_grp in range(grp.nelements): body] *)
Definition for_each_element {S} (mesh : Mesh)
    (body : option nat → nat → S → list Z → result S) (s : S) : result S :=
  foldM (λ s grp,
           let iel_base := element_nr_base grp in
           foldM (λ s iel_grp,
                    match rows (vertex_indices grp) !! iel_grp with
                    | Some row => body iel_base iel_grp s row
                    | None => Raise IndexError
                    end) s (seq 0 (nelements grp)))
    s (groups mesh).

(** The arrays returned have [mesh.element_id_dtype]; their entries are
    kept as they are, which is what numpy does as long as they fit the
    dtype. *)
Definition _compute_connectivity_from_vertices (mesh : Mesh)
    : result ElementConnectivity :=
  let nvertices := shape1 (vertices mesh) in
  let vertex_to_element : list (list Z) := replicate nvertices [] in
  vertex_to_element ← for_each_element mesh record_element vertex_to_element;
  let element_to_element : list (gset Z) := replicate (Mesh_nelements mesh) ∅ in
  element_to_element ←
    for_each_element mesh (gather_neighbors vertex_to_element)
      element_to_element;
  let lengths := (λ el_list : gset Z, Z.of_nat (size el_list)) <$> element_to_element in
  let neighbors_starts := np_cumsum (0 :: lengths) in
  let neighbors := concat (set_iter <$> element_to_element) in
  last ← py_index neighbors_starts (-1);
  _ ← py_assert (bool_decide (last = Z.of_nat (length neighbors)));
  Ok (<["neighbors_starts" := neighbors_starts]>
        (<["neighbors" := neighbors]> ∅)).

(** The property [Mesh.element_connectivity], for a given way [compute] of
    deriving the connectivity: the value returned (or the exception raised)
    and the mesh afterwards. *)
Definition element_connectivity_by
    (compute : Mesh → result ElementConnectivity) (self : Mesh)
    : result ElementConnectivity * Mesh :=
  match _element_connectivity self with
  | ConnFalse => (Raise ConnectivityUnavailable, self)
  | ConnNone =>
      match compute self with
      | Ok c =>
          (Ok c,
           {| vertices := vertices self; groups := groups self;
              _element_connectivity := ConnRecord c;
              vertex_id_dtype := vertex_id_dtype self;
              element_id_dtype := element_id_dtype self;
              facial_adjacency_groups := facial_adjacency_groups self;
              boundary_tag_bit := boundary_tag_bit self |})
      | Raise e => (Raise e, self)
      end
  | ConnRecord c => (Ok c, self)
  end.

Definition element_connectivity : Mesh → result ElementConnectivity * Mesh :=
  element_connectivity_by _compute_connectivity_from_vertices.

End connectivity.

(** ** meshmode/discretization/connection/face.py *)

(** Modelled from the spec: the discretization built on a mesh, whose class
    is not under src/.  Of a discretization group the code reads the mesh
    group it stands on and its unit nodes; the spec (section 4.4) has the
    discretization of the derived mesh made "via the given node-layout
    factory", group by group. *)
Record DiscretizationGroup := {
  mesh_el_group : MeshElementGroup;
  discr_unit_nodes : ndarray float;
}.

Record Discretization := {
  mesh : Mesh;
  discr_groups : list DiscretizationGroup;
}.

Definition group_factory_t := MeshElementGroup → ndarray float.

Definition Discretization_init (mesh : Mesh) (group_factory : group_factory_t)
    : Discretization :=
  {| mesh := mesh;
     discr_groups :=
       (λ mg, {| mesh_el_group := mg; discr_unit_nodes := group_factory mg |})
         <$> groups mesh |}.

Module Cbd.
Record _ConnectionBatchData := {
  group_source_element_indices : list Z;
  group_target_element_indices : list Z;
  A : ndarray float;
  b : list float;
}.
End Cbd.
Abbreviation _ConnectionBatchData := Cbd._ConnectionBatchData.

(** The records of [meshmode.discretization.connection]; a device array is
    the host array it was made from. *)
Record InterpolationBatch := {
  from_group_index : nat;
  from_element_indices : list Z;
  to_element_indices : list Z;
  result_unit_nodes : ndarray float;
  to_element_face : nat;
}.

Definition DiscretizationConnectionElementGroup := list InterpolationBatch.

Record DiscretizationConnection := {
  from_discr : Discretization;
  to_discr : Discretization;
  connection_groups : list DiscretizationConnectionElementGroup;
}.

(** [enumerate(l)] *)
Definition enumerate {A} (l : list A) : list (nat * A) := imap pair l.

(** [base + indices] for a group offset [base], which may be [None]. *)
Definition offset_indices (base : option nat) (indices : list Z)
    : result (list Z) :=
  match base with
  | Some base => Ok ((λ i, Z.of_nat base + i) <$> indices)
  | None => Raise TypeError
  end.

Section face.
Context `{Environment}.

Definition _build_boundary_connection (vol_discr bdry_discr : Discretization)
    (connection_data : gmap (nat * nat) _ConnectionBatchData)
    : result DiscretizationConnection :=
  connection_groups ←
    mapM (λ '(igrp, (vol_grp, bdry_grp)),
            let mgrp := mesh_el_group vol_grp in
            faces ← face_vertex_indices mgrp;
            mapM (λ face_id,
                    data ← match connection_data !! (igrp, face_id) with
                           | Some data => Ok data
                           | None => Raise KeyError
                           end;
                    let bdry_unit_nodes_01 := to_01 (discr_unit_nodes bdry_grp) in
                    result_unit_nodes ←
                      affine_apply (Cbd.A data) (Cbd.b data) bdry_unit_nodes_01;
                    from_element_indices ←
                      offset_indices (element_nr_base (mesh_el_group vol_grp))
                        (Cbd.group_source_element_indices data);
                    to_element_indices ←
                      offset_indices (element_nr_base (mesh_el_group bdry_grp))
                        (Cbd.group_target_element_indices data);
                    Ok {| from_group_index := igrp;
                          from_element_indices := from_element_indices;
                          to_element_indices := to_element_indices;
                          result_unit_nodes := result_unit_nodes;
                          to_element_face := face_id |})
              (seq 0 (length faces)))
      (enumerate (zip (discr_groups vol_discr) (discr_groups bdry_discr)));
  Ok {| from_discr := vol_discr; to_discr := bdry_discr;
        connection_groups := connection_groups |}.

(** [(nb_el_bits & btag_bit) != 0] with [nb_el_bits = -bdry_grp.neighbors] *)
Definition face_relevant_flags (bdry_grp : Fa.group) (btag_bit : Z) : list bool :=
  (λ nb, negb (Z.land (- nb) btag_bit =? 0)) <$> Fa.neighbors bdry_grp.

Definition _get_face_vertices (mesh : Mesh) (boundary_tag : option boundary_tag)
    : result (list Z) :=
  match boundary_tag with
  | Some _ =>
      let btag_bit := boundary_tag_bit mesh boundary_tag in
      bdry_vertex_vol_nrs ←
        foldM (λ (bdry_vertex_vol_nrs : gset Z) fagrp_map,
                 match fagrp_get fagrp_map None with
                 | None => Ok bdry_vertex_vol_nrs
                 | Some bdry_grp =>
                     _ ← py_assert
                           (forallb (λ nb, nb <? 0) (Fa.neighbors bdry_grp));
                     grp ← py_index (groups mesh) (Fa.igroup bdry_grp);
                     let flags := face_relevant_flags bdry_grp btag_bit in
                     faces ← face_vertex_indices grp;
                     foldM (λ (bdry_vertex_vol_nrs : gset Z) '(iface, fvi),
                              els ← np_mask (Fa.elements bdry_grp) flags;
                              el_vertices ← take_rows (vertex_indices grp) els;
                              face_vertices ← take_cols el_vertices fvi;
                              Ok (bdry_vertex_vol_nrs
                                    ∪ list_to_set (concat (rows face_vertices))))
                       bdry_vertex_vol_nrs (enumerate faces)
                 end)
          ∅ (facial_adjacency_groups mesh);
      Ok (merge_sort Z.le (elements bdry_vertex_vol_nrs))
  | None => Ok (Z.of_nat <$> seq 0 (nvertices mesh))
  end.

(** Lines 148-153 of [make_face_restriction]: the array that renumbers
    volume vertices, [-1] everywhere except at the kept vertices, which get
    0, 1, ... in the order of [bdry_vertex_vol_nrs].  (The source gives the
    array the dtype of the vertex coordinates; the numbers involved are
    integers that a binary64 float holds exactly, and are kept in [Z].) *)
Definition make_vol_to_bdry_vertices (nvertices : nat)
    (bdry_vertex_vol_nrs : list Z) : result (list Z) :=
  foldM (λ vol_to_bdry_vertices '(i, v),
           py_set vol_to_bdry_vertices v (Z.of_nat i))
    (replicate nvertices (-1)) (enumerate bdry_vertex_vol_nrs).

(** Lines 176-196: the (element, local face) pairs of one group. *)
Definition group_boundary_faces_of (boundary_tag : option boundary_tag)
    (btag_bit : Z) (fagrp_map : fagrp_map) : result (list (Z * Z)) :=
  match boundary_tag with
  | Some _ =>
      match fagrp_get fagrp_map None with
      | Some bdry_grp =>
          let flags := face_relevant_flags bdry_grp btag_bit in
          els ← np_mask (Fa.elements bdry_grp) flags;
          faces ← np_mask (Fa.element_faces bdry_grp) flags;
          Ok (zip els faces)
      | None => Ok []
      end
  | None =>
      Ok (concat
            ((λ '(_, fagrp),
                match Fa.ineighbor_group fagrp with
                | None => []
                | Some _ => zip (Fa.elements fagrp) (Fa.element_faces fagrp)
                end) <$> fagrp_map))
  end.

(** [np.empty((n, m), int_dtype)] *)
Definition np_empty (n m : nat) : ndarray Z :=
  NdArray m ((λ i, (λ j, uninitialized i j) <$> seq 0 m) <$> seq 0 n).

(** [target[np.arange(start, start + len(value))] = value]: the rows of
    [value] must have the length of those of [target], or length one, which
    numpy stretches. *)
Definition assign_rows (target : ndarray Z) (start : nat) (value : ndarray Z)
    : result (ndarray Z) :=
  if decide (start + shape0 value ≤ shape0 target)%nat then
    if decide (shape1 value = shape1 target) then
      Ok (NdArray (shape1 target)
            (take start (rows target) ++ rows value
               ++ drop (start + shape0 value) (rows target)))
    else if decide (shape1 value = 1%nat) then
      Ok (NdArray (shape1 target)
            (take start (rows target)
               ++ ((λ r : list Z, replicate (shape1 target) (default 0 (head r)))
                     <$> rows value)
               ++ drop (start + shape0 value) (rows target)))
    else Raise ValueError
  else Raise IndexError.

(** Lines 240-253: the coefficients of the affine map of one local face. *)
Definition face_affine_map (grp_face_vertex_indices : list (list Z))
    (grp_vertex_unit_coordinates : ndarray float) (face_id : nat)
    : result (ndarray float * list float) :=
  loc_face_vertices ←
    match grp_face_vertex_indices !! face_id with
    | Some fvi => Ok fvi
    | None => Raise IndexError
    end;
  face_vertex_unit_coordinates ←
    take_rows grp_vertex_unit_coordinates loc_face_vertices;
  b ← py_index (rows face_vertex_unit_coordinates) 0;
  let A :=
    transpose
      (NdArray (shape1 face_vertex_unit_coordinates)
         ((λ r : list float, zip_with (λ x y, (x - y)%float) r b)
            <$> drop 1 (rows face_vertex_unit_coordinates))) in
  Ok (A, b).

(** Line 255: the nodes of a face in the coordinates of the volume element. *)
Definition face_unit_nodes_of (A : ndarray float) (b : list float)
    (bdry_unit_nodes : ndarray float) : result (ndarray float) :=
  affine_apply A b (to_01 bdry_unit_nodes).

(** What the loop over the faces of a group carries along. *)
Record face_loop_state := {
  st_vertex_indices : ndarray Z;
  st_nodes : nodes_tensor;
  st_connection_data : gmap (nat * nat) _ConnectionBatchData;
  st_batch_base : nat;
}.

(** The body of the loop over [face_id] (lines 226-286). *)
Definition face_batch (igrp : nat) (mgrp : MeshElementGroup)
    (vol_to_bdry_vertices : list Z) (group_boundary_faces : list (Z * Z))
    (bdry_unit_nodes : ndarray float) (vol_basis : basis)
    (grp_face_vertex_indices : list (list Z))
    (grp_vertex_unit_coordinates : ndarray float)
    (st : face_loop_state) (face_id : nat) : result face_loop_state :=
  let batch_boundary_el_numbers_in_grp :=
    fst <$> filter (λ p, snd p = Z.of_nat face_id) group_boundary_faces in
  let batch_base := st_batch_base st in
  let new_el_numbers :=
    Z.of_nat <$> seq batch_base (length batch_boundary_el_numbers_in_grp) in
  loc_face_vertices ←
    match grp_face_vertex_indices !! face_id with
    | Some fvi => Ok fvi
    | None => Raise IndexError
    end;
  '(A, b) ← face_affine_map grp_face_vertex_indices
              grp_vertex_unit_coordinates face_id;
  face_unit_nodes ← face_unit_nodes_of A b bdry_unit_nodes;
  resampling_mat ←
    resampling_matrix vol_basis face_unit_nodes (unit_nodes mgrp);
  el_vertices ← take_rows (vertex_indices mgrp) batch_boundary_el_numbers_in_grp;
  glob_face_vertices ← take_cols el_vertices loc_face_vertices;
  new_rows ← mapM (np_take vol_to_bdry_vertices) (rows glob_face_vertices);
  vertex_indices ←
    assign_rows (st_vertex_indices st) batch_base
      (NdArray (shape1 glob_face_vertices) new_rows);
  new_nodes ←
    nodes_resample resampling_mat (nodes mgrp) batch_boundary_el_numbers_in_grp;
  nodes ← nodes_assign (st_nodes st) new_el_numbers new_nodes;
  Ok {| st_vertex_indices := vertex_indices;
        st_nodes := nodes;
        st_connection_data :=
          <[(igrp, face_id) :=
              {| Cbd.group_source_element_indices :=
                   batch_boundary_el_numbers_in_grp;
                 Cbd.group_target_element_indices := new_el_numbers;
                 Cbd.A := A; Cbd.b := b |}]> (st_connection_data st);
        st_batch_base :=
          (batch_base + length batch_boundary_el_numbers_in_grp)%nat |}.

(** The body of the loop over the groups (lines 168-290). *)
Definition restrict_group (discr : Discretization)
    (boundary_tag : option boundary_tag) (btag_bit : Z)
    (vol_to_bdry_vertices : list Z)
    (acc : list MeshElementGroup * gmap (nat * nat) _ConnectionBatchData)
    (item : nat * (DiscretizationGroup * fagrp_map))
    : result (list MeshElementGroup * gmap (nat * nat) _ConnectionBatchData) :=
  let '(bdry_mesh_groups, connection_data) := acc in
  let '(igrp, (grp, fagrp_map)) := item in
  let mgrp := mesh_el_group grp in
  if decide (class_of mgrp ≠ SimplexElementGroup_class) then
    Raise NotImplementedError
  else
    group_boundary_faces ←
      group_boundary_faces_of boundary_tag btag_bit fagrp_map;
    let ngroup_bdry_elements := length group_boundary_faces in
    let vertex_indices := np_empty ngroup_bdry_elements (dim mgrp + 1 - 1) in
    bdry_unit_nodes ←
      warp_and_blend_nodes (Z.of_nat (dim mgrp) - 1) (order mgrp);
    vol_basis ← simplex_onb (dim mgrp) (order mgrp);
    let nbdry_unit_nodes := shape1 (to_01 bdry_unit_nodes) in
    let nodes :=
      nodes_empty (ambient_dim (mesh discr)) ngroup_bdry_elements
        nbdry_unit_nodes in
    grp_face_vertex_indices ← face_vertex_indices mgrp;
    grp_vertex_unit_coordinates ← vertex_unit_coordinates mgrp;
    st ← foldM (face_batch igrp mgrp vol_to_bdry_vertices group_boundary_faces
                  bdry_unit_nodes vol_basis grp_face_vertex_indices
                  grp_vertex_unit_coordinates)
           {| st_vertex_indices := vertex_indices; st_nodes := nodes;
              st_connection_data := connection_data; st_batch_base := 0 |}
           (seq 0 (length grp_face_vertex_indices));
    bdry_mesh_group ←
      SimplexElementGroup_init (order mgrp) (st_vertex_indices st)
        (st_nodes st) None None (Some bdry_unit_nodes) None;
    Ok (bdry_mesh_groups ++ [bdry_mesh_group], st_connection_data st).

(** Lines 146-292: everything up to the boundary mesh. *)
Definition restrict_mesh (discr : Discretization)
    (boundary_tag : option boundary_tag)
    : result (Mesh * gmap (nat * nat) _ConnectionBatchData) :=
  bdry_vertex_vol_nrs ← _get_face_vertices (mesh discr) boundary_tag;
  vol_to_bdry_vertices ←
    make_vol_to_bdry_vertices (shape1 (vertices (mesh discr)))
      bdry_vertex_vol_nrs;
  bdry_vertices ← take_cols (vertices (mesh discr)) bdry_vertex_vol_nrs;
  let btag_bit := boundary_tag_bit (mesh discr) boundary_tag in
  '(bdry_mesh_groups, connection_data) ←
    foldM (restrict_group discr boundary_tag btag_bit vol_to_bdry_vertices)
      ([], ∅)
      (enumerate (zip (discr_groups discr)
                    (facial_adjacency_groups (mesh discr))));
  bdry_mesh ← Mesh_init bdry_vertices bdry_mesh_groups false ArgFalse int32 int32;
  Ok (bdry_mesh, connection_data).

Definition make_face_restriction (discr : Discretization)
    (group_factory : group_factory_t) (boundary_tag : option boundary_tag)
    : result (Mesh * Discretization * DiscretizationConnection) :=
  '(bdry_mesh, connection_data) ← restrict_mesh discr boundary_tag;
  let bdry_discr := Discretization_init bdry_mesh group_factory in
  connection ← _build_boundary_connection discr bdry_discr connection_data;
  Ok (bdry_mesh, bdry_discr, connection).

End face.

(** ** Element groups as objects

    [copy] and [join_mesh] return a new object and leave [self] alone.  To
    say so, groups live in a store under their addresses; an address that
    the store does not hold does not occur in Python, and raises here. *)

Section objects.
Context `{Environment}.

Definition obj_copy (σ : gmap nat MeshElementGroup) (self : nat)
    (kwargs : copy_kwargs) : result (nat * gmap nat MeshElementGroup) :=
  match σ !! self with
  | None => Raise AttributeError
  | Some g =>
      g' ← copy g kwargs;
      let new := fresh (dom σ) in
      Ok (new, <[new := g']> σ)
  end.

Definition obj_join_mesh (σ : gmap nat MeshElementGroup) (self : nat)
    (element_nr_base' node_nr_base' : nat)
    : result (nat * gmap nat MeshElementGroup) :=
  match σ !! self with
  | None => Raise AttributeError
  | Some g =>
      match element_nr_base g with
      | Some _ => Raise RuntimeError
      | None =>
          obj_copy σ self
            {| kw_order := None; kw_vertex_indices := None;
               kw_nodes := None; kw_unit_nodes := None;
               kw_element_nr_base := Some (Some element_nr_base');
               kw_node_nr_base := Some (Some node_nr_base') |}
      end
  end.

End objects.

(** ** Notions the statements use *)

(** What [SimplexElementGroup.__init__] has checked of a group. *)
Definition group_checked (g : MeshElementGroup) : Prop :=
  class_of g = SimplexElementGroup_class →
  shape1 (vertex_indices g) = (dim g + 1)%nat.

(** The groups carry the offsets [Mesh.__init__] gives them, counting from
    [el_nr]. *)
Fixpoint stamped_from (el_nr : nat) (groups : list MeshElementGroup) : Prop :=
  match groups with
  | [] => True
  | g :: groups =>
      element_nr_base g = Some el_nr
      ∧ stamped_from (el_nr + nelements g) groups
  end.

(** Every vertex index of the mesh names a column of [vertices]. *)
Definition vertex_indices_in_range (mesh : Mesh) : Prop :=
  Forall (λ g, Forall (Forall (λ v, 0 ≤ v < Z.of_nat (nvertices mesh)))
                 (rows (vertex_indices g)))
    (groups mesh).

Definition valid_mesh (mesh : Mesh) : Prop :=
  stamped_from 0 (groups mesh) ∧ vertex_indices_in_range mesh.

(** Element [i] of the mesh-wide numbering has the vertices [row]. *)
Definition element_row (mesh : Mesh) (i : nat) (row : list Z) : Prop :=
  ∃ g iel_base iel_grp,
    g ∈ groups mesh ∧ element_nr_base g = Some iel_base
    ∧ rows (vertex_indices g) !! iel_grp = Some row
    ∧ i = (iel_base + iel_grp)%nat.

Definition share_vertex (mesh : Mesh) (i j : nat) : Prop :=
  ∃ row_i row_j v,
    element_row mesh i row_i ∧ element_row mesh j row_j
    ∧ v ∈ row_i ∧ v ∈ row_j.

(** [neighbors[neighbors_starts[iel] : neighbors_starts[iel+1]]], the
    neighbors of [iel] as the docstring of [ElementConnectivity] reads
    them. *)
Definition neighbors_of (conn : ElementConnectivity) (iel : nat)
    : result (list Z) :=
  neighbors_starts ← getattr conn "neighbors_starts";
  neighbors ← getattr conn "neighbors";
  lo ← py_index neighbors_starts (Z.of_nat iel);
  hi ← py_index neighbors_starts (Z.of_nat iel + 1);
  Ok (py_slice neighbors lo hi).

(** [n] accesses to [mesh.element_connectivity] in a row: what each gave,
    and the mesh after the last. *)
Fixpoint accesses (compute : Mesh → result ElementConnectivity) (n : nat)
    (self : Mesh) : list (result ElementConnectivity) * Mesh :=
  match n with
  | O => ([], self)
  | S n =>
      let '(r, self) := element_connectivity_by compute self in
      let '(rs, self) := accesses compute n self in
      (r :: rs, self)
  end.


(** The (element, local face) pairs of a group that carry the tag bit, and
    the vertices of the mesh that lie on one of them. *)
Definition on_tagged_face (mesh : Mesh) (btag_bit : Z) (v : Z) : Prop :=
  ∃ fagrp_map bdry_grp grp faces k el face nb fvi row c,
    fagrp_map ∈ facial_adjacency_groups mesh
    ∧ fagrp_get fagrp_map None = Some bdry_grp
    ∧ py_index (groups mesh) (Fa.igroup bdry_grp) = Ok grp
    ∧ face_vertex_indices grp = Ok faces
    ∧ Fa.elements bdry_grp !! k = Some el
    ∧ Fa.element_faces bdry_grp !! k = Some face
    ∧ Fa.neighbors bdry_grp !! k = Some nb
    ∧ Z.land (- nb) btag_bit ≠ 0
    ∧ py_index faces face = Ok fvi
    ∧ py_index (rows (vertex_indices grp)) el = Ok row
    ∧ c ∈ fvi
    ∧ py_index row c = Ok v.

(** The (offset of the group, element in the group, vertex) triples that
    the loops over groups, elements and vertices go through, in their
    order. *)
Definition group_incidences (g : MeshElementGroup)
    : list (option nat * nat * Z) :=
  concat ((λ p : nat * list Z,
             (λ v, (element_nr_base g, fst p, v)) <$> snd p)
            <$> enumerate (rows (vertex_indices g))).

Definition incidences (mesh : Mesh) : list (option nat * nat * Z) :=
  concat (group_incidences <$> groups mesh).

(** Vertex [v] belongs to element [i] of the mesh-wide numbering. *)
Definition incident (mesh : Mesh) (i : nat) (v : Z) : Prop :=
  ∃ iel_base iel_grp,
    i = (iel_base + iel_grp)%nat
    ∧ (Some iel_base, iel_grp, v) ∈ incidences mesh.

Definition sumZ (l : list Z) : Z := foldr Z.add 0 l.

(** The record the connectivity builder returns for the neighbor sets
    [element_to_element]. *)
Definition connectivity_of `{SetOrder} (element_to_element : list (gset Z))
    : ElementConnectivity :=
  <["neighbors_starts" :=
      np_cumsum (0 :: ((λ s : gset Z, Z.of_nat (size s)) <$> element_to_element))]>
    (<["neighbors" := concat (set_iter <$> element_to_element)]> ∅).

(** Some assignment [t[:, idx, :] = x] leads from the nodes [t] to [t']. *)
Definition assigned_into `{Environment} (t t' : nodes_tensor) : Prop :=
  ∃ idx x, nodes_assign t idx x = Ok t'.

(** What [make_face_restriction] did for the batch of face [face_id] of the
    mesh group [mgrp], whose batch data is [data]: it took
    [bdry_unit_nodes], the warp-and-blend nodes of the reference face, to
    [face_unit_nodes] by the coefficients of the face, gave these points to
    [resampling_matrix], made with the matrix the nodes of the faces of the
    batch from the nodes of their elements, and assigned them to the
    elements of the batch in the nodes of the derived group;
    [derived_nodes] are the nodes of the derived group after that
    assignment and those of the batches that followed. *)
Definition batch_resampled `{Environment} (mgrp : MeshElementGroup)
    (face_id : nat) (data : _ConnectionBatchData)
    (bdry_unit_nodes face_unit_nodes : ndarray float)
    (derived_nodes : nodes_tensor) : Prop :=
  ∃ faces coords vol_basis resampling_mat new_nodes nodes_before nodes_after,
    face_vertex_indices mgrp = Ok faces
    ∧ vertex_unit_coordinates mgrp = Ok coords
    ∧ face_affine_map faces coords face_id = Ok (Cbd.A data, Cbd.b data)
    ∧ warp_and_blend_nodes (Z.of_nat (dim mgrp) - 1) (order mgrp)
      = Ok bdry_unit_nodes
    ∧ simplex_onb (dim mgrp) (order mgrp) = Ok vol_basis
    ∧ face_unit_nodes_of (Cbd.A data) (Cbd.b data) bdry_unit_nodes
      = Ok face_unit_nodes
    ∧ resampling_matrix vol_basis face_unit_nodes (unit_nodes mgrp)
      = Ok resampling_mat
    ∧ nodes_resample resampling_mat (nodes mgrp)
        (Cbd.group_source_element_indices data) = Ok new_nodes
    ∧ nodes_assign nodes_before (Cbd.group_target_element_indices data)
        new_nodes = Ok nodes_after
    ∧ rtc assigned_into nodes_after derived_nodes.

(** What the loops of [make_face_restriction] keep true of the batch data
    and the derived groups made so far: the data stored for group [igrp]
    and face [face_id] is that of a batch of the mesh group of group
    [igrp], resampled into the nodes of derived group [igrp]. *)
Definition batches_resampled `{Environment} (discr : Discretization)
    (bdry_mesh_groups : list MeshElementGroup)
    (connection_data : gmap (nat * nat) _ConnectionBatchData) : Prop :=
  ∀ igrp face_id data,
    connection_data !! (igrp, face_id) = Some data →
    ∃ vol_grp bdry_mgrp face_unit_nodes,
      discr_groups discr !! igrp = Some vol_grp
      ∧ bdry_mesh_groups !! igrp = Some bdry_mgrp
      ∧ batch_resampled (mesh_el_group vol_grp) face_id data
          (unit_nodes bdry_mgrp) face_unit_nodes (nodes bdry_mgrp).

(** Vertex [v] is listed, for some face of the reference element, in a
    boundary element one of whose faces carries the tag bit. *)
Definition on_flagged_element (mesh : Mesh) (btag_bit : Z) (v : Z) : Prop :=
  ∃ fagrp_map bdry_grp grp faces k el nb fvi row c,
    fagrp_map ∈ facial_adjacency_groups mesh
    ∧ fagrp_get fagrp_map None = Some bdry_grp
    ∧ py_index (groups mesh) (Fa.igroup bdry_grp) = Ok grp
    ∧ face_vertex_indices grp = Ok faces
    ∧ Fa.elements bdry_grp !! k = Some el
    ∧ Fa.neighbors bdry_grp !! k = Some nb
    ∧ Z.land (- nb) btag_bit ≠ 0
    ∧ fvi ∈ faces
    ∧ py_index (rows (vertex_indices grp)) el = Ok row
    ∧ c ∈ fvi
    ∧ py_index row c = Ok v.

(** The tables of a discretization are aligned with its groups: the
    boundary entry of the table of group [igrp] names the mesh group that
    discretization group [igrp] stands on. *)
Definition tables_aligned (discr : Discretization) : Prop :=
  ∀ igrp grp fagrp_map bdry_grp,
    discr_groups discr !! igrp = Some grp →
    facial_adjacency_groups (mesh discr) !! igrp = Some fagrp_map →
    fagrp_get fagrp_map None = Some bdry_grp →
    py_index (groups (mesh discr)) (Fa.igroup bdry_grp)
    = Ok (mesh_el_group grp).

(** Every flagged boundary face is a face of its reference element. *)
Definition flagged_faces_exist (discr : Discretization) (btag_bit : Z) : Prop :=
  ∀ igrp grp fagrp_map bdry_grp faces k face nb,
    discr_groups discr !! igrp = Some grp →
    facial_adjacency_groups (mesh discr) !! igrp = Some fagrp_map →
    fagrp_get fagrp_map None = Some bdry_grp →
    face_vertex_indices (mesh_el_group grp) = Ok faces →
    Fa.element_faces bdry_grp !! k = Some face →
    Fa.neighbors bdry_grp !! k = Some nb →
    Z.land (- nb) btag_bit ≠ 0 →
    0 ≤ face < Z.of_nat (length faces).

(** All entries of the rows lie in [[0, K)]. *)
Definition rows_below (K : Z) (rs : list (list Z)) : Prop :=
  Forall (Forall (λ x, 0 ≤ x < K)) rs.

(** What the loop over the faces keeps true before face [f]: the rows of
    the batches done are assigned, and hold new vertex numbers. *)
Definition rows_assigned (K : Z) (group_boundary_faces : list (Z * Z))
    (f : nat) (st : face_loop_state) : Prop :=
  length (rows (st_vertex_indices st)) = length group_boundary_faces
  ∧ st_batch_base st
    = length (filter (λ p, 0 ≤ snd p < Z.of_nat f) group_boundary_faces)
  ∧ rows_below K (take (st_batch_base st) (rows (st_vertex_indices st))).

(** ** Sample data

    A concrete environment and small meshes on which the statements are
    evaluated.  The node sets are the warp-and-blend nodes of modepy for the
    orders used (they are exact in binary64); the resampling matrix is the
    linear interpolation of a simplex of order one given by its vertices;
    the mesh checks pass. *)

Definition segment_nodes_1 : ndarray float := NdArray 2 [[-1; 1]]%float.
Definition segment_nodes_2 : ndarray float := NdArray 3 [[-1; 0; 1]]%float.
Definition triangle_nodes_1 : ndarray float :=
  NdArray 3 [[-1; 1; -1]; [-1; -1; 1]]%float.
Definition triangle_nodes_2 : ndarray float :=
  NdArray 6 [[-1; 0; 1; -1; 0; -1]; [-1; -1; -1; 0; 0; 1]]%float.

(** Row [i] holds the barycentric coordinates of the [i]-th new node. *)
Definition linear_resampling (new_nodes : ndarray float) : ndarray float :=
  let pts := rows (transpose new_nodes) in
  NdArray (S (shape0 new_nodes))
    ((λ p : list float,
        (foldl (λ acc x, (acc - (x + 1) * 0.5)%float) 1%float p)
          :: ((λ x, ((x + 1) * 0.5)%float) <$> p)) <$> pts).

Definition sample_nodes_resample (mat : ndarray float) (t : nodes_tensor)
    (idx : list Z) : result nodes_tensor :=
  mapM (λ plane : list (list float),
          sel ← np_take plane idx;
          Ok ((λ e : list float, (λ r, fdot r e) <$> rows mat) <$> sel : list (list float))) t.

Definition sample_nodes_assign (t : nodes_tensor) (idx : list Z)
    (x : nodes_tensor) : result nodes_tensor :=
  if decide (length x = length t) then
    mapM (λ '(plane, xplane),
            foldM (λ plane '(i, e), py_set plane i e) plane (zip idx xplane))
      (zip t x)
  else Raise ValueError.

#[global] Instance sample_environment : Environment := {|
  basis := nat * nat;
  simplex_onb := λ dim order, Ok (dim, order);
  warp_and_blend_nodes := λ dims order,
    if decide (dims = 1 ∧ order = 1%nat) then Ok segment_nodes_1
    else if decide (dims = 1 ∧ order = 2%nat) then Ok segment_nodes_2
    else if decide (dims = 2 ∧ order = 1%nat) then Ok triangle_nodes_1
    else if decide (dims = 2 ∧ order = 2%nat) then Ok triangle_nodes_2
    else Raise NotImplementedError;
  resampling_matrix := λ basis new_nodes old_nodes,
    if decide (snd basis = 1%nat) then Ok (linear_resampling new_nodes)
    else Raise NotImplementedError;
  nodes_empty := λ d e n, replicate d (replicate e (replicate n 0%float));
  nodes_resample := sample_nodes_resample;
  nodes_assign := sample_nodes_assign;
  uninitialized := λ _ _, 0;
  mesh_tests := λ _ _, Ok tt;
|}.

(** A straight triangle on the given vertices, not yet part of a mesh. *)
Definition triangle_group (vertex_indices : list (list Z))
    (nodes : nodes_tensor) : MeshElementGroup :=
  {| class_of := SimplexElementGroup_class; order := 1;
     vertex_indices := NdArray 3 vertex_indices; nodes := nodes;
     unit_nodes := triangle_nodes_1;
     element_nr_base := None; node_nr_base := None |}.


(** The unit square cut in two triangles along a diagonal, in two groups. *)
Definition square_vertices : ndarray float :=
  NdArray 4 [[0; 1; 0; 1]; [0; 0; 1; 1]]%float.

Definition square_groups : list MeshElementGroup :=
  [triangle_group [[0; 1; 2]] [[[0; 1; 0]]; [[0; 0; 1]]]%float;
   triangle_group [[1; 3; 2]] [[[1; 1; 0]]; [[0; 1; 1]]]%float].

Definition square_stamped : list MeshElementGroup :=
  [{| class_of := SimplexElementGroup_class; order := 1;
      vertex_indices := NdArray 3 [[0; 1; 2]];
      nodes := [[[0; 1; 0]]; [[0; 0; 1]]]%float;
      unit_nodes := triangle_nodes_1;
      element_nr_base := Some 0%nat; node_nr_base := Some 0%nat |};
   {| class_of := SimplexElementGroup_class; order := 1;
      vertex_indices := NdArray 3 [[1; 3; 2]];
      nodes := [[[1; 1; 0]]; [[0; 1; 1]]]%float;
      unit_nodes := triangle_nodes_1;
      element_nr_base := Some 1%nat; node_nr_base := Some 3%nat |}].

Definition square_mesh : Mesh :=
  {| vertices := square_vertices; groups := square_stamped;
     _element_connectivity := ConnNone;
     vertex_id_dtype := int32; element_id_dtype := int32;
     facial_adjacency_groups := []; boundary_tag_bit := λ _, 0 |}.

(** One triangle whose three faces are boundary faces: face 0 (vertices 0
    and 1) carries the tag bit 1, face 2 (vertices 1 and 2) the tag bit 2 of
    the tag "top", face 1 (vertices 2 and 0) the bit 4. *)
Definition triangle_adjacency : fagrp_map :=
  [(None, {| Fa.igroup := 0; Fa.ineighbor_group := None;
             Fa.elements := [0; 0; 0]; Fa.element_faces := [0; 1; 2];
             Fa.neighbors := [-1; -4; -2] |})].

Definition triangle_mesh : Mesh :=
  {| vertices := NdArray 3 [[0; 1; 0]; [0; 0; 1]]%float;
     groups :=
       [{| class_of := SimplexElementGroup_class; order := 1;
           vertex_indices := NdArray 3 [[0; 1; 2]];
           nodes := [[[0; 1; 0]]; [[0; 0; 1]]]%float;
           unit_nodes := triangle_nodes_1;
           element_nr_base := Some 0%nat; node_nr_base := Some 0%nat |}];
     _element_connectivity := ConnFalse;
     vertex_id_dtype := int32; element_id_dtype := int32;
     facial_adjacency_groups := [triangle_adjacency];
     boundary_tag_bit := λ tag, if decide (tag = Some "top"%string) then 2 else 0 |}.

(** Node layouts of order one and of order two. *)
Definition factory_order_1 : group_factory_t := λ mg,
  if decide (dim mg = 1%nat) then segment_nodes_1 else triangle_nodes_1.
Definition factory_order_2 : group_factory_t := λ mg,
  if decide (dim mg = 1%nat) then segment_nodes_2 else triangle_nodes_2.

(** The triangle with a discretization of order two on it. *)
Definition triangle_discr : Discretization :=
  Discretization_init triangle_mesh factory_order_2.

(** ** Further notions the statements use *)

(** Every vertex entry of the mesh can be processed by the two passes of the
    connectivity builder: its group has an offset, the element it belongs to
    has a number below [mesh.nelements], and the entry addresses a vertex,
    from the front or (when negative) from the end. *)
Definition addressable (mesh : Mesh) : Prop :=
  ∀ g iel_grp row v,
    g ∈ groups mesh → rows (vertex_indices g) !! iel_grp = Some row → v ∈ row →
    ∃ iel_base,
      element_nr_base g = Some iel_base
      ∧ (iel_base + iel_grp < Mesh_nelements mesh)%nat
      ∧ - Z.of_nat (nvertices mesh) ≤ v < Z.of_nat (nvertices mesh).

(** The position that Python reads for the index [v] in a list of [n]
    items. *)
Definition wrap_index (n : nat) (v : Z) : Z :=
  if decide (v < 0) then v + Z.of_nat n else v.

(** The mesh with every negative vertex index replaced by the position it
    addresses. *)
Definition wrap_group (n : nat) (g : MeshElementGroup) : MeshElementGroup :=
  {| class_of := class_of g; order := order g;
     vertex_indices :=
       NdArray (shape1 (vertex_indices g))
         ((λ row : list Z, wrap_index n <$> row) <$> rows (vertex_indices g));
     nodes := nodes g; unit_nodes := unit_nodes g;
     element_nr_base := element_nr_base g;
     node_nr_base := node_nr_base g |}.

Definition wrap_mesh (mesh : Mesh) : Mesh :=
  {| vertices := vertices mesh;
     groups := wrap_group (nvertices mesh) <$> groups mesh;
     _element_connectivity := _element_connectivity mesh;
     vertex_id_dtype := vertex_id_dtype mesh;
     element_id_dtype := element_id_dtype mesh;
     facial_adjacency_groups := facial_adjacency_groups mesh;
     boundary_tag_bit := boundary_tag_bit mesh |}.

(** Every vertex index of the mesh is at least [lo]. *)
Definition vertex_indices_at_least (lo : Z) (mesh : Mesh) : Prop :=
  Forall (λ g, Forall (Forall (λ v, lo ≤ v)) (rows (vertex_indices g)))
    (groups mesh).

(** Every vertex index of the mesh is below [hi]. *)
Definition vertex_indices_below (hi : Z) (mesh : Mesh) : Prop :=
  Forall (λ g, Forall (Forall (λ v, v < hi)) (rows (vertex_indices g)))
    (groups mesh).

(** The pairs of [group_boundary_faces] that the batch of face [face_id]
    takes, in their order, and the number of pairs that the batches of the
    faces before [face_id] have taken. *)
Definition batch_pairs (group_boundary_faces : list (Z * Z)) (face_id : nat)
    : list (Z * Z) :=
  filter (λ p : Z * Z, snd p = Z.of_nat face_id) group_boundary_faces.

Definition batch_start (group_boundary_faces : list (Z * Z)) (face_id : nat)
    : nat :=
  length (filter (λ p : Z * Z, 0 ≤ snd p < Z.of_nat face_id)
            group_boundary_faces).

(** The new vertex numbers of the face of element [el] whose vertices are at
    the positions [loc_face_vertices] of the element. *)
Definition renumbered_face (mgrp : MeshElementGroup)
    (vol_to_bdry_vertices : list Z) (loc_face_vertices : list Z) (el : Z)
    : result (list Z) :=
  row ← py_index (rows (vertex_indices mgrp)) el;
  glob_face_vertices ← np_take row loc_face_vertices;
  np_take vol_to_bdry_vertices glob_face_vertices.

(** What the loop over the faces of group [igrp] has done before face [f]:
    for each face before [f], the rows of its batch hold the new vertex
    numbers of the faces of the batch, one row per pair, from
    [batch_start]; and the batch data stored under [(igrp, face)] has the
    elements of the pairs as sources and the positions of those rows as
    targets. *)
Definition faces_restricted (igrp : nat) (mgrp : MeshElementGroup)
    (vol_to_bdry_vertices : list Z) (group_boundary_faces : list (Z * Z))
    (faces : list (list Z)) (vertex_indices : ndarray Z)
    (connection_data : gmap (nat * nat) _ConnectionBatchData) (f : nat)
    : Prop :=
  (∀ face_id j el face,
     (face_id < f)%nat →
     batch_pairs group_boundary_faces face_id !! j = Some (el, face) →
     ∃ loc r,
       faces !! face_id = Some loc
       ∧ renumbered_face mgrp vol_to_bdry_vertices loc el = Ok r
       ∧ rows vertex_indices
           !! (batch_start group_boundary_faces face_id + j)%nat = Some r)
  ∧ (∀ face_id,
       (face_id < f)%nat →
       ∃ data,
         connection_data !! (igrp, face_id) = Some data
         ∧ Cbd.group_source_element_indices data
           = fst <$> batch_pairs group_boundary_faces face_id
         ∧ Cbd.group_target_element_indices data
           = Z.of_nat <$> seq (batch_start group_boundary_faces face_id)
                            (length (batch_pairs group_boundary_faces face_id))).

(** What [make_face_restriction] makes of group [igrp]: the derived group
    [bg] and the batch data of the faces of the group; the rows of [bg] that
    no batch has assigned are those of the array that [np.empty] gave. *)
Definition group_restricted `{Environment} (boundary_tag : option boundary_tag)
    (btag_bit : Z) (vol_to_bdry_vertices : list Z) (igrp : nat)
    (grp : DiscretizationGroup) (fagrp_map : fagrp_map)
    (bg : MeshElementGroup)
    (connection_data : gmap (nat * nat) _ConnectionBatchData) : Prop :=
  let mgrp := mesh_el_group grp in
  ∃ group_boundary_faces faces,
    group_boundary_faces_of boundary_tag btag_bit fagrp_map
      = Ok group_boundary_faces
    ∧ face_vertex_indices mgrp = Ok faces
    ∧ class_of mgrp = SimplexElementGroup_class
    ∧ (dim mgrp = 2 ∨ dim mgrp = 3)%nat
    ∧ class_of bg = SimplexElementGroup_class
    ∧ order bg = order mgrp
    ∧ warp_and_blend_nodes (Z.of_nat (dim mgrp) - 1) (order mgrp)
      = Ok (unit_nodes bg)
    ∧ (dim bg + 1)%nat = dim mgrp
    ∧ shape1 (vertex_indices bg) = dim mgrp
    ∧ nelements bg = length group_boundary_faces
    ∧ faces_restricted igrp mgrp vol_to_bdry_vertices group_boundary_faces
        faces (vertex_indices bg) connection_data (length faces)
    ∧ ∀ i : nat,
        (batch_start group_boundary_faces (length faces) ≤ i)%nat →
        rows (vertex_indices bg) !! i
        = rows (np_empty (length group_boundary_faces) (dim mgrp)) !! i.

(** ** Further sample data *)

(** The square of [square_mesh] with two of its vertices addressed from the
    end. *)
Definition square_mesh_from_the_end : Mesh :=
  {| vertices := square_vertices;
     groups :=
       [{| class_of := SimplexElementGroup_class; order := 1;
           vertex_indices := NdArray 3 [[0; 1; -2]];
           nodes := [[[0; 1; 0]]; [[0; 0; 1]]]%float;
           unit_nodes := triangle_nodes_1;
           element_nr_base := Some 0%nat; node_nr_base := Some 0%nat |};
        {| class_of := SimplexElementGroup_class; order := 1;
           vertex_indices := NdArray 3 [[1; -1; 2]];
           nodes := [[[1; 1; 0]]; [[0; 1; 1]]]%float;
           unit_nodes := triangle_nodes_1;
           element_nr_base := Some 1%nat; node_nr_base := Some 3%nat |}];
     _element_connectivity := ConnNone;
     vertex_id_dtype := int32; element_id_dtype := int32;
     facial_adjacency_groups := []; boundary_tag_bit := λ _, 0 |}.

(** The square with a vertex index that no vertex has. *)
Definition square_mesh_out_of_range : Mesh :=
  {| vertices := square_vertices;
     groups :=
       [{| class_of := SimplexElementGroup_class; order := 1;
           vertex_indices := NdArray 3 [[0; 1; 4]];
           nodes := [[[0; 1; 0]]; [[0; 0; 1]]]%float;
           unit_nodes := triangle_nodes_1;
           element_nr_base := Some 0%nat; node_nr_base := Some 0%nat |}];
     _element_connectivity := ConnNone;
     vertex_id_dtype := int32; element_id_dtype := int32;
     facial_adjacency_groups := []; boundary_tag_bit := λ _, 0 |}.

(** The square cut in two triangles, in one group; the two triangles meet
    in the edge between the vertices 1 and 2, face 2 of the first and face 1
    of the second. *)
Definition square_interior_adjacency : fagrp_map :=
  [(Some 0, {| Fa.igroup := 0; Fa.ineighbor_group := Some 0;
               Fa.elements := [0; 1]; Fa.element_faces := [2; 1];
               Fa.neighbors := [1; 0] |})].

Definition square_interior_mesh : Mesh :=
  {| vertices := square_vertices;
     groups :=
       [{| class_of := SimplexElementGroup_class; order := 1;
           vertex_indices := NdArray 3 [[0; 1; 2]; [1; 3; 2]];
           nodes := [[[0; 1; 0]; [1; 1; 0]]; [[0; 0; 1]; [0; 1; 1]]]%float;
           unit_nodes := triangle_nodes_1;
           element_nr_base := Some 0%nat; node_nr_base := Some 0%nat |}];
     _element_connectivity := ConnFalse;
     vertex_id_dtype := int32; element_id_dtype := int32;
     facial_adjacency_groups := [square_interior_adjacency];
     boundary_tag_bit := λ _, 0 |}.

Definition square_interior_discr : Discretization :=
  Discretization_init square_interior_mesh factory_order_1.

(** The (element, face) pairs of its interior faces. *)
Definition square_interior_pairs : list (Z * Z) := [(0, 2); (1, 1)].

(** The triangle of [triangle_mesh] with a boundary entry of two flagged
    places, the second of which names a face that a triangle does not
    have. *)
Definition stray_face_adjacency : fagrp_map :=
  [(None, {| Fa.igroup := 0; Fa.ineighbor_group := None;
             Fa.elements := [0; 0]; Fa.element_faces := [2; 7];
             Fa.neighbors := [-2; -2] |})].

Definition stray_face_mesh : Mesh :=
  {| vertices := vertices triangle_mesh;
     groups := groups triangle_mesh;
     _element_connectivity := ConnFalse;
     vertex_id_dtype := int32; element_id_dtype := int32;
     facial_adjacency_groups := [stray_face_adjacency];
     boundary_tag_bit := boundary_tag_bit triangle_mesh |}.

Definition stray_face_discr : Discretization :=
  Discretization_init stray_face_mesh factory_order_1.

Definition stray_face_pairs : list (Z * Z) := [(0, 2); (0, 7)].

(** Another order in which a set may be iterated: that of [elements],
    backwards. *)
Definition reversed_order : SetOrder :=
  {| set_iter := λ s, reverse (elements s);
     set_iter_perm := λ s, reverse_Permutation (elements s) |}.

(** * Properties *)

(** ** The exception monad and loops *)

Lemma bind_Ok {A B} (m : result A) (f : A → result B) (y : B) :
  m ≫= f = Ok y ↔ ∃ x, m = Ok x ∧ f x = Ok y.
Proof.
  destruct m as [x|e]; simpl; split.
  - intros Hf. exists x. done.
  - intros (x' & [= <-] & Hf). done.
  - discriminate.
  - intros (x' & [=] & _).
Qed.

Lemma is_Ok_Ok {A} (x : A) : is_Ok (Ok x).
Proof. by exists x. Qed.

Lemma not_is_Ok_Raise {A} (e : exn) : ¬ is_Ok (@Raise A e).
Proof. intros [x [=]]. Qed.

(** Take apart a hypothesis that says a sequence of steps returned. *)
Ltac inv_Ok :=
  repeat match goal with
  | H : Ok _ = Ok _ |- _ => injection H as H; try subst
  | H : Raise _ = Ok _ |- _ => discriminate H
  | H : _ ≫= _ = Ok _ |- _ =>
      let x := fresh "x" in
      let Hx := fresh "Hx" in
      apply bind_Ok in H as (x & Hx & H)
  end.

Lemma foldM_app {A B} (f : B → A → result B) (b : B) (l1 l2 : list A) :
  foldM f b (l1 ++ l2) = foldM f b l1 ≫= λ b', foldM f b' l2.
Proof.
  revert b. induction l1 as [|a l1 IH]; intros b0; simpl; [done|].
  destruct (f b0 a) as [b1|e]; simpl; [apply IH | done].
Qed.

Lemma foldM_concat {A B} (f : B → A → result B) (b : B) (ls : list (list A)) :
  foldM f b (concat ls) = foldM (λ b l, foldM f b l) b ls.
Proof.
  revert b. induction ls as [|l ls IH]; intros b0; simpl; [done|].
  rewrite foldM_app. destruct (foldM f b0 l); simpl; [apply IH | done].
Qed.

Lemma foldM_fmap {A A' B} (g : A → A') (f : B → A' → result B) (b : B)
    (l : list A) :
  foldM f b (g <$> l) = foldM (λ b a, f b (g a)) b l.
Proof.
  revert b. induction l as [|a l IH]; intros b0; simpl; [done|].
  destruct (f b0 (g a)); simpl; [apply IH | done].
Qed.

Lemma foldM_ext {A B} (f g : B → A → result B) (b : B) (l : list A) :
  (∀ b a, a ∈ l → f b a = g b a) → foldM f b l = foldM g b l.
Proof.
  revert b. induction l as [|a l IH]; intros b0 Hfg; simpl; [done|].
  rewrite Hfg by left. destruct (g b0 a); simpl; [|done].
  apply IH. intros b' a' Ha'. apply Hfg. by right.
Qed.

(** A loop keeps an invariant that each of its steps keeps; [P] may speak
    of the part of the list gone through so far. *)
Lemma foldM_invariant {A B} (P : list A → B → Prop) (f : B → A → result B)
    (b : B) (l : list A) :
  P [] b →
  (∀ done a b, a ∈ l → P done b → ∃ b', f b a = Ok b' ∧ P (done ++ [a]) b') →
  ∃ b', foldM f b l = Ok b' ∧ P l b'.
Proof.
  intros Hb Hstep.
  cut (∀ done rest b, done ++ rest = l → P done b →
         ∃ b', foldM f b rest = Ok b' ∧ P l b').
  { intros Hcut. by apply (Hcut [] l b). }
  intros done rest. revert done.
  induction rest as [|a rest IH]; intros done b0 Hl Hdone; simpl.
  - rewrite app_nil_r in Hl. subst. by exists b0.
  - destruct (Hstep done a b0) as (b1 & -> & Hb1); [|done|].
    { rewrite <-Hl. apply elem_of_app. right. left. }
    simpl. apply (IH (done ++ [a])); [|done].
    by rewrite <-app_assoc.
Qed.

(** The same for a loop that is only known to have returned. *)
Lemma foldM_invariant_Ok {A B} (P : B → Prop) (f : B → A → result B)
    (b b' : B) (l : list A) :
  foldM f b l = Ok b' →
  P b →
  (∀ a b b', a ∈ l → P b → f b a = Ok b' → P b') →
  P b'.
Proof.
  revert b. induction l as [|a l IH]; intros b0 Hf Hb Hstep; simpl in Hf.
  - by inv_Ok.
  - inv_Ok. apply (IH x); [done| |].
    + apply (Hstep a b0); [left|done..].
    + intros a' b1 b2 Ha'. apply Hstep. by right.
Qed.

Lemma mapM_cons {A B} (f : A → result B) (a : A) (l : list A) :
  mapM f (a :: l) = f a ≫= λ y, mapM f l ≫= λ k, Ok (y :: k).
Proof. reflexivity. Qed.

Lemma mapM_Ok_lookup {A B} (f : A → result B) (l : list A) (k : list B) :
  mapM f l = Ok k →
  length k = length l
  ∧ ∀ i a, l !! i = Some a → ∃ y, k !! i = Some y ∧ f a = Ok y.
Proof.
  revert k. induction l as [|a l IH]; intros k Hk.
  - injection Hk as <-. split; [done|]. intros i a' [=].
  - rewrite mapM_cons in Hk. inv_Ok.
    destruct (IH _ Hx0) as [Hlen Hlook]. split; [simpl; lia|].
    intros [|i] a'; simpl.
    + intros [= <-]. eauto.
    + apply Hlook.
Qed.

Lemma mapM_total {A B} (f : A → result B) (l : list A) :
  (∀ a, a ∈ l → is_Ok (f a)) → is_Ok (mapM f l).
Proof.
  induction l as [|a l IH]; intros Hf.
  - by exists [].
  - rewrite mapM_cons. destruct (Hf a) as [y ->]; [left|]. simpl.
    destruct IH as [k ->]; [intros a' Ha'; apply Hf; by right|].
    simpl. by eexists.
Qed.

(** ** Element groups: [copy] and [join_mesh] *)

Section element_group_facts.
Context `{Environment}.

(** What a copy holds, when [copy] returns. *)
Lemma copy_Ok g kwargs g' :
  copy g kwargs = Ok g' →
  g' = {| class_of := class_of g;
          order := default (order g) (kw_order kwargs);
          vertex_indices :=
            default (vertex_indices g) (kw_vertex_indices kwargs);
          nodes := default (nodes g) (kw_nodes kwargs);
          unit_nodes := default (unit_nodes g) (kw_unit_nodes kwargs);
          element_nr_base := default None (kw_element_nr_base kwargs);
          node_nr_base := default None (kw_node_nr_base kwargs) |}
  ∧ group_checked g'.
Proof.
  unfold copy, SimplexElementGroup_init.
  destruct (class_of g) eqn:Hclass; simpl.
  - intros [= <-]. split; [done|]. intros [=].
  - case_decide as Hshape; [done|]. intros [= <-]. split; [done|].
    intros _. exact Hshape.
Qed.

(** [copy] returns when the group it would build passes the test of the
    simplex constructor; copying without new arrays always does, for a
    group that was built by its constructor. *)
Lemma copy_total g kwargs :
  kw_vertex_indices kwargs = None → kw_unit_nodes kwargs = None →
  group_checked g → is_Ok (copy g kwargs).
Proof.
  intros Hvi Hun Hg. unfold copy, SimplexElementGroup_init.
  rewrite Hvi, Hun. destruct (class_of g) eqn:Hclass; simpl.
  - apply is_Ok_Ok.
  - rewrite decide_False; [apply is_Ok_Ok|].
    intros Hne. apply Hne, Hg, Hclass.
Qed.

Lemma join_mesh_Ok g el_nr node_nr ng :
  join_mesh g el_nr node_nr = Ok ng →
  element_nr_base g = None
  ∧ ng = {| class_of := class_of g; order := order g;
            vertex_indices := vertex_indices g; nodes := nodes g;
            unit_nodes := unit_nodes g;
            element_nr_base := Some el_nr; node_nr_base := Some node_nr |}
  ∧ group_checked ng.
Proof.
  unfold join_mesh. destruct (element_nr_base g); [done|].
  intros Hcopy. by apply copy_Ok in Hcopy as [-> ?].
Qed.

Lemma join_mesh_joined g el_nr node_nr base :
  element_nr_base g = Some base →
  join_mesh g el_nr node_nr = Raise RuntimeError.
Proof. unfold join_mesh. by intros ->. Qed.

Lemma join_mesh_total g el_nr node_nr :
  element_nr_base g = None → group_checked g →
  is_Ok (join_mesh g el_nr node_nr).
Proof.
  intros Hbase Hg. unfold join_mesh. rewrite Hbase. by apply copy_total.
Qed.

Lemma sum_list_cons (x : nat) (l : list nat) :
  sum_list (x :: l) = (x + sum_list l)%nat.
Proof. reflexivity. Qed.

(** The stamping loop: group [i] gets the offsets of the groups before it,
    and nothing else of it changes. *)
Lemma join_groups_Ok groups : ∀ el_nr node_nr new_groups,
  join_groups el_nr node_nr groups = Ok new_groups →
  length new_groups = length groups
  ∧ ∀ i g, groups !! i = Some g →
      element_nr_base g = None
      ∧ new_groups !! i =
          Some {| class_of := class_of g; order := order g;
                  vertex_indices := vertex_indices g; nodes := nodes g;
                  unit_nodes := unit_nodes g;
                  element_nr_base :=
                    Some (el_nr + sum_list (nelements <$> take i groups))%nat;
                  node_nr_base :=
                    Some (node_nr + sum_list (nnodes <$> take i groups))%nat |}.
Proof.
  induction groups as [|g groups IH]; intros el_nr node_nr new_groups Hjoin;
    simpl in Hjoin.
  - inv_Ok. split; [done|]. intros i g [=].
  - inv_Ok. apply join_mesh_Ok in Hx as (Hg & -> & _).
    apply IH in Hx0 as [Hlen Hlook]. split; [simpl; lia|].
    intros [|i] g' Hi; simpl in Hi; rewrite lookup_cons.
    + injection Hi as <-. split; [done|].
      f_equal. f_equal; f_equal; simpl; lia.
    + destruct (Hlook i g' Hi) as [Hg' ->]. split; [done|].
      change (take (S i) (g :: groups)) with (g :: take i groups).
      rewrite !fmap_cons, !sum_list_cons.
      f_equal. f_equal; f_equal; unfold nnodes, nelements; simpl; lia.
Qed.

Lemma join_groups_stamped groups : ∀ el_nr node_nr new_groups,
  join_groups el_nr node_nr groups = Ok new_groups →
  stamped_from el_nr new_groups
  ∧ Forall group_checked new_groups
  ∧ nelements <$> new_groups = nelements <$> groups.
Proof.
  induction groups as [|g groups IH]; intros el_nr node_nr new_groups Hjoin;
    simpl in Hjoin.
  - inv_Ok. simpl. by repeat split.
  - inv_Ok. apply join_mesh_Ok in Hx as (Hg & Hx & Hchecked).
    apply IH in Hx0 as (Hstamped & Hall & Hn).
    split; [|split].
    + cbn [stamped_from]. split; [by subst x | done].
    + by constructor.
    + rewrite !fmap_cons, Hn. f_equal. by subst x.
Qed.

Lemma join_groups_total groups : ∀ el_nr node_nr,
  Forall (λ g, element_nr_base g = None ∧ group_checked g) groups →
  is_Ok (join_groups el_nr node_nr groups).
Proof.
  induction groups as [|g groups IH]; intros el_nr node_nr Hall; simpl.
  - apply is_Ok_Ok.
  - apply Forall_cons in Hall as [[Hbase Hg] Hall].
    destruct (join_mesh_total g el_nr node_nr Hbase Hg) as [ng ->]. simpl.
    destruct (IH (el_nr + nelements ng)%nat (node_nr + nnodes ng)%nat Hall)
      as [ngs ->].
    simpl. apply is_Ok_Ok.
Qed.

Lemma Mesh_init_Ok vertices0 groups0 skip_tests conn vdt edt m :
  Mesh_init vertices0 groups0 skip_tests conn vdt edt = Ok m →
  vertices m = vertices0
  ∧ join_groups 0 0 groups0 = Ok (groups m)
  ∧ _element_connectivity m =
      match conn with
      | ArgFalse => ConnFalse
      | ArgNone => ConnNone
      | ArgTuple nb_starts nbs =>
          ConnRecord (<["element_neighbors_starts" := nb_starts]>
                        (<["element_neighbors" := nbs]> ∅))
      end.
Proof.
  unfold Mesh_init. intros Hinit. inv_Ok.
  destruct skip_tests; inv_Ok; by rewrite Hx.
Qed.

End element_group_facts.

(** ** Indexing within bounds *)

Lemma py_index_in_range {A} (l : list A) (i : Z) :
  0 ≤ i < Z.of_nat (length l) →
  ∃ x, l !! Z.to_nat i = Some x ∧ py_index l i = Ok x.
Proof.
  intros Hi. unfold py_index. cbv zeta.
  destruct (decide (i < 0)) as [?|_]; [lia|].
  destruct (decide (0 ≤ i < Z.of_nat (length l))) as [_|?]; [|lia].
  destruct (lookup_lt_is_Some_2 l (Z.to_nat i)) as [x Hx]; [lia|].
  exists x. by rewrite Hx.
Qed.

Lemma py_index_nat {A} (l : list A) (i : nat) (x : A) :
  l !! i = Some x → py_index l (Z.of_nat i) = Ok x.
Proof.
  intros Hx. pose proof (lookup_lt_Some _ _ _ Hx).
  destruct (py_index_in_range l (Z.of_nat i)) as (y & Hy & ->); [lia|].
  rewrite Nat2Z.id in Hy. congruence.
Qed.

Lemma py_index_Ok_elem_of {A} (l : list A) (i : Z) (x : A) :
  py_index l i = Ok x → x ∈ l.
Proof.
  unfold py_index. case_decide; [|done].
  destruct (l !! _) eqn:Hl; [|done]. intros [= <-].
  by eapply list_elem_of_lookup_2.
Qed.

Lemma py_index_last {A} (l : list A) (x : A) :
  py_index (l ++ [x]) (-1) = Ok x.
Proof.
  unfold py_index. cbv zeta. rewrite length_app. simpl.
  destruct (decide (-1 < 0)) as [_|?]; [|lia].
  destruct (decide (0 ≤ -1 + Z.of_nat (length l + 1)
                    < Z.of_nat (length l + 1))) as [_|?]; [|lia].
  replace (Z.to_nat (-1 + Z.of_nat (length l + 1))) with (length l) by lia.
  by rewrite list_lookup_middle.
Qed.

Lemma py_alter_in_range {A} (f : A → A) (l : list A) (i : Z) :
  0 ≤ i < Z.of_nat (length l) →
  py_alter f l i = Ok (alter f (Z.to_nat i) l).
Proof.
  intros Hi. unfold py_alter. cbv zeta.
  destruct (decide (i < 0)) as [?|_]; [lia|].
  destruct (decide (0 ≤ i < Z.of_nat (length l))) as [_|?]; [done|lia].
Qed.

Lemma elem_of_concat {A} (x : A) (ls : list (list A)) :
  x ∈ concat ls ↔ ∃ l, l ∈ ls ∧ x ∈ l.
Proof.
  induction ls as [|l ls IH]; simpl.
  - split; [by intros ?%elem_of_nil | by intros (? & ?%elem_of_nil & _)].
  - rewrite elem_of_app, IH. split.
    + intros [Hx | (l' & Hl' & Hx)].
      * exists l. split; [left | done].
      * exists l'. split; [by right | done].
    + intros (l' & [-> | Hl']%elem_of_cons & Hx); [by left|].
      right. by exists l'.
Qed.

Lemma elem_of_enumerate {A} (l : list A) (i : nat) (x : A) :
  (i, x) ∈ enumerate l ↔ l !! i = Some x.
Proof.
  unfold enumerate. rewrite elem_of_lookup_imap. split.
  - by intros (i' & x' & [= -> ->] & Hx).
  - intros Hx. by exists i, x.
Qed.

(** ** The loops of the connectivity builder *)

Lemma foldM_enumerate_from {A B} (body : nat → B → A → result B) (l : list A) :
  ∀ (pre : list A) (b : B),
    foldM (λ b i, match (pre ++ l) !! i with
                  | Some a => body i b a
                  | None => Raise IndexError
                  end) b (seq (length pre) (length l))
    = foldM (λ b p, body (fst p) b (snd p)) b
        (imap (λ i a, ((length pre + i)%nat, a)) l).
Proof.
  induction l as [|a l IH]; intros pre b0; [done|].
  rewrite imap_cons. simpl. rewrite list_lookup_middle by done.
  rewrite Nat.add_0_r. destruct (body (length pre) b0 a) as [b1|e]; [|done].
  simpl. specialize (IH (pre ++ [a]) b1).
  rewrite <-app_assoc, length_app in IH. simpl in IH.
  rewrite Nat.add_1_r in IH. rewrite IH. f_equal.
  apply imap_ext. intros i x _. simpl. f_equal. lia.
Qed.

Lemma foldM_enumerate {A B} (body : nat → B → A → result B) (l : list A) (b : B) :
  foldM (λ b i, match l !! i with
                | Some a => body i b a
                | None => Raise IndexError
                end) b (seq 0 (length l))
  = foldM (λ b p, body (fst p) b (snd p)) b (enumerate l).
Proof. apply (foldM_enumerate_from body l []). Qed.

(** The loops over groups, elements and vertices are one loop over the
    incidences of the mesh. *)
Lemma for_each_element_incidences {S} (mesh : Mesh)
    (step : option nat → nat → S → Z → result S) (s : S) :
  for_each_element mesh (λ iel_base iel_grp s row,
                           foldM (step iel_base iel_grp) s row) s
  = foldM (λ s t, step (fst (fst t)) (snd (fst t)) s (snd t)) s
      (incidences mesh).
Proof.
  unfold for_each_element, incidences.
  rewrite foldM_concat, foldM_fmap. apply foldM_ext. intros s0 g _.
  unfold group_incidences, nelements, shape0.
  rewrite foldM_enumerate, foldM_concat, foldM_fmap.
  apply foldM_ext. intros s1 [iel_grp row] _. simpl.
  by rewrite foldM_fmap.
Qed.

Lemma elem_of_incidences (mesh : Mesh) (iel_base : option nat)
    (iel_grp : nat) (v : Z) :
  (iel_base, iel_grp, v) ∈ incidences mesh ↔
  ∃ g row, g ∈ groups mesh ∧ element_nr_base g = iel_base
           ∧ rows (vertex_indices g) !! iel_grp = Some row ∧ v ∈ row.
Proof.
  unfold incidences. rewrite elem_of_concat. split.
  - intros (l & (g & -> & Hg)%list_elem_of_fmap & Hl).
    unfold group_incidences in Hl. apply elem_of_concat in Hl as (l & Hl & Hv).
    apply list_elem_of_fmap in Hl as ([i row] & -> & Hrow). simpl in Hv.
    apply list_elem_of_fmap in Hv as (v' & [= Hb -> ->] & Hv').
    apply elem_of_enumerate in Hrow. by exists g, row.
  - intros (g & row & Hg & Hbase & Hrow & Hv).
    exists (group_incidences g). split; [by apply list_elem_of_fmap_2|].
    unfold group_incidences. apply elem_of_concat.
    exists ((λ v, (element_nr_base g, iel_grp, v)) <$> row). split.
    + apply list_elem_of_fmap. exists (iel_grp, row). split; [done|].
      by apply elem_of_enumerate.
    + apply list_elem_of_fmap. exists v. by rewrite Hbase.
Qed.

Lemma incident_element_row (mesh : Mesh) (i : nat) (v : Z) :
  incident mesh i v ↔ ∃ row, element_row mesh i row ∧ v ∈ row.
Proof.
  unfold incident, element_row. split.
  - intros (b & iel & -> & (g & row & ? & ? & ? & ?)%elem_of_incidences).
    exists row. split; [|done]. by exists g, b, iel.
  - intros (row & (g & b & iel & ? & ? & ? & ->) & ?).
    exists b, iel. split; [done|]. apply elem_of_incidences. by exists g, row.
Qed.

Lemma share_vertex_incident (mesh : Mesh) (i j : nat) :
  share_vertex mesh i j ↔ ∃ v, incident mesh i v ∧ incident mesh j v.
Proof.
  unfold share_vertex. split.
  - intros (ri & rj & v & Hi & Hj & Hvi & Hvj). exists v.
    split; apply incident_element_row; eauto.
  - intros (v & (ri & Hi & Hvi)%incident_element_row
              & (rj & Hj & Hvj)%incident_element_row).
    by exists ri, rj, v.
Qed.

(** In a stamped list of groups every element number lies below the number
    of elements counted so far and in the groups. *)
Lemma stamped_from_bound (groups : list MeshElementGroup) :
  ∀ el_nr g iel_base iel_grp row,
    stamped_from el_nr groups → g ∈ groups →
    element_nr_base g = Some iel_base →
    rows (vertex_indices g) !! iel_grp = Some row →
    (el_nr ≤ iel_base
     ∧ iel_base + iel_grp < el_nr + sum_list (nelements <$> groups))%nat.
Proof.
  induction groups as [|g0 groups IH];
    intros el_nr g b iel row Hst Hg Hb Hrow.
  - by apply elem_of_nil in Hg.
  - destruct Hst as [Hb0 Hst]. rewrite fmap_cons, sum_list_cons.
    apply elem_of_cons in Hg as [-> | Hg].
    + apply lookup_lt_Some in Hrow. unfold nelements, shape0.
      rewrite Hb in Hb0. injection Hb0 as ->. lia.
    + specialize (IH _ _ _ _ _ Hst Hg Hb Hrow). lia.
Qed.

Lemma incidences_valid (mesh : Mesh) :
  valid_mesh mesh →
  ∀ t, t ∈ incidences mesh →
    ∃ iel_base, fst (fst t) = Some iel_base
      ∧ (iel_base + snd (fst t) < Mesh_nelements mesh)%nat
      ∧ 0 ≤ snd t < Z.of_nat (nvertices mesh).
Proof.
  intros [Hst Hrange] [[base iel] v] Ht. simpl.
  apply elem_of_incidences in Ht as (g & row & Hg & Hbase & Hrow & Hv).
  pose proof Hst as Hst'. unfold stamped_from in Hst'.
  assert (∃ b, element_nr_base g = Some b) as [b Hb].
  { clear -Hst Hg. revert Hst Hg. generalize 0%nat.
    induction (groups mesh) as [|g0 gs IH]; intros n Hst Hg.
    - by apply elem_of_nil in Hg.
    - destruct Hst as [Hb0 Hst]. apply elem_of_cons in Hg as [-> | Hg]; eauto. }
  exists b. split; [congruence|]. split.
  - destruct (stamped_from_bound _ _ _ _ _ _ Hst Hg Hb Hrow) as [_ Hlt].
    unfold Mesh_nelements. lia.
  - unfold vertex_indices_in_range in Hrange.
    rewrite Forall_forall in Hrange. specialize (Hrange g Hg).
    rewrite Forall_forall in Hrange.
    specialize (Hrange row (list_elem_of_lookup_2 _ _ _ Hrow)).
    rewrite Forall_forall in Hrange. by apply Hrange.
Qed.

(** ** Prefix sums and the slices they delimit *)

Lemma length_cumsum_from (l : list Z) :
  ∀ acc, length (cumsum_from acc l) = length l.
Proof. induction l as [|x l IH]; intros acc; simpl; [done|]. by rewrite IH. Qed.

Lemma cumsum_from_lookup (l : list Z) :
  ∀ acc i, (i < length l)%nat →
    cumsum_from acc l !! i = Some (acc + sumZ (take (S i) l)).
Proof.
  induction l as [|x l IH]; intros acc i Hi; simpl in Hi; [lia|].
  destruct i as [|i]; simpl.
  - destruct l; simpl; f_equal; lia.
  - rewrite IH by lia. f_equal. simpl. lia.
Qed.

Lemma np_cumsum_lookup (l : list Z) (i : nat) :
  (i ≤ length l)%nat → np_cumsum (0 :: l) !! i = Some (sumZ (take i l)).
Proof.
  intros Hi. unfold np_cumsum. simpl. destruct i as [|i]; [done|].
  simpl. rewrite cumsum_from_lookup by lia. done.
Qed.

Lemma length_np_cumsum (l : list Z) : length (np_cumsum l) = length l.
Proof. apply length_cumsum_from. Qed.

Lemma sumZ_cons (x : Z) (l : list Z) : sumZ (x :: l) = x + sumZ l.
Proof. reflexivity. Qed.

Lemma sumZ_app (l1 l2 : list Z) : sumZ (l1 ++ l2) = sumZ l1 + sumZ l2.
Proof. induction l1 as [|x l1 IH]; simpl; [done|]. rewrite IH. lia. Qed.

Lemma sumZ_nonneg (l : list Z) : Forall (λ x, 0 ≤ x) l → 0 ≤ sumZ l.
Proof. induction 1; simpl; lia. Qed.

Lemma sumZ_lengths {A} (ls : list (list A)) :
  sumZ ((λ l, Z.of_nat (length l)) <$> ls) = Z.of_nat (length (concat ls)).
Proof.
  induction ls as [|l ls IH]; [done|].
  rewrite fmap_cons, sumZ_cons, concat_cons, length_app, IH. lia.
Qed.

Lemma py_index_cumsum_last (l : list Z) :
  py_index (np_cumsum (0 :: l)) (-1) = Ok (sumZ l).
Proof.
  unfold py_index. cbv zeta. rewrite length_np_cumsum. simpl length.
  destruct (decide (-1 < 0)) as [_|?]; [|lia].
  destruct (decide (0 ≤ -1 + Z.of_nat (S (length l)) < Z.of_nat (S (length l))))
    as [_|?]; [|lia].
  replace (Z.to_nat (-1 + Z.of_nat (S (length l)))) with (length l) by lia.
  rewrite np_cumsum_lookup by lia. by rewrite firstn_all.
Qed.

(** The slice of the flattened lists between two consecutive prefix sums of
    their lengths is the list at that place. *)
Lemma concat_slice {A} (ls : list (list A)) (i : nat) (l : list A) :
  ls !! i = Some l →
  py_slice (concat ls)
    (sumZ (take i ((λ l, Z.of_nat (length l)) <$> ls)))
    (sumZ (take (S i) ((λ l, Z.of_nat (length l)) <$> ls))) = l.
Proof.
  intros Hl. rewrite <-!fmap_take, !sumZ_lengths.
  rewrite (take_S_r _ _ _ Hl), concat_app. simpl. rewrite app_nil_r.
  rewrite <-(take_drop_middle ls i l Hl) at 1.
  rewrite concat_app. simpl. unfold py_slice. rewrite !Nat2Z.id.
  rewrite drop_app_length, length_app.
  replace (length (concat (take i ls)) + length l
           - length (concat (take i ls)))%nat with (length l) by lia.
  by rewrite take_app_length.
Qed.

Section connectivity_facts.
Context `{SetOrder}.

(** First pass: afterwards the list of a vertex holds exactly the elements
    the vertex belongs to. *)
Lemma record_elements_spec (mesh : Mesh) :
  valid_mesh mesh →
  ∃ vertex_to_element,
    for_each_element mesh record_element (replicate (nvertices mesh) [])
      = Ok vertex_to_element
    ∧ length vertex_to_element = nvertices mesh
    ∧ ∀ (v : nat) els, vertex_to_element !! v = Some els →
        ∀ x, x ∈ els ↔ ∃ i, x = Z.of_nat i ∧ incident mesh i (Z.of_nat v).
Proof.
  intros Hvalid.
  set (step := λ (iel_base : option nat) (iel_grp : nat)
                 (vertex_to_element : list (list Z)) (ivertex : Z),
         _ ← py_index vertex_to_element ivertex;
         match iel_base with
         | None => Raise TypeError
         | Some iel_base =>
             py_alter (λ l, l ++ [Z.of_nat (iel_base + iel_grp)])
               vertex_to_element ivertex
         end).
  change (for_each_element mesh record_element (replicate (nvertices mesh) []))
    with (for_each_element mesh
            (λ iel_base iel_grp s row, foldM (step iel_base iel_grp) s row)
            (replicate (nvertices mesh) [])).
  rewrite for_each_element_incidences.
  pose proof (incidences_valid mesh Hvalid) as Hinc.
  unfold incident.
  generalize dependent (incidences mesh). intros inc Hinc.
  pose (P := λ (done : list (option nat * nat * Z)) (v2e : list (list Z)),
         length v2e = nvertices mesh
         ∧ ∀ (v : nat) els, v2e !! v = Some els →
             ∀ x, x ∈ els ↔
               ∃ i, x = Z.of_nat i
                 ∧ ∃ b iel, i = (b + iel)%nat
                     ∧ (Some b, iel, Z.of_nat v) ∈ done).
  destruct (foldM_invariant P
              (λ s t, step (fst (fst t)) (snd (fst t)) s (snd t))
              (replicate (nvertices mesh) []) inc) as (v2e & Hv2e & HP).
  - split; [apply length_replicate|].
    intros v els [-> _]%lookup_replicate x. split.
    + by intros ?%elem_of_nil.
    + by intros (? & _ & ? & ? & _ & ?%elem_of_nil).
  - intros done [[base iel] v] v2e Ht [Hlen HP].
    destruct (Hinc _ Ht) as (b & Hb & _ & Hv). simpl in Hb, Hv. subst base.
    unfold step. simpl.
    destruct (py_index_in_range v2e v) as (l0 & _ & ->); [lia|]. simpl.
    rewrite py_alter_in_range by lia. eexists. split; [done|].
    split; [by rewrite length_alter|].
    intros v' els Hels x.
    destruct (decide (Z.to_nat v = v')) as [<-|Hne].
    + rewrite list_lookup_alter_eq in Hels.
      destruct (v2e !! Z.to_nat v) as [els0|] eqn:Hels0; [|done].
      injection Hels as <-. rewrite elem_of_app, (HP _ _ Hels0 x).
      rewrite list_elem_of_singleton. split.
      * intros [(i & -> & b' & iel' & -> & Hin) | ->].
        -- exists (b' + iel')%nat. split; [done|]. exists b', iel'.
           split; [done|]. apply elem_of_app. by left.
        -- exists (b + iel)%nat. split; [done|]. exists b, iel.
           split; [done|]. apply elem_of_app. right.
           rewrite Z2Nat.id by lia. apply list_elem_of_singleton. done.
      * intros (i & -> & b' & iel' & -> & [Hin | Hin]%elem_of_app).
        -- left. exists (b' + iel')%nat. split; [done|]. by exists b', iel'.
        -- right. apply list_elem_of_singleton in Hin.
           injection Hin as -> -> _. done.
    + rewrite list_lookup_alter_ne in Hels by done.
      rewrite (HP _ _ Hels x). split.
      * intros (i & -> & b' & iel' & -> & Hin). exists (b' + iel')%nat.
        split; [done|]. exists b', iel'. split; [done|].
        apply elem_of_app. by left.
      * intros (i & -> & b' & iel' & -> & [Hin | Hin]%elem_of_app).
        -- exists (b' + iel')%nat. split; [done|]. by exists b', iel'.
        -- apply list_elem_of_singleton in Hin. injection Hin as _ _ Hv'.
           lia.
  - exists v2e. split; [done|]. destruct HP as [Hlen HP]. split; [done|].
    intros v els Hels x. rewrite (HP v els Hels x). done.
Qed.

(** Second pass: afterwards the set of an element holds exactly what the
    lists of its vertices hold. *)
Lemma gather_neighbors_spec (mesh : Mesh) (vertex_to_element : list (list Z)) :
  valid_mesh mesh →
  length vertex_to_element = nvertices mesh →
  ∃ element_to_element,
    for_each_element mesh (gather_neighbors vertex_to_element)
      (replicate (Mesh_nelements mesh) ∅) = Ok element_to_element
    ∧ length element_to_element = Mesh_nelements mesh
    ∧ ∀ (i : nat) s, element_to_element !! i = Some s →
        ∀ x, x ∈ s ↔
          ∃ (v : nat) els, incident mesh i (Z.of_nat v)
            ∧ vertex_to_element !! v = Some els ∧ x ∈ els.
Proof.
  intros Hvalid Hlen_v2e.
  set (step := λ (iel_base : option nat) (iel_grp : nat)
                 (element_to_element : list (gset Z)) (ivertex : Z),
         match iel_base with
         | None => Raise TypeError
         | Some iel_base =>
             match py_index vertex_to_element ivertex with
             | Ok els =>
                 py_alter (λ s, s ∪ list_to_set els) element_to_element
                   (Z.of_nat (iel_base + iel_grp))
             | Raise e => Raise e
             end
         end).
  change (for_each_element mesh (gather_neighbors vertex_to_element)
            (replicate (Mesh_nelements mesh) ∅))
    with (for_each_element mesh
            (λ iel_base iel_grp s row, foldM (step iel_base iel_grp) s row)
            (replicate (Mesh_nelements mesh) ∅)).
  rewrite for_each_element_incidences.
  pose proof (incidences_valid mesh Hvalid) as Hinc.
  unfold incident.
  generalize dependent (incidences mesh). intros inc Hinc.
  pose (P := λ (done : list (option nat * nat * Z)) (e2e : list (gset Z)),
         length e2e = Mesh_nelements mesh
         ∧ ∀ (i : nat) s, e2e !! i = Some s →
             ∀ x, x ∈ s ↔
               ∃ (v : nat) els,
                 (∃ b iel, i = (b + iel)%nat
                    ∧ (Some b, iel, Z.of_nat v) ∈ done)
                 ∧ vertex_to_element !! v = Some els ∧ x ∈ els).
  destruct (foldM_invariant P
              (λ s t, step (fst (fst t)) (snd (fst t)) s (snd t))
              (replicate (Mesh_nelements mesh) ∅) inc) as (e2e & He2e & HP).
  - split; [apply length_replicate|].
    intros i s [-> _]%lookup_replicate x. split.
    + by intros ?%not_elem_of_empty.
    + by intros (? & ? & (? & ? & _ & ?%elem_of_nil) & _).
  - intros done [[base iel] v] e2e Ht [Hlen HP].
    destruct (Hinc _ Ht) as (b & Hb & Hel & Hv). simpl in Hb, Hel, Hv.
    subst base. simpl.
    destruct (py_index_in_range vertex_to_element v) as (els & Hels & ->);
      [lia|].
    simpl. rewrite py_alter_in_range by lia. eexists. split; [done|].
    split; [by rewrite length_alter|]. rewrite Nat2Z.id.
    intros i s Hs x.
    destruct (decide ((b + iel)%nat = i)) as [<-|Hne].
    + rewrite list_lookup_alter_eq in Hs.
      destruct (e2e !! (b + iel)%nat) as [s0|] eqn:Hs0; [|done].
      injection Hs as <-. rewrite elem_of_union, (HP _ _ Hs0 x).
      rewrite elem_of_list_to_set. split.
      * intros [(v' & els' & (b' & iel' & Heq & Hin) & Hels' & Hx) | Hx].
        -- exists v', els'. split; [|done]. exists b', iel'.
           split; [done|]. apply elem_of_app. by left.
        -- exists (Z.to_nat v), els. split; [|done]. exists b, iel.
           split; [done|]. apply elem_of_app. right.
           rewrite Z2Nat.id by lia. by apply list_elem_of_singleton.
      * intros (v' & els' & (b' & iel' & Heq & [Hin|Hin]%elem_of_app)
                  & Hels' & Hx).
        -- left. exists v', els'. split; [|done]. by exists b', iel'.
        -- right. apply list_elem_of_singleton in Hin.
           injection Hin as _ _ Hv'. rewrite <-Hv', Nat2Z.id in Hels.
           congruence.
    + rewrite list_lookup_alter_ne in Hs by done.
      rewrite (HP _ _ Hs x). split.
      * intros (v' & els' & (b' & iel' & Heq & Hin) & Hels' & Hx).
        exists v', els'. split; [|done]. exists b', iel'.
        split; [done|]. apply elem_of_app. by left.
      * intros (v' & els' & (b' & iel' & Heq & [Hin|Hin]%elem_of_app)
                  & Hels' & Hx).
        -- exists v', els'. split; [|done]. by exists b', iel'.
        -- apply list_elem_of_singleton in Hin. injection Hin as -> -> _.
           lia.
  - exists e2e. split; [done|]. destruct HP as [Hlen HP]. split; [done|].
    intros i s Hs x. rewrite (HP i s Hs x). done.
Qed.

Lemma length_set_iter (s : gset Z) : length (set_iter s) = size s.
Proof. by rewrite (set_iter_perm s). Qed.

Lemma elem_of_set_iter (s : gset Z) (x : Z) : x ∈ set_iter s ↔ x ∈ s.
Proof. by rewrite (set_iter_perm s), elem_of_elements. Qed.

Lemma NoDup_set_iter (s : gset Z) : NoDup (set_iter s).
Proof. rewrite (set_iter_perm s). apply NoDup_elements. Qed.

Lemma sizes_lengths (element_to_element : list (gset Z)) :
  (λ s : gset Z, Z.of_nat (size s)) <$> element_to_element
  = (λ l : list Z, Z.of_nat (length l)) <$> (set_iter <$> element_to_element).
Proof.
  rewrite <-list_fmap_compose. apply list_fmap_ext.
  intros _ s _. simpl. by rewrite length_set_iter.
Qed.

(** On a valid mesh the builder returns, and the sets it flattens hold, for
    each element, the elements that share a vertex with it. *)
Lemma compute_connectivity_spec (mesh : Mesh) :
  valid_mesh mesh →
  ∃ element_to_element : list (gset Z),
    length element_to_element = Mesh_nelements mesh
    ∧ (∀ (i : nat) s, element_to_element !! i = Some s →
         ∀ x, x ∈ s ↔ ∃ j, x = Z.of_nat j ∧ share_vertex mesh i j)
    ∧ _compute_connectivity_from_vertices mesh
      = Ok (connectivity_of element_to_element).
Proof.
  intros Hvalid.
  destruct (record_elements_spec mesh Hvalid) as (v2e & Hv2e & Hlen1 & Hin1).
  destruct (gather_neighbors_spec mesh v2e Hvalid Hlen1)
    as (e2e & He2e & Hlen2 & Hin2).
  exists e2e. split; [done|]. split.
  - intros i s Hs x. rewrite (Hin2 i s Hs x). split.
    + intros (v & els & Hiv & Hels & Hx).
      apply (Hin1 v els Hels x) in Hx as (j & -> & Hjv).
      exists j. split; [done|]. apply share_vertex_incident. eauto.
    + intros (j & -> & (v & Hiv & Hjv)%share_vertex_incident).
      assert (0 ≤ v < Z.of_nat (nvertices mesh)) as Hv.
      { destruct Hiv as (b & iel & _ & Hin).
        by destruct (incidences_valid mesh Hvalid _ Hin) as (_ & _ & _ & ?). }
      destruct (lookup_lt_is_Some_2 v2e (Z.to_nat v)) as [els Hels]; [lia|].
      exists (Z.to_nat v), els. rewrite Z2Nat.id by lia.
      split; [done|]. split; [done|].
      apply (Hin1 _ _ Hels). exists j. by rewrite Z2Nat.id by lia.
  - unfold _compute_connectivity_from_vertices.
    change (shape1 (vertices mesh)) with (nvertices mesh).
    rewrite Hv2e. simpl. rewrite He2e. simpl.
    rewrite py_index_cumsum_last. simpl.
    rewrite sizes_lengths, sumZ_lengths, bool_decide_eq_true_2 by done.
    simpl. unfold connectivity_of. by rewrite sizes_lengths.
Qed.

(** Reading the neighbors of an element off that record gives the
    enumeration of its set. *)
Lemma neighbors_of_connectivity_of (element_to_element : list (gset Z))
    (i : nat) (s : gset Z) :
  element_to_element !! i = Some s →
  neighbors_of (connectivity_of element_to_element) i = Ok (set_iter s).
Proof.
  intros Hs. pose proof (lookup_lt_Some _ _ _ Hs) as Hi.
  unfold neighbors_of, connectivity_of, getattr.
  rewrite lookup_insert_eq. simpl.
  rewrite lookup_insert_ne by done. rewrite lookup_insert_eq. simpl.
  rewrite sizes_lengths.
  assert (Hls : (set_iter <$> element_to_element) !! i = Some (set_iter s))
    by (by rewrite list_lookup_fmap, Hs).
  rewrite (py_index_nat _ i (sumZ (take i
     ((λ l : list Z, Z.of_nat (length l)) <$> (set_iter <$> element_to_element))))).
  2: { apply np_cumsum_lookup. rewrite !length_fmap. lia. }
  simpl. replace (Z.of_nat i + 1) with (Z.of_nat (S i)) by lia.
  rewrite (py_index_nat _ (S i) (sumZ (take (S i)
     ((λ l : list Z, Z.of_nat (length l)) <$> (set_iter <$> element_to_element))))).
  2: { apply np_cumsum_lookup. rewrite !length_fmap. lia. }
  simpl. f_equal. by apply concat_slice.
Qed.

End connectivity_facts.

Lemma sumZ_take_mono (l : list Z) :
  Forall (λ x, 0 ≤ x) l →
  ∀ i j, (i ≤ j)%nat → sumZ (take i l) ≤ sumZ (take j l).
Proof.
  induction 1 as [|x l Hx Hl IH]; intros i j Hij.
  - by rewrite !take_nil.
  - destruct i as [|i], j as [|j]; simpl; try lia.
    + pose proof (sumZ_nonneg (take j l) (Forall_take _ _ _ Hl)) as Hnn.
      lia.
    + specialize (IH i j). lia.
Qed.

(** ** The connectivity derived from the vertices *)

Section connectivity_claims.
Context `{SetOrder}.

(** C3. On a valid mesh (groups stamped with their offsets, vertex indices
    naming vertices of the mesh) [_compute_connectivity_from_vertices]
    returns a connectivity in which element [j] is listed among the
    neighbors of element [i] exactly when the two share a vertex index; in
    particular an element with at least one vertex is listed among its own
    neighbors. *)
Theorem connectivity_lists_vertex_sharing (mesh : Mesh) :
  valid_mesh mesh →
  ∃ conn,
    _compute_connectivity_from_vertices mesh = Ok conn
    ∧ ∀ i, (i < Mesh_nelements mesh)%nat →
        ∃ nbs, neighbors_of conn i = Ok nbs
          ∧ (∀ x, x ∈ nbs ↔ ∃ j, x = Z.of_nat j ∧ share_vertex mesh i j)
          ∧ (∀ row v, element_row mesh i row → v ∈ row → Z.of_nat i ∈ nbs).
Proof.
  intros Hvalid.
  destruct (compute_connectivity_spec mesh Hvalid) as (e2e & Hlen & Hin & Hc).
  exists (connectivity_of e2e). split; [done|]. intros i Hi.
  destruct (lookup_lt_is_Some_2 e2e i) as [s Hs]; [lia|].
  exists (set_iter s). split; [by apply neighbors_of_connectivity_of|].
  assert (Hnbs : ∀ x, x ∈ set_iter s ↔
                   ∃ j, x = Z.of_nat j ∧ share_vertex mesh i j).
  { intros x. by rewrite elem_of_set_iter, (Hin i s Hs x). }
  split; [done|]. intros row v Hrow Hv. apply Hnbs.
  exists i. split; [done|]. by exists row, row, v.
Qed.

(** C4. On a valid mesh the connectivity returned is a compressed adjacency
    list: [neighbors_starts] has one entry more than the mesh has elements,
    starts at 0, never decreases and ends at the length of [neighbors]; and
    the slice it delimits for element [i] is free of duplicates and holds
    exactly the elements that share a vertex with [i]. *)
Theorem connectivity_is_compressed_adjacency (mesh : Mesh) :
  valid_mesh mesh →
  ∃ conn neighbors_starts neighbors,
    _compute_connectivity_from_vertices mesh = Ok conn
    ∧ getattr conn "neighbors_starts" = Ok neighbors_starts
    ∧ getattr conn "neighbors" = Ok neighbors
    ∧ length neighbors_starts = S (Mesh_nelements mesh)
    ∧ py_index neighbors_starts 0 = Ok 0
    ∧ (∀ (i j : nat) a b,
         (i ≤ j)%nat → neighbors_starts !! i = Some a →
         neighbors_starts !! j = Some b → a ≤ b)
    ∧ py_index neighbors_starts (-1) = Ok (Z.of_nat (length neighbors))
    ∧ ∀ i, (i < Mesh_nelements mesh)%nat →
        ∃ lo hi,
          py_index neighbors_starts (Z.of_nat i) = Ok lo
          ∧ py_index neighbors_starts (Z.of_nat i + 1) = Ok hi
          ∧ neighbors_of conn i = Ok (py_slice neighbors lo hi)
          ∧ NoDup (py_slice neighbors lo hi)
          ∧ ∀ x, x ∈ py_slice neighbors lo hi ↔
                 ∃ j, x = Z.of_nat j ∧ share_vertex mesh i j.
Proof.
  intros Hvalid.
  destruct (compute_connectivity_spec mesh Hvalid) as (e2e & Hlen & Hin & Hc).
  set (lens := (λ l : list Z, Z.of_nat (length l)) <$> (set_iter <$> e2e)).
  assert (Hlens : length lens = Mesh_nelements mesh).
  { unfold lens. by rewrite !length_fmap. }
  assert (Hnn : Forall (λ x, 0 ≤ x) lens).
  { unfold lens. apply Forall_fmap, Forall_forall. intros l _. simpl. lia. }
  exists (connectivity_of e2e), (np_cumsum (0 :: lens)),
    (concat (set_iter <$> e2e)).
  assert (Hstarts : getattr (connectivity_of e2e) "neighbors_starts"
                    = Ok (np_cumsum (0 :: lens))).
  { unfold getattr, connectivity_of. rewrite lookup_insert_eq.
    by rewrite sizes_lengths. }
  assert (Hnbs : getattr (connectivity_of e2e) "neighbors"
                 = Ok (concat (set_iter <$> e2e))).
  { unfold getattr, connectivity_of. rewrite lookup_insert_ne by done.
    by rewrite lookup_insert_eq. }
  split; [done|]. split; [done|]. split; [done|]. split.
  { rewrite length_np_cumsum. simpl. by rewrite Hlens. }
  split.
  { apply (py_index_nat _ 0%nat). by apply np_cumsum_lookup; lia. }
  split.
  { intros i j a b Hij Ha Hb.
    pose proof (lookup_lt_Some _ _ _ Ha) as Hi.
    pose proof (lookup_lt_Some _ _ _ Hb) as Hj.
    rewrite length_np_cumsum in Hi, Hj. simpl in Hi, Hj.
    rewrite np_cumsum_lookup in Ha, Hb by lia.
    injection Ha as <-. injection Hb as <-. by apply sumZ_take_mono. }
  split.
  { rewrite py_index_cumsum_last. unfold lens. by rewrite sumZ_lengths. }
  intros i Hi.
  destruct (lookup_lt_is_Some_2 e2e i) as [s Hs]; [lia|].
  exists (sumZ (take i lens)), (sumZ (take (S i) lens)).
  assert (Hslice : py_slice (concat (set_iter <$> e2e))
                     (sumZ (take i lens)) (sumZ (take (S i) lens))
                   = set_iter s).
  { apply concat_slice. by rewrite list_lookup_fmap, Hs. }
  split.
  { apply py_index_nat, np_cumsum_lookup. lia. }
  split.
  { replace (Z.of_nat i + 1) with (Z.of_nat (S i)) by lia.
    apply py_index_nat, np_cumsum_lookup. lia. }
  rewrite Hslice. split; [by apply neighbors_of_connectivity_of|].
  split; [apply NoDup_set_iter|].
  intros x. by rewrite elem_of_set_iter, (Hin i s Hs x).
Qed.

End connectivity_claims.

Lemma square_mesh_valid : valid_mesh square_mesh.
Proof.
  split; [simpl; auto|].
  repeat first [apply Forall_cons; split | apply Forall_nil];
    unfold nvertices; simpl; lia.
Qed.

Lemma connectivity_lists_vertex_sharing_witness :
  valid_mesh square_mesh
  ∧ ∃ conn,
      _compute_connectivity_from_vertices square_mesh = Ok conn
      ∧ ∀ i, (i < Mesh_nelements square_mesh)%nat →
          ∃ nbs, neighbors_of conn i = Ok nbs
            ∧ (∀ x, x ∈ nbs ↔
                 ∃ j, x = Z.of_nat j ∧ share_vertex square_mesh i j)
            ∧ (∀ row v, element_row square_mesh i row → v ∈ row →
                 Z.of_nat i ∈ nbs).
Proof.
  split; [exact square_mesh_valid|].
  exact (connectivity_lists_vertex_sharing square_mesh square_mesh_valid).
Defined.

Lemma connectivity_is_compressed_adjacency_witness :
  valid_mesh square_mesh
  ∧ ∃ conn neighbors_starts neighbors,
      _compute_connectivity_from_vertices square_mesh = Ok conn
      ∧ getattr conn "neighbors_starts" = Ok neighbors_starts
      ∧ getattr conn "neighbors" = Ok neighbors
      ∧ length neighbors_starts = S (Mesh_nelements square_mesh)
      ∧ py_index neighbors_starts 0 = Ok 0
      ∧ (∀ (i j : nat) a b,
           (i ≤ j)%nat → neighbors_starts !! i = Some a →
           neighbors_starts !! j = Some b → a ≤ b)
      ∧ py_index neighbors_starts (-1) = Ok (Z.of_nat (length neighbors))
      ∧ ∀ i, (i < Mesh_nelements square_mesh)%nat →
          ∃ lo hi,
            py_index neighbors_starts (Z.of_nat i) = Ok lo
            ∧ py_index neighbors_starts (Z.of_nat i + 1) = Ok hi
            ∧ neighbors_of conn i = Ok (py_slice neighbors lo hi)
            ∧ NoDup (py_slice neighbors lo hi)
            ∧ ∀ x, x ∈ py_slice neighbors lo hi ↔
                   ∃ j, x = Z.of_nat j ∧ share_vertex square_mesh i j.
Proof.
  split; [exact square_mesh_valid|].
  exact (connectivity_is_compressed_adjacency square_mesh square_mesh_valid).
Defined.

(** On the square the two triangles share the diagonal: each has itself and
    the other as neighbors. *)
Example square_connectivity :
  (c ← _compute_connectivity_from_vertices square_mesh;
   starts ← getattr c "neighbors_starts";
   n0 ← neighbors_of c 0; n1 ← neighbors_of c 1;
   Ok (starts, n0, n1))
  = Ok ([0; 2; 4], [1; 0], [1; 0]).
Proof. vm_compute. reflexivity. Qed.

(** ** Joining a mesh *)

Section joining_claims.
Context `{Environment}.

(** C8. [join_mesh] on a group whose [element_nr_base] is assigned raises;
    [Mesh.__init__] gives group [i] the number of elements, and of nodes, of
    the groups before it as offsets (0 for the first), to a group that had
    none; and the stamped group cannot be stamped again. *)
Theorem mesh_init_stamps_each_group_once vertices0 groups0 skip_tests conn
    vdt edt (m : Mesh) (i : nat) (g : MeshElementGroup) :
  Mesh_init vertices0 groups0 skip_tests conn vdt edt = Ok m →
  groups0 !! i = Some g →
  (∀ g' el_nr node_nr base,
     element_nr_base g' = Some base →
     join_mesh g' el_nr node_nr = Raise RuntimeError)
  ∧ length (groups m) = length groups0
  ∧ element_nr_base g = None
  ∧ ∃ ng,
      groups m !! i = Some ng
      ∧ element_nr_base ng = Some (sum_list (nelements <$> take i groups0))
      ∧ node_nr_base ng = Some (sum_list (nnodes <$> take i groups0))
      ∧ (i = 0%nat → element_nr_base ng = Some 0%nat
                     ∧ node_nr_base ng = Some 0%nat)
      ∧ class_of ng = class_of g ∧ order ng = order g
      ∧ vertex_indices ng = vertex_indices g ∧ nodes ng = nodes g
      ∧ unit_nodes ng = unit_nodes g
      ∧ ∀ el_nr node_nr, join_mesh ng el_nr node_nr = Raise RuntimeError.
Proof.
  intros Hinit Hg. split.
  { intros g' el_nr node_nr base. apply join_mesh_joined. }
  apply Mesh_init_Ok in Hinit as (_ & Hjoin & _).
  apply join_groups_Ok in Hjoin as [Hlen Hlook].
  destruct (Hlook i g Hg) as [Hnone Hng].
  split; [done|]. split; [done|]. eexists. split; [exact Hng|]. simpl.
  split; [done|]. split; [done|]. split.
  { intros ->. done. }
  repeat (split; [done|]).
  intros el_nr node_nr. by eapply join_mesh_joined.
Qed.

(** C9. A copy has the offsets that were passed to [copy] and [None] for
    those that were not, whatever the group copied had; [join_mesh] puts
    its result in a new place and leaves its receiver, which keeps no
    offset, as it was; and the copy of a group, joined or not, joins a mesh
    without error. *)
Theorem copy_resets_offsets (g : MeshElementGroup) :
  group_checked g →
  (∀ kwargs c, copy g kwargs = Ok c →
     element_nr_base c = default None (kw_element_nr_base kwargs)
     ∧ node_nr_base c = default None (kw_node_nr_base kwargs))
  ∧ (∃ c, copy g no_kwargs = Ok c
       ∧ element_nr_base c = None ∧ node_nr_base c = None
       ∧ ∀ el_nr node_nr, ∃ ng,
           join_mesh c el_nr node_nr = Ok ng
           ∧ element_nr_base ng = Some el_nr
           ∧ node_nr_base ng = Some node_nr)
  ∧ (∀ (σ σ' : gmap nat MeshElementGroup) self new el_nr node_nr,
       σ !! self = Some g →
       obj_join_mesh σ self el_nr node_nr = Ok (new, σ') →
       new ≠ self ∧ σ' !! self = Some g ∧ element_nr_base g = None
       ∧ (∀ l, l ≠ new → σ' !! l = σ !! l)
       ∧ ∃ ng, σ' !! new = Some ng
           ∧ element_nr_base ng = Some el_nr
           ∧ node_nr_base ng = Some node_nr)
  ∧ (∀ (σ : gmap nat MeshElementGroup) self el_nr node_nr,
       σ !! self = Some g → element_nr_base g = None →
       is_Ok (obj_join_mesh σ self el_nr node_nr)).
Proof.
  intros Hg. split; [|split; [|split]].
  - intros kwargs c Hc. by apply copy_Ok in Hc as [-> _].
  - destruct (copy_total g no_kwargs) as [c Hc]; [done..|].
    exists c. pose proof Hc as Hc'. apply copy_Ok in Hc' as [Heq Hchecked].
    split; [done|]. split; [by rewrite Heq|]. split; [by rewrite Heq|].
    intros el_nr node_nr.
    destruct (join_mesh_total c el_nr node_nr) as [ng Hng];
      [by rewrite Heq|done|].
    exists ng. split; [done|].
    by apply join_mesh_Ok in Hng as (_ & -> & _).
  - intros σ σ' self new el_nr node_nr Hself Hjoin.
    unfold obj_join_mesh, obj_copy in Hjoin. rewrite Hself in Hjoin.
    destruct (element_nr_base g) eqn:Hbase; [done|].
    inv_Ok.
    assert (fresh (dom σ) ≠ self) as Hne.
    { intros Heq. apply (is_fresh (dom σ)). rewrite Heq.
      apply elem_of_dom. by exists g. }
    split; [done|]. split; [by rewrite lookup_insert_ne|].
    split; [done|]. split.
    { intros l Hl. by rewrite lookup_insert_ne. }
    exists x. rewrite lookup_insert_eq. split; [done|].
    by apply copy_Ok in Hx as [-> _].
  - intros σ self el_nr node_nr Hself Hbase.
    unfold obj_join_mesh, obj_copy. rewrite Hself, Hbase.
    destruct (copy_total g
                {| kw_order := None; kw_vertex_indices := None;
                   kw_nodes := None; kw_unit_nodes := None;
                   kw_element_nr_base := Some (Some el_nr);
                   kw_node_nr_base := Some (Some node_nr) |})
      as [c ->]; [done..|].
    simpl. apply is_Ok_Ok.
Qed.

End joining_claims.

Lemma square_mesh_init :
  Mesh_init square_vertices square_groups false ArgNone int32 int32
  = Ok square_mesh.
Proof. reflexivity. Qed.

Lemma mesh_init_stamps_each_group_once_witness :
  ∃ g ng,
    square_groups !! 1%nat = Some g
    ∧ element_nr_base g = None
    ∧ groups square_mesh !! 1%nat = Some ng
    ∧ element_nr_base ng = Some 1%nat
    ∧ node_nr_base ng = Some 3%nat
    ∧ ∀ el_nr node_nr, join_mesh ng el_nr node_nr = Raise RuntimeError.
Proof.
  exists (triangle_group [[1; 3; 2]] [[[1; 1; 0]]; [[0; 1; 1]]]%float).
  destruct (mesh_init_stamps_each_group_once
              square_vertices square_groups false ArgNone int32 int32
              square_mesh 1
              (triangle_group [[1; 3; 2]] [[[1; 1; 0]]; [[0; 1; 1]]]%float)
              square_mesh_init eq_refl)
    as (_ & _ & Hnone & ng & Hng & Hel & Hnode & _ & _ & _ & _ & _ & _ & Hagain).
  exists ng. repeat split; done.
Defined.

(** The second triangle of the square, which has joined the mesh. *)
Lemma copy_resets_offsets_witness :
  ∃ g c ng,
    square_stamped !! 1%nat = Some g
    ∧ element_nr_base g = Some 1%nat
    ∧ copy g no_kwargs = Ok c
    ∧ element_nr_base c = None ∧ node_nr_base c = None
    ∧ join_mesh c 7 21 = Ok ng
    ∧ element_nr_base ng = Some 7%nat ∧ node_nr_base ng = Some 21%nat.
Proof.
  eexists. 
  destruct (copy_resets_offsets
              {| class_of := SimplexElementGroup_class; order := 1;
                 vertex_indices := NdArray 3 [[1; 3; 2]];
                 nodes := [[[1; 1; 0]]; [[0; 1; 1]]]%float;
                 unit_nodes := triangle_nodes_1;
                 element_nr_base := Some 1%nat; node_nr_base := Some 3%nat |})
    as (_ & (c & Hc & Hel & Hnode & Hjoin) & _ & _).
  { intros _. reflexivity. }
  destruct (Hjoin 7%nat 21%nat) as (ng & Hng & Hel' & Hnode').
  exists c, ng. repeat split; done.
Defined.

(** ** The connectivity of a mesh: unavailable, derived once, or supplied *)

Section cache_claims.
Context `{Environment, SetOrder}.





(** C10. The record a mesh keeps for a connectivity given as a pair has the
    fields [element_neighbors_starts] and [element_neighbors]; the record
    derived from the vertices has the fields [neighbors_starts] and
    [neighbors].  So the record of a mesh that was given the two arrays of
    a derived connectivity has no [neighbors_starts] and no [neighbors], and
    differs from the derived record that holds the same arrays. *)
Theorem supplied_connectivity_has_other_fields vertices0 groups0 skip_tests
    vdt edt (m0 m : Mesh) (derived : ElementConnectivity)
    (nb_starts nbs : list Z) :
  _compute_connectivity_from_vertices m0 = Ok derived →
  getattr derived "neighbors_starts" = Ok nb_starts →
  getattr derived "neighbors" = Ok nbs →
  Mesh_init vertices0 groups0 skip_tests (ArgTuple nb_starts nbs) vdt edt
    = Ok m →
  ∃ supplied,
    element_connectivity m = (Ok supplied, m)
    ∧ getattr supplied "element_neighbors_starts" = Ok nb_starts
    ∧ getattr supplied "element_neighbors" = Ok nbs
    ∧ getattr supplied "neighbors_starts" = Raise AttributeError
    ∧ getattr supplied "neighbors" = Raise AttributeError
    ∧ getattr derived "element_neighbors_starts" = Raise AttributeError
    ∧ getattr derived "element_neighbors" = Raise AttributeError
    ∧ supplied ≠ derived.
Proof.
  intros Hderived Hstarts Hnbs Hinit.
  apply Mesh_init_Ok in Hinit as (_ & _ & Hstate).
  eexists. split.
  { unfold element_connectivity, element_connectivity_by.
    rewrite Hstate. reflexivity. }
  unfold getattr.
  rewrite lookup_insert_eq, (lookup_insert_ne _ "element_neighbors_starts"),
    lookup_insert_eq by done.
  rewrite !lookup_insert_ne, lookup_empty by done.
  split; [done|]. split; [done|]. split; [done|]. split; [done|].
  assert (derived !! "element_neighbors_starts" = None
          ∧ derived !! "element_neighbors" = None) as [Hd1 Hd2].
  { unfold _compute_connectivity_from_vertices in Hderived. inv_Ok.
    rewrite !lookup_insert_ne, lookup_empty by done. done. }
  rewrite Hd1, Hd2. split; [done|]. split; [done|].
  intros Heq. rewrite <-Heq in Hd1.
  by rewrite lookup_insert_eq in Hd1.
Qed.

End cache_claims.



Lemma supplied_connectivity_has_other_fields_witness :
  ∃ derived supplied m,
    _compute_connectivity_from_vertices square_mesh = Ok derived
    ∧ getattr derived "neighbors_starts" = Ok [0; 2; 4]
    ∧ getattr derived "neighbors" = Ok [1; 0; 1; 0]
    ∧ Mesh_init square_vertices square_groups false
        (ArgTuple [0; 2; 4] [1; 0; 1; 0]) int32 int32 = Ok m
    ∧ element_connectivity m = (Ok supplied, m)
    ∧ getattr supplied "neighbors_starts" = Raise AttributeError
    ∧ getattr supplied "neighbors" = Raise AttributeError
    ∧ supplied ≠ derived.
Proof.
  destruct (supplied_connectivity_has_other_fields
              square_vertices square_groups false int32 int32 square_mesh
              {| vertices := square_vertices; groups := square_stamped;
                 _element_connectivity :=
                   ConnRecord (<["element_neighbors_starts" := [0; 2; 4]]>
                                 (<["element_neighbors" := [1; 0; 1; 0]]> ∅));
                 vertex_id_dtype := int32; element_id_dtype := int32;
                 facial_adjacency_groups := []; boundary_tag_bit := λ _, 0 |}
              (connectivity_of [{[0; 1]}; {[0; 1]}])
              [0; 2; 4] [1; 0; 1; 0])
    as (supplied & Hread & _ & _ & Hs1 & Hs2 & _ & _ & Hne);
    [vm_compute; reflexivity..|].
  eexists _, supplied, _.
  split; [vm_compute; reflexivity|].
  split; [vm_compute; reflexivity|].
  split; [vm_compute; reflexivity|].
  split; [vm_compute; reflexivity|].
  split; [exact Hread|]. split; [exact Hs1|]. split; [exact Hs2|]. exact Hne.
Defined.

(** ** The affine map of a face *)





(** ** Positions in the results of loops *)

Lemma mapM_Ok_lookup_inv {A B} (f : A → result B) (l : list A) (k : list B)
    (i : nat) (y : B) :
  mapM f l = Ok k → k !! i = Some y → ∃ a, l !! i = Some a ∧ f a = Ok y.
Proof.
  intros Hk Hy. apply mapM_Ok_lookup in Hk as [Hlen Hlook].
  destruct (lookup_lt_is_Some_2 l i) as [a Ha].
  { rewrite <-Hlen. by eapply lookup_lt_Some. }
  exists a. split; [done|].
  destruct (Hlook i a Ha) as (y' & Hy' & Hfa). congruence.
Qed.

Lemma lookup_enumerate {A} (l : list A) (i : nat) (p : nat * A) :
  enumerate l !! i = Some p ↔ fst p = i ∧ l !! i = Some (snd p).
Proof.
  unfold enumerate. rewrite list_lookup_imap. destruct p as [j x]. simpl.
  destruct (l !! i) as [x'|]; simpl; split.
  - by intros [= <- <-].
  - by intros [<- [= <-]].
  - done.
  - by intros [_ ?].
Qed.

(** ** The vertices kept by a face restriction *)

(** On the triangle, the faces tagged "top" (bit 2) are face 2 of element 0
    alone: the vertices on them are 1 and 2. *)
Lemma triangle_tagged_vertices (v : Z) :
  on_tagged_face triangle_mesh 2 v ↔ v = 1 ∨ v = 2.
Proof.
  split.
  - intros (fm & bg & grp & faces & k & el & face & nb & fvi & row & c
            & Hfm & Hbg & Hgrp & Hfaces & Hel & Hface & Hnb & Hbit & Hfvi
            & Hrow & Hc & Hv).
    simpl in Hfm. apply list_elem_of_singleton in Hfm as ->.
    injection Hbg as <-. simpl in Hgrp. injection Hgrp as <-.
    injection Hfaces as <-. simpl in Hel, Hface, Hnb.
    destruct k as [|[|[|k]]]; simpl in Hel, Hface, Hnb; [| |clear Hbit|done].
    + injection Hnb as <-. by contradict Hbit.
    + injection Hnb as <-. by contradict Hbit.
    + injection Hel as <-. injection Hface as <-.
      injection Hfvi as <-. injection Hrow as <-.
      apply elem_of_cons in Hc as [-> | Hc].
      { injection Hv as <-. by left. }
      apply list_elem_of_singleton in Hc as ->.
      injection Hv as <-. by right.
  - intros Hv.
    exists triangle_adjacency.
    eexists _, _, _, 2%nat, 0, 2, (-2), [1; 2], [0; 1; 2].
    destruct Hv as [-> | ->]; [exists 1 | exists 2];
      (split; [by apply list_elem_of_singleton|]);
      repeat (split; [reflexivity || done|]);
      (split; [|reflexivity]).
    + by left.
    + right. by left.
Qed.

(** C5, where the code differs.  On the triangle whose face 2 (between
    vertices 1 and 2) alone carries the tag, [_get_face_vertices] returns
    the vertices 0, 1 and 2: it lists vertex 0, which lies on no tagged
    face.  (The loop over the faces takes the vertices of every face of each
    flagged element, and never looks at the face the flag is for.) *)
Theorem face_vertices_list_a_vertex_off_the_face :
  _get_face_vertices triangle_mesh (Some "top"%string) = Ok [0; 1; 2]
  ∧ boundary_tag_bit triangle_mesh (Some "top"%string) = 2
  ∧ on_tagged_face triangle_mesh 2 1
  ∧ on_tagged_face triangle_mesh 2 2
  ∧ ¬ on_tagged_face triangle_mesh 2 0.
Proof.
  split; [vm_compute; reflexivity|]. split; [reflexivity|].
  rewrite !triangle_tagged_vertices. split; [by left|]. split; [by right|].
  intros [?|?]; done.
Qed.

(** C6, where the code differs.  The boundary tagged "top" of the triangle
    touches two of its three vertices (1 and 2), and the restricted mesh
    has three vertices and an element whose vertex indices are 1 and 2: the
    index 2 is not below the number of touched vertices. *)
Theorem restricted_mesh_keeps_a_vertex_off_the_boundary :
  ∃ bdry_mesh bdry_discr connection g,
    make_face_restriction triangle_discr factory_order_1 (Some "top"%string)
      = Ok (bdry_mesh, bdry_discr, connection)
    ∧ (∀ v, on_tagged_face triangle_mesh
              (boundary_tag_bit triangle_mesh (Some "top"%string)) v
            ↔ v ∈ [1; 2])
    ∧ vertices bdry_mesh = NdArray 3 [[0; 1; 0]; [0; 0; 1]]%float
    ∧ groups bdry_mesh = [g]
    ∧ vertex_indices g = NdArray 2 [[1; 2]].
Proof.
  do 4 eexists. split; [vm_compute; reflexivity|]. split.
  { intros v. change (boundary_tag_bit triangle_mesh (Some "top"%string))
      with 2.
    rewrite triangle_tagged_vertices, elem_of_cons, list_elem_of_singleton.
    done. }
  split; [reflexivity|]. split; reflexivity.
Qed.

(** ** Further properties of the connectivity and of the kept vertices *)

Lemma share_vertex_sym (mesh : Mesh) (i j : nat) :
  share_vertex mesh i j → share_vertex mesh j i.
Proof.
  intros (ri & rj & v & Hi & Hj & Hvi & Hvj). by exists rj, ri, v.
Qed.

(** X1. The connectivity derived from the vertices is symmetric: [j] is listed
    for [i] exactly when [i] is listed for [j]. *)
Theorem connectivity_symmetric `{SetOrder} (mesh : Mesh) (i j : nat) :
  valid_mesh mesh →
  (i < Mesh_nelements mesh)%nat → (j < Mesh_nelements mesh)%nat →
  ∃ conn nbs_i nbs_j,
    _compute_connectivity_from_vertices mesh = Ok conn
    ∧ neighbors_of conn i = Ok nbs_i
    ∧ neighbors_of conn j = Ok nbs_j
    ∧ (Z.of_nat j ∈ nbs_i ↔ Z.of_nat i ∈ nbs_j).
Proof.
  intros Hvalid Hi Hj.
  destruct (compute_connectivity_spec mesh Hvalid) as (e2e & Hlen & Hin & Hc).
  destruct (lookup_lt_is_Some_2 e2e i) as [si Hsi]; [lia|].
  destruct (lookup_lt_is_Some_2 e2e j) as [sj Hsj]; [lia|].
  exists (connectivity_of e2e), (set_iter si), (set_iter sj).
  split; [done|].
  split; [by apply neighbors_of_connectivity_of|].
  split; [by apply neighbors_of_connectivity_of|].
  rewrite !elem_of_set_iter, (Hin i si Hsi), (Hin j sj Hsj). split.
  - intros (j' & ->%Nat2Z.inj & Hshare). exists i.
    split; [done|]. by apply share_vertex_sym.
  - intros (i' & ->%Nat2Z.inj & Hshare). exists j.
    split; [done|]. by apply share_vertex_sym.
Qed.

Lemma connectivity_symmetric_witness :
  ∃ conn nbs_0 nbs_1,
    _compute_connectivity_from_vertices square_mesh = Ok conn
    ∧ neighbors_of conn 0 = Ok nbs_0
    ∧ neighbors_of conn 1 = Ok nbs_1
    ∧ (1 ∈ nbs_0 ↔ 0 ∈ nbs_1).
Proof.
  apply (connectivity_symmetric square_mesh 0 1 square_mesh_valid);
    unfold Mesh_nelements; simpl; lia.
Defined.

Lemma StronglySorted_le_lt (l : list Z) :
  StronglySorted Z.le l → NoDup l → StronglySorted Z.lt l.
Proof.
  induction 1 as [|x l Hl IH Hx]; intros Hnd; [constructor|].
  apply NoDup_cons in Hnd as [Hnotin Hnd].
  constructor; [by apply IH|].
  rewrite Forall_forall in Hx |- *. intros y Hy.
  specialize (Hx y Hy). assert (x ≠ y) by (by intros ->). lia.
Qed.

Lemma sorted_elements_increasing (s : gset Z) :
  StronglySorted Z.lt (merge_sort Z.le (elements s)).
Proof.
  apply StronglySorted_le_lt.
  - apply StronglySorted_merge_sort; apply _.
  - rewrite merge_sort_Permutation. apply NoDup_elements.
Qed.

Lemma seq_increasing (n : nat) :
  ∀ start, StronglySorted Z.lt (Z.of_nat <$> seq start n).
Proof.
  induction n as [|n IH]; intros start; simpl; constructor; [apply IH|].
  apply Forall_fmap, Forall_forall. intros k [Hk _]%elem_of_seq.
  simpl. lia.
Qed.

(** X2. What [_get_face_vertices] returns is strictly increasing, so sorted and
    free of duplicates; without a boundary tag it is every vertex number of
    the mesh, 0 to [nvertices - 1]. *)
Theorem face_vertices_strictly_increasing (mesh : Mesh)
    (boundary_tag : option boundary_tag) (bdry_vertex_vol_nrs : list Z) :
  _get_face_vertices mesh boundary_tag = Ok bdry_vertex_vol_nrs →
  StronglySorted Z.lt bdry_vertex_vol_nrs
  ∧ (boundary_tag = None →
     bdry_vertex_vol_nrs = Z.of_nat <$> seq 0 (nvertices mesh)).
Proof.
  unfold _get_face_vertices. destruct boundary_tag as [tag|].
  - intros Hget. inv_Ok. split; [apply sorted_elements_increasing | done].
  - intros [= <-]. split; [apply seq_increasing | done].
Qed.

Lemma face_vertices_strictly_increasing_witness :
  StronglySorted Z.lt [0; 1; 2]
  ∧ (Some "top"%string = None →
     [0; 1; 2] = Z.of_nat <$> seq 0 (nvertices triangle_mesh)).
Proof.
  apply (face_vertices_strictly_increasing triangle_mesh
           (Some "top"%string) [0; 1; 2]).
  vm_compute. reflexivity.
Defined.

(** ** What the face vertex collector keeps *)

Lemma foldM_invariant_prefix {A B} (P : list A → B → Prop)
    (f : B → A → result B) (b b' : B) (l : list A) :
  foldM f b l = Ok b' →
  P [] b →
  (∀ done a b b', a ∈ l → P done b → f b a = Ok b' → P (done ++ [a]) b') →
  P l b'.
Proof.
  intros Hf Hb Hstep.
  cut (∀ rest done b, done ++ rest = l → P done b →
         foldM f b rest = Ok b' → P l b').
  { intros Hcut. by apply (Hcut l [] b). }
  induction rest as [|a rest IH]; intros done b0 Hl Hdone Hfold;
    simpl in Hfold.
  - rewrite app_nil_r in Hl. subst. by inv_Ok.
  - inv_Ok. apply (IH (done ++ [a]) x); [by rewrite <-app_assoc| |done].
    apply (Hstep done a b0); [|done..].
    rewrite <-Hl. apply elem_of_app. right. left.
Qed.

Lemma mapM_Ok_elem_of {A B} (f : A → result B) (l : list A) (k : list B) :
  mapM f l = Ok k → ∀ y, y ∈ k ↔ ∃ a, a ∈ l ∧ f a = Ok y.
Proof.
  intros Hk y. split.
  - intros [i Hi]%list_elem_of_lookup.
    destruct (mapM_Ok_lookup_inv _ _ _ _ _ Hk Hi) as (a & Ha & Hfa).
    exists a. split; [by eapply list_elem_of_lookup_2 | done].
  - intros (a & [i Hi]%list_elem_of_lookup & Hfa).
    apply mapM_Ok_lookup in Hk as [_ Hlook].
    destruct (Hlook i a Hi) as (y' & Hy' & Hfa').
    assert (y' = y) as -> by congruence. by eapply list_elem_of_lookup_2.
Qed.

Lemma mapM_Ok_image {A B} (f : A → result B) (l : list A) (k : list B) :
  mapM f l = Ok k → ∀ a, a ∈ l → ∃ y, y ∈ k ∧ f a = Ok y.
Proof.
  intros Hk a [i Hi]%list_elem_of_lookup.
  apply mapM_Ok_lookup in Hk as [_ Hlook].
  destruct (Hlook i a Hi) as (y & Hy & Hfa).
  exists y. split; [by eapply list_elem_of_lookup_2 | done].
Qed.

Lemma np_mask_elem_of {A} (l : list A) (flags : list bool) (r : list A) :
  np_mask l flags = Ok r →
  length flags = length l
  ∧ ∀ x, x ∈ r ↔ ∃ k, l !! k = Some x ∧ flags !! k = Some true.
Proof.
  unfold np_mask. case_decide as Hlen; [|done]. intros [= <-].
  split; [done|]. intros x. rewrite list_elem_of_fmap. split.
  - intros ([x' flag] & -> & [Hflag Hin]%list_elem_of_filter).
    simpl in Hflag. subst flag.
    apply list_elem_of_lookup in Hin as [k Hk].
    apply lookup_zip_with_Some in Hk as (? & ? & [= <- <-] & Hl & Hf).
    by exists k.
  - intros (k & Hl & Hf). exists (x, true). split; [done|].
    apply list_elem_of_filter. split; [done|].
    apply list_elem_of_lookup. exists k.
    apply lookup_zip_with_Some. by exists x, true.
Qed.

Lemma face_relevant_flags_lookup (bdry_grp : Fa.group) (btag_bit : Z) (k : nat) :
  face_relevant_flags bdry_grp btag_bit !! k = Some true ↔
  ∃ nb, Fa.neighbors bdry_grp !! k = Some nb ∧ Z.land (- nb) btag_bit ≠ 0.
Proof.
  unfold face_relevant_flags. rewrite list_lookup_fmap.
  destruct (Fa.neighbors bdry_grp !! k) as [nb|]; simpl; split.
  - intros [= Hnb]. exists nb. split; [done|].
    apply negb_true_iff, Z.eqb_neq in Hnb. done.
  - intros (nb' & [= <-] & Hnb). f_equal.
    by apply negb_true_iff, Z.eqb_neq.
  - done.
  - by intros (? & ? & _).
Qed.

(** The vertices one pass of the loop over the faces adds to the set. *)
Lemma face_vertices_step (grp : MeshElementGroup) (bdry_grp : Fa.group)
    (btag_bit : Z) (fvi : list Z) els el_vertices face_vertices :
  np_mask (Fa.elements bdry_grp) (face_relevant_flags bdry_grp btag_bit)
    = Ok els →
  take_rows (vertex_indices grp) els = Ok el_vertices →
  take_cols el_vertices fvi = Ok face_vertices →
  ∀ v, v ∈ concat (rows face_vertices) ↔
    ∃ k el nb row c,
      Fa.elements bdry_grp !! k = Some el
      ∧ Fa.neighbors bdry_grp !! k = Some nb
      ∧ Z.land (- nb) btag_bit ≠ 0
      ∧ py_index (rows (vertex_indices grp)) el = Ok row
      ∧ c ∈ fvi
      ∧ py_index row c = Ok v.
Proof.
  intros Hels Hrows Hcols v.
  apply np_mask_elem_of in Hels as [_ Hels].
  unfold take_rows, np_take in Hrows.
  apply bind_Ok in Hrows as (rs & Hrs & [= <-]).
  unfold take_cols in Hcols. simpl in Hcols.
  apply bind_Ok in Hcols as (cs & Hcs & [= <-]). simpl.
  pose proof (mapM_Ok_elem_of _ _ _ Hrs) as Hin_rs.
  pose proof (mapM_Ok_elem_of _ _ _ Hcs) as Hin_cs.
  rewrite elem_of_concat. split.
  - intros (r' & Hr' & Hv).
    apply Hin_cs in Hr' as (row & Hrow & Htake).
    apply Hin_rs in Hrow as (el & Hel & Hrow).
    apply (mapM_Ok_elem_of _ _ _ Htake) in Hv as (c & Hc & Hv).
    apply Hels in Hel
      as (k & Hk & (nb & Hnb & Hbit)%face_relevant_flags_lookup).
    by exists k, el, nb, row, c.
  - intros (k & el & nb & row & c & Hk & Hnb & Hbit & Hrow & Hc & Hv).
    assert (Hel : el ∈ els).
    { apply Hels. exists k. split; [done|].
      apply face_relevant_flags_lookup. by exists nb. }
    assert (Hrow' : row ∈ rs) by (apply Hin_rs; by exists el).
    destruct (mapM_Ok_image _ _ _ Hcs row Hrow') as (r' & Hr' & Htake).
    exists r'. split; [done|].
    apply (mapM_Ok_elem_of _ _ _ Htake). by exists c.
Qed.

Lemma on_tagged_face_flagged (mesh : Mesh) (btag_bit v : Z) :
  on_tagged_face mesh btag_bit v → on_flagged_element mesh btag_bit v.
Proof.
  intros (fm & bg & grp & faces & k & el & face & nb & fvi & row & c
          & Hfm & Hbg & Hgrp & Hfaces & Hel & Hface & Hnb & Hbit & Hfvi
          & Hrow & Hc & Hv).
  exists fm, bg, grp, faces, k, el, nb, fvi, row, c.
  repeat (split; [done|]). split; [by eapply py_index_Ok_elem_of|]. done.
Qed.

Lemma face_vertices_elem_of (mesh : Mesh) (tag : boundary_tag)
    (bdry_vertex_vol_nrs : list Z) :
  _get_face_vertices mesh (Some tag) = Ok bdry_vertex_vol_nrs →
  ∀ v, v ∈ bdry_vertex_vol_nrs ↔
       on_flagged_element mesh (boundary_tag_bit mesh (Some tag)) v.
Proof.
  intros Hget.
  unfold _get_face_vertices in Hget.
  apply bind_Ok in Hget as (s & Hfold & [= <-]).
  set (bit := boundary_tag_bit mesh (Some tag)) in *.
  pose (contributes := λ (fm : fagrp_map) (v : Z),
          ∃ bdry_grp grp faces k el nb fvi row c,
            fagrp_get fm None = Some bdry_grp
            ∧ py_index (groups mesh) (Fa.igroup bdry_grp) = Ok grp
            ∧ face_vertex_indices grp = Ok faces
            ∧ Fa.elements bdry_grp !! k = Some el
            ∧ Fa.neighbors bdry_grp !! k = Some nb
            ∧ Z.land (- nb) bit ≠ 0
            ∧ fvi ∈ faces
            ∧ py_index (rows (vertex_indices grp)) el = Ok row
            ∧ c ∈ fvi
            ∧ py_index row c = Ok v).
  assert (Hs : ∀ v, v ∈ s ↔
                 ∃ fm, fm ∈ facial_adjacency_groups mesh ∧ contributes fm v).
  { apply (foldM_invariant_prefix
             (λ done (s : gset Z),
                ∀ v, v ∈ s ↔ ∃ fm, fm ∈ done ∧ contributes fm v)
             _ _ _ _ Hfold).
    - intros v. split; [by intros ?%not_elem_of_empty|].
      by intros (? & ?%elem_of_nil & _).
    - clear s Hfold. intros done fm s s' _ Hdone Hstep.
      destruct (fagrp_get fm None) as [bdry_grp|] eqn:Hbg.
      + apply bind_Ok in Hstep as (_ & _ & Hstep).
        apply bind_Ok in Hstep as (grp & Hgrp & Hstep).
        apply bind_Ok in Hstep as (faces & Hfaces & Hstep).
        assert (Hs' : ∀ v, v ∈ s' ↔
                  v ∈ s ∨ ∃ p, p ∈ enumerate faces ∧
                    ∃ k el nb row c,
                      Fa.elements bdry_grp !! k = Some el
                      ∧ Fa.neighbors bdry_grp !! k = Some nb
                      ∧ Z.land (- nb) bit ≠ 0
                      ∧ py_index (rows (vertex_indices grp)) el = Ok row
                      ∧ c ∈ snd p
                      ∧ py_index row c = Ok v).
        { apply (foldM_invariant_prefix
                   (λ done' (s' : gset Z),
                      ∀ v, v ∈ s' ↔
                        v ∈ s ∨ ∃ p, p ∈ done' ∧
                          ∃ k el nb row c,
                            Fa.elements bdry_grp !! k = Some el
                            ∧ Fa.neighbors bdry_grp !! k = Some nb
                            ∧ Z.land (- nb) bit ≠ 0
                            ∧ py_index (rows (vertex_indices grp)) el = Ok row
                            ∧ c ∈ snd p
                            ∧ py_index row c = Ok v)
                   _ _ _ _ Hstep).
          - intros v. split; [by left|].
            intros [?|(? & ?%elem_of_nil & _)]; done.
          - clear s' Hstep. intros done' [iface fvi] s1 s2 _ Hdone' Hface.
            apply bind_Ok in Hface as (els & Hels & Hface).
            apply bind_Ok in Hface as (el_vertices & Hrows & Hface).
            apply bind_Ok in Hface as (face_vertices & Hcols & [= <-]).
            pose proof (face_vertices_step _ _ _ _ _ _ _ Hels Hrows Hcols)
              as Hadded.
            intros v. rewrite elem_of_union, elem_of_list_to_set, Hdone', Hadded.
            split.
            + intros [[Hv | (p & Hp & Hv)] | Hv].
              * by left.
              * right. exists p. split; [|done]. apply elem_of_app. by left.
              * right. exists (iface, fvi). split; [|done].
                apply elem_of_app. right. by apply list_elem_of_singleton.
            + intros [Hv | (p & [Hp | Hp]%elem_of_app & Hv)].
              * left. by left.
              * left. right. by exists p.
              * apply list_elem_of_singleton in Hp as ->. by right. }
        intros v. rewrite Hs', Hdone. split.
        * intros [(fm' & Hfm' & Hv)
                 | ([iface fvi] & Hp & k & el & nb & row & c & Hv)].
          -- exists fm'. split; [|done]. apply elem_of_app. by left.
          -- exists fm. split.
             { apply elem_of_app. right. by apply list_elem_of_singleton. }
             exists bdry_grp, grp, faces, k, el, nb, fvi, row, c.
             split; [done|]. split; [done|]. split; [done|].
             destruct Hv as (? & ? & ? & ? & ? & ?).
             repeat (split; [done|]). split; [|done].
             apply elem_of_enumerate in Hp.
             by eapply list_elem_of_lookup_2.
        * intros (fm' & [Hfm' | Hfm']%elem_of_app & Hv).
          -- left. by exists fm'.
          -- apply list_elem_of_singleton in Hfm' as ->. right.
             destruct Hv as (bg' & grp' & faces' & k & el & nb & fvi & row & c
                             & Hbg' & Hgrp' & Hfaces' & Hk & Hnb & Hbit & Hfvi
                             & Hrow & Hc & Hv).
             rewrite Hbg in Hbg'. injection Hbg' as <-.
             rewrite Hgrp in Hgrp'. injection Hgrp' as <-.
             rewrite Hfaces in Hfaces'. injection Hfaces' as <-.
             apply list_elem_of_lookup in Hfvi as [iface Hfvi].
             exists (iface, fvi). split; [by apply elem_of_enumerate|].
             by exists k, el, nb, row, c.
      + injection Hstep as <-. intros v. rewrite Hdone. split.
        * intros (fm' & Hfm' & Hv). exists fm'. split; [|done].
          apply elem_of_app. by left.
        * intros (fm' & [Hfm' | Hfm']%elem_of_app & Hv).
          -- by exists fm'.
          -- apply list_elem_of_singleton in Hfm' as ->.
             destruct Hv as (bg' & ? & ? & ? & ? & ? & ? & ? & ? & Hbg' & _).
             congruence. }
  intros v. rewrite merge_sort_Permutation, elem_of_elements, Hs.
  unfold on_flagged_element. split.
  - intros (fm & Hfm & bg & grp & faces & k & el & nb & fvi & row & c & Hv).
    by exists fm, bg, grp, faces, k, el, nb, fvi, row, c.
  - intros (fm & bg & grp & faces & k & el & nb & fvi & row & c & Hfm & Hv).
    exists fm. split; [done|]. by exists bg, grp, faces, k, el, nb, fvi, row, c.
Qed.

(** X3. With a boundary tag, [_get_face_vertices] returns exactly the
    vertices listed, for any face of the reference element, in the boundary
    elements that have a face with the tag bit.  Those include the vertices
    on the tagged faces themselves. *)
Theorem face_vertices_are_those_of_flagged_elements (mesh : Mesh)
    (tag : boundary_tag) (bdry_vertex_vol_nrs : list Z) :
  _get_face_vertices mesh (Some tag) = Ok bdry_vertex_vol_nrs →
  (∀ v, v ∈ bdry_vertex_vol_nrs ↔
        on_flagged_element mesh (boundary_tag_bit mesh (Some tag)) v)
  ∧ (∀ v, on_tagged_face mesh (boundary_tag_bit mesh (Some tag)) v →
          v ∈ bdry_vertex_vol_nrs).
Proof.
  intros Hget. pose proof (face_vertices_elem_of _ _ _ Hget) as Hiff.
  split; [done|]. intros v Hv. by apply Hiff, on_tagged_face_flagged.
Qed.

Lemma face_vertices_are_those_of_flagged_elements_witness :
  (∀ v, v ∈ [0; 1; 2] ↔ on_flagged_element triangle_mesh 2 v)
  ∧ (∀ v, on_tagged_face triangle_mesh 2 v → v ∈ [0; 1; 2]).
Proof.
  apply (face_vertices_are_those_of_flagged_elements triangle_mesh
           "top"%string [0; 1; 2]).
  vm_compute. reflexivity.
Defined.

(** ** The renumbering of the kept vertices *)

Lemma py_index_Ok {A} (l : list A) (i : Z) (x : A) :
  py_index l i = Ok x ↔
  ∃ j : nat,
    Z.of_nat j = (if decide (i < 0) then i + Z.of_nat (length l) else i)
    ∧ l !! j = Some x.
Proof.
  unfold py_index. cbv zeta.
  set (j := if decide (i < 0) then i + Z.of_nat (length l) else i).
  destruct (decide (0 ≤ j < Z.of_nat (length l))) as [Hj|Hj]; split.
  - destruct (l !! Z.to_nat j) as [y|] eqn:Hy; [|done].
    intros [= <-]. exists (Z.to_nat j). split; [lia | done].
  - intros (k & Hk & Hx). rewrite <-Hk, Nat2Z.id, Hx. done.
  - done.
  - intros (k & Hk & Hx). apply lookup_lt_Some in Hx. lia.
Qed.

Lemma py_alter_Ok {A} (f : A → A) (l l' : list A) (i : Z) :
  py_alter f l i = Ok l' ↔
  ∃ j : nat,
    Z.of_nat j = (if decide (i < 0) then i + Z.of_nat (length l) else i)
    ∧ (j < length l)%nat ∧ l' = alter f j l.
Proof.
  unfold py_alter. cbv zeta.
  set (j := if decide (i < 0) then i + Z.of_nat (length l) else i).
  destruct (decide (0 ≤ j < Z.of_nat (length l))) as [Hj|Hj]; split.
  - intros [= <-]. exists (Z.to_nat j). split; [lia|]. split; [lia | done].
  - intros (k & Hk & _ & ->). by rewrite <-Hk, Nat2Z.id.
  - done.
  - intros (k & Hk & Hlt & _). lia.
Qed.

(** The renumbering array holds [-1] or a new number below the number of
    kept vertices, and a new number at every kept vertex. *)
Lemma make_vol_to_bdry_vertices_spec (nvertices : nat)
    (bdry_vertex_vol_nrs vol_to_bdry_vertices : list Z) :
  make_vol_to_bdry_vertices nvertices bdry_vertex_vol_nrs
    = Ok vol_to_bdry_vertices →
  length vol_to_bdry_vertices = nvertices
  ∧ (∀ j x, vol_to_bdry_vertices !! j = Some x →
       x = -1 ∨ 0 ≤ x < Z.of_nat (length bdry_vertex_vol_nrs))
  ∧ (∀ v x, v ∈ bdry_vertex_vol_nrs →
       py_index vol_to_bdry_vertices v = Ok x →
       0 ≤ x < Z.of_nat (length bdry_vertex_vol_nrs)).
Proof.
  unfold make_vol_to_bdry_vertices. intros Hfold.
  set (K := Z.of_nat (length bdry_vertex_vol_nrs)).
  cut (length vol_to_bdry_vertices = nvertices
       ∧ (∀ j x, vol_to_bdry_vertices !! j = Some x → x = -1 ∨ 0 ≤ x < K)
       ∧ ∀ p, p ∈ enumerate bdry_vertex_vol_nrs →
           ∀ x, py_index vol_to_bdry_vertices (snd p) = Ok x → 0 ≤ x).
  { intros (Hlen & Hval & Hkept). split; [done|]. split; [done|].
    intros v x [i Hi]%list_elem_of_lookup Hx.
    pose proof (Hkept (i, v) (proj2 (elem_of_enumerate _ _ _) Hi) x Hx).
    apply py_index_Ok in Hx as (j & _ & Hj).
    destruct (Hval j x Hj); lia. }
  apply (foldM_invariant_prefix
           (λ done (arr : list Z),
              length arr = nvertices
              ∧ (∀ j x, arr !! j = Some x → x = -1 ∨ 0 ≤ x < K)
              ∧ ∀ p, p ∈ done → ∀ x, py_index arr (snd p) = Ok x → 0 ≤ x)
           _ _ _ _ Hfold).
  - split; [apply length_replicate|]. split.
    + intros j x [-> _]%lookup_replicate. by left.
    + by intros p ?%elem_of_nil.
  - clear vol_to_bdry_vertices Hfold.
    intros done [i v] arr arr' Hin (Hlen & Hval & Hkept) Hstep.
    apply elem_of_enumerate, lookup_lt_Some in Hin.
    unfold py_set in Hstep.
    apply py_alter_Ok in Hstep as (j & Hj & Hlt & ->).
    split; [by rewrite length_alter|]. split.
    + intros j' x. destruct (decide (j = j')) as [<-|Hjj'].
      * rewrite list_lookup_alter_eq.
        destruct (arr !! j); [|done]. simpl. intros [= <-].
        right. unfold K. lia.
      * rewrite list_lookup_alter_ne by done. apply Hval.
    + intros p Hp x Hx. apply py_index_Ok in Hx as (j' & Hj' & Hx).
      rewrite length_alter in Hj'.
      destruct (decide (j = j')) as [<-|Hjj'].
      * rewrite list_lookup_alter_eq in Hx.
        destruct (arr !! j); [|done]. simpl in Hx.
        injection Hx as <-. lia.
      * rewrite list_lookup_alter_ne in Hx by done.
        apply elem_of_app in Hp as [Hp | Hp].
        -- apply (Hkept p Hp). apply py_index_Ok. by exists j'.
        -- apply list_elem_of_singleton in Hp as ->. simpl in Hj'.
           rewrite <-Hj in Hj'. apply Nat2Z.inj in Hj'. done.
Qed.

Lemma foldM_seq_invariant {B} (P : nat → B → Prop) (f : B → nat → result B)
    (n : nat) (b b' : B) :
  foldM f b (seq 0 n) = Ok b' →
  P 0%nat b →
  (∀ i b b', (i < n)%nat → P i b → f b i = Ok b' → P (S i) b') →
  P n b'.
Proof.
  intros Hf Hb Hstep.
  cut (∀ len start b, (start + len = n)%nat → P start b →
         foldM f b (seq start len) = Ok b' → P n b').
  { intros Hcut. by apply (Hcut n 0%nat b). }
  induction len as [|len IH]; intros start b0 Hn Hp Hfold; simpl in Hfold.
  - injection Hfold as <-. by replace n with start by lia.
  - inv_Ok. apply (IH (S start) x); [lia| |done].
    apply (Hstep start b0); [lia|done..].
Qed.

Lemma filter_below_S (l : list (Z * Z)) (f : nat) :
  length (filter (λ p : Z * Z, (0 ≤ snd p < Z.of_nat (S f))%Z) l)
  = (length (filter (λ p : Z * Z, (0 ≤ snd p < Z.of_nat f)%Z) l)
     + length (filter (λ p : Z * Z, snd p = Z.of_nat f) l))%nat.
Proof.
  induction l as [|p l IH]; [done|].
  rewrite !filter_cons.
  destruct (decide (0 ≤ p.2 < Z.of_nat (S f))),
    (decide (0 ≤ p.2 < Z.of_nat f)), (decide (p.2 = Z.of_nat f));
    simpl; lia.
Qed.

Lemma filter_all {A} (P : A → Prop) `{∀ x, Decision (P x)} (l : list A) :
  Forall P l → filter P l = l.
Proof.
  induction 1 as [|x l Hx Hl IH]; [done|].
  by rewrite filter_cons_True, IH.
Qed.

Lemma filter_none {A} (P : A → Prop) `{∀ x, Decision (P x)} (l : list A) :
  (∀ x, ¬ P x) → filter P l = [].
Proof.
  intros HP. induction l as [|x l IH]; [done|].
  by rewrite filter_cons_False.
Qed.

(** Two arrays masked by the same flags keep the same places. *)
Lemma zip_masked {A B} (flags : list bool) :
  ∀ (l1 : list A) (l2 : list B),
    zip (fst <$> filter (λ p, snd p = true) (zip l1 flags))
        (fst <$> filter (λ p, snd p = true) (zip l2 flags))
    = fst <$> filter (λ p, snd p = true) (zip (zip l1 l2) flags).
Proof.
  induction flags as [|flag flags IH]; intros l1 l2.
  - by rewrite !zip_with_nil_r.
  - destruct l1 as [|x1 l1]; [done|]. destruct l2 as [|x2 l2].
    + simpl. by destruct (fst <$> filter _ _).
    + simpl. rewrite !filter_cons. simpl. destruct flag.
      * rewrite !decide_True by done. simpl. f_equal. apply IH.
      * rewrite !decide_False by done. apply IH.
Qed.

(** With a tag, the pairs of a group are its flagged elements with the face
    each flag is for. *)
Lemma group_boundary_faces_of_tagged (tag : boundary_tag) (btag_bit : Z)
    (fagrp_map : fagrp_map) (group_boundary_faces : list (Z * Z)) :
  group_boundary_faces_of (Some tag) btag_bit fagrp_map
    = Ok group_boundary_faces →
  ∀ el face, (el, face) ∈ group_boundary_faces →
    ∃ bdry_grp k nb,
      fagrp_get fagrp_map None = Some bdry_grp
      ∧ Fa.elements bdry_grp !! k = Some el
      ∧ Fa.element_faces bdry_grp !! k = Some face
      ∧ Fa.neighbors bdry_grp !! k = Some nb
      ∧ Z.land (- nb) btag_bit ≠ 0.
Proof.
  unfold group_boundary_faces_of.
  destruct (fagrp_get fagrp_map None) as [bdry_grp|];
    [|by intros [= <-] ? ? ?%elem_of_nil].
  intros Hgbf el face Hin.
  apply bind_Ok in Hgbf as (els & Hels & Hgbf).
  apply bind_Ok in Hgbf as (faces & Hfaces & [= <-]).
  unfold np_mask in Hels, Hfaces.
  case_decide; [|done]. case_decide; [|done].
  injection Hels as <-. injection Hfaces as <-.
  rewrite zip_masked in Hin.
  apply list_elem_of_fmap in Hin
    as ([[el' face'] flag] & [= <- <-] & [Hflag Hin]%list_elem_of_filter).
  simpl in Hflag. subst flag.
  apply list_elem_of_lookup in Hin as [k Hk].
  apply lookup_zip_with_Some in Hk as (? & ? & [= <- <-] & Hk & Hflag).
  apply lookup_zip_with_Some in Hk as (? & ? & [= <- <-] & Hel & Hface).
  apply face_relevant_flags_lookup in Hflag as (nb & Hnb & Hbit).
  by exists bdry_grp, k, nb.
Qed.

Lemma face_vertex_indices_length (g : MeshElementGroup)
    (faces : list (list Z)) (fvi : list Z) :
  face_vertex_indices g = Ok faces → fvi ∈ faces → (2 ≤ length fvi)%nat.
Proof.
  unfold face_vertex_indices. destruct (class_of g); [done|].
  repeat case_decide; intros [= <-] Hfvi;
    repeat (apply elem_of_cons in Hfvi as [-> | Hfvi]; [simpl; lia|]);
    by apply elem_of_nil in Hfvi.
Qed.

Lemma take_rows_cols_elem_of {A} (a a1 a2 : ndarray A) (els idx : list Z) :
  take_rows a els = Ok a1 →
  take_cols a1 idx = Ok a2 →
  shape1 a2 = length idx
  ∧ length (rows a2) = length els
  ∧ ∀ r v, r ∈ rows a2 → v ∈ r →
      ∃ el row c, el ∈ els ∧ py_index (rows a) el = Ok row
                  ∧ c ∈ idx ∧ py_index row c = Ok v.
Proof.
  intros Hrows Hcols.
  unfold take_rows, np_take in Hrows.
  apply bind_Ok in Hrows as (rs & Hrs & [= <-]).
  unfold take_cols in Hcols. simpl in Hcols.
  apply bind_Ok in Hcols as (cs & Hcs & [= <-]). simpl.
  split; [done|]. split.
  { pose proof (mapM_Ok_lookup _ _ _ Hrs) as [Hl1 _].
    pose proof (mapM_Ok_lookup _ _ _ Hcs) as [Hl2 _]. congruence. }
  intros r v Hr Hv.
  apply (mapM_Ok_elem_of _ _ _ Hcs) in Hr as (row & Hrow & Htake).
  apply (mapM_Ok_elem_of _ _ _ Hrs) in Hrow as (el & Hel & Hrow).
  apply (mapM_Ok_elem_of _ _ _ Htake) in Hv as (c & Hc & Hv).
  by exists el, row, c.
Qed.

Section cropping.
Context `{Environment}.

(** One pass of the loop over the faces assigns the rows of its batch, with
    new vertex numbers. *)
Lemma face_batch_rows discr tag igrp grp fm kept v2b gbf bdry_unit_nodes
    vol_basis faces coords st st' (f : nat) :
  tables_aligned discr →
  discr_groups discr !! igrp = Some grp →
  facial_adjacency_groups (mesh discr) !! igrp = Some fm →
  _get_face_vertices (mesh discr) (Some tag) = Ok kept →
  make_vol_to_bdry_vertices (shape1 (vertices (mesh discr))) kept = Ok v2b →
  group_boundary_faces_of (Some tag)
    (boundary_tag_bit (mesh discr) (Some tag)) fm = Ok gbf →
  face_vertex_indices (mesh_el_group grp) = Ok faces →
  face_batch igrp (mesh_el_group grp) v2b gbf bdry_unit_nodes vol_basis
    faces coords st f = Ok st' →
  shape1 (st_vertex_indices st') = shape1 (st_vertex_indices st)
  ∧ (rows_assigned (Z.of_nat (length kept)) gbf f st →
     rows_assigned (Z.of_nat (length kept)) gbf (S f) st').
Proof.
  intros Haligned Hgrp Hfm Hkept Hv2b Hgbf Hfaces Hbatch.
  unfold face_batch in Hbatch.
  apply bind_Ok in Hbatch as (loc & Hloc & Hbatch).
  destruct (faces !! f) as [loc'|] eqn:Hlocf; [|done]. injection Hloc as ->.
  apply bind_Ok in Hbatch as ([A b] & _ & Hbatch).
  apply bind_Ok in Hbatch as (face_unit_nodes & _ & Hbatch).
  apply bind_Ok in Hbatch as (resampling_mat & _ & Hbatch).
  apply bind_Ok in Hbatch as (el_vertices & Hrows & Hbatch).
  apply bind_Ok in Hbatch as (glob & Hcols & Hbatch).
  apply bind_Ok in Hbatch as (new_rows & Hnew & Hbatch).
  apply bind_Ok in Hbatch as (vi' & Hassign & Hbatch).
  apply bind_Ok in Hbatch as (new_nodes & _ & Hbatch).
  apply bind_Ok in Hbatch as (nodes' & _ & [= <-]). simpl.
  set (batch := (fst <$> filter (λ p : Z * Z, p.2 = Z.of_nat f) gbf)) in *.
  destruct (take_rows_cols_elem_of _ _ _ _ _ Hrows Hcols)
    as (Hshape & Hlen_glob & Hglob).
  assert (Hloc_in : loc ∈ faces) by (by eapply list_elem_of_lookup_2).
  pose proof (face_vertex_indices_length _ _ _ Hfaces Hloc_in) as Hloc_len.
  pose proof (mapM_Ok_lookup _ _ _ Hnew) as [Hlen_new _].
  unfold assign_rows in Hassign. unfold shape0 in Hassign. simpl in Hassign.
  case_decide as Hfit; [|done].
  case_decide as Hsame; [|case_decide; [lia|done]].
  injection Hassign as <-. simpl. split; [done|].
  intros (Hlen & Hbase & Hgood).
  assert (Hlen_batch : length new_rows = length batch) by congruence.
  assert (Hcount : length batch
                   = length (filter (λ p : Z * Z, p.2 = Z.of_nat f) gbf)).
  { unfold batch. by rewrite length_fmap. }
  unfold rows_assigned. cbn [st_vertex_indices st_batch_base rows shape1].
  split; [|split].
  - rewrite !length_app, length_take, length_drop. lia.
  - rewrite filter_below_S, <-Hbase, <-Hcount. done.
  - unfold rows_below. rewrite <-Hlen_batch.
    rewrite app_assoc, take_app_length'.
    2: { rewrite length_app, length_take. lia. }
    apply Forall_app. split; [exact Hgood|].
    apply Forall_forall. intros r Hr. apply Forall_forall. intros x Hx.
    apply (mapM_Ok_elem_of _ _ _ Hnew) in Hr as (grow & Hgrow & Htake).
    apply (mapM_Ok_elem_of _ _ _ Htake) in Hx as (v & Hv & Hx).
    destruct (make_vol_to_bdry_vertices_spec _ _ _ Hv2b) as (_ & _ & Hnum).
    apply (Hnum v x); [|done].
    apply (face_vertices_elem_of _ _ _ Hkept).
    destruct (Hglob grow v Hgrow Hv) as (el & row & c & Hel & Hrow & Hc & Hvc).
    unfold batch in Hel.
    apply list_elem_of_fmap in Hel
      as ([el' face] & -> & [Hface Hin]%list_elem_of_filter).
    simpl in Hface. subst face. simpl in Hrow.
    destruct (group_boundary_faces_of_tagged _ _ _ _ Hgbf _ _ Hin)
      as (bg & k & nb & Hbg & Hk & _ & Hnb & Hbit).
    exists fm, bg, (mesh_el_group grp), faces, k, el', nb, loc, row, c.
    split; [by eapply list_elem_of_lookup_2|]. split; [done|].
    split; [by eapply Haligned|]. done.
Qed.

Lemma SimplexElementGroup_init_Ok order0 vertex_indices0 nodes0 el_base
    node_base unit_nodes0 dim0 g :
  SimplexElementGroup_init order0 vertex_indices0 nodes0 el_base node_base
    unit_nodes0 dim0 = Ok g →
  vertex_indices g = vertex_indices0.
Proof.
  unfold SimplexElementGroup_init. intros Hinit.
  apply bind_Ok in Hinit as (un & _ & Hinit).
  case_decide; [done|]. by injection Hinit as <-.
Qed.

(** The body of the loop over the groups appends a group all of whose
    vertex indices are new vertex numbers. *)
Lemma restrict_group_rows discr tag kept v2b acc acc' item :
  tables_aligned discr →
  flagged_faces_exist discr (boundary_tag_bit (mesh discr) (Some tag)) →
  _get_face_vertices (mesh discr) (Some tag) = Ok kept →
  make_vol_to_bdry_vertices (shape1 (vertices (mesh discr))) kept = Ok v2b →
  item ∈ enumerate (zip (discr_groups discr)
                      (facial_adjacency_groups (mesh discr))) →
  restrict_group discr (Some tag) (boundary_tag_bit (mesh discr) (Some tag))
    v2b acc item = Ok acc' →
  Forall (λ g, rows_below (Z.of_nat (length kept)) (rows (vertex_indices g)))
    (fst acc) →
  Forall (λ g, rows_below (Z.of_nat (length kept)) (rows (vertex_indices g)))
    (fst acc').
Proof.
  intros Haligned Hexist Hkept Hv2b Hitem Hstep Hacc.
  destruct acc as [bdry_mesh_groups connection_data].
  destruct item as [igrp [grp fm]].
  apply list_elem_of_lookup in Hitem as [i Hitem].
  apply lookup_enumerate in Hitem as [Hi Hzip]. simpl in Hi, Hzip. subst i.
  apply lookup_zip_with_Some in Hzip as (? & ? & [= <- <-] & Hgrp & Hfm).
  unfold restrict_group in Hstep. case_decide; [done|].
  apply bind_Ok in Hstep as (gbf & Hgbf & Hstep).
  apply bind_Ok in Hstep as (bdry_unit_nodes & _ & Hstep).
  apply bind_Ok in Hstep as (vol_basis & _ & Hstep).
  apply bind_Ok in Hstep as (faces & Hfaces & Hstep).
  apply bind_Ok in Hstep as (coords & _ & Hstep).
  apply bind_Ok in Hstep as (st & Hfold & Hstep).
  apply bind_Ok in Hstep as (g & Hg & [= <-]). simpl.
  apply Forall_app. split; [exact Hacc|]. apply Forall_singleton.
  rewrite (SimplexElementGroup_init_Ok _ _ _ _ _ _ _ _ Hg).
  assert (Hend : rows_assigned (Z.of_nat (length kept)) gbf (length faces) st).
  { apply (foldM_seq_invariant
             (rows_assigned (Z.of_nat (length kept)) gbf) _ _ _ _ Hfold).
    - unfold rows_assigned, np_empty. simpl.
      split; [by rewrite length_fmap, length_seq|]. split; [|constructor].
      rewrite filter_none; [done|]. intros p. lia.
    - intros f st0 st1 _ Hst0 Hbatch.
      by eapply (face_batch_rows discr tag igrp grp fm). }
  destruct Hend as (Hlen & Hbase & Hgood).
  rewrite filter_all in Hbase.
  - rewrite Hbase, <-Hlen, firstn_all in Hgood. exact Hgood.
  - apply Forall_forall. intros [el face] Hin. simpl.
    destruct (group_boundary_faces_of_tagged _ _ _ _ Hgbf _ _ Hin)
      as (bg & k & nb & Hbg & _ & Hface & Hnb & Hbit).
    by eapply (Hexist igrp grp fm bg faces k face nb).
Qed.

(** X4. The face restriction of a tagged boundary, as the code does it: the
    restricted mesh has one vertex for each vertex that
    [_get_face_vertices] keeps, and, when the adjacency tables are aligned
    with the groups and flag faces that exist, every vertex index of its
    groups is one of the new numbers, from 0 to the number of kept vertices
    less one. *)
Theorem restricted_mesh_numbers_the_kept_vertices discr group_factory tag
    bdry_mesh bdry_discr connection :
  tables_aligned discr →
  flagged_faces_exist discr (boundary_tag_bit (mesh discr) (Some tag)) →
  make_face_restriction discr group_factory (Some tag)
    = Ok (bdry_mesh, bdry_discr, connection) →
  ∃ kept,
    _get_face_vertices (mesh discr) (Some tag) = Ok kept
    ∧ shape1 (vertices bdry_mesh) = length kept
    ∧ shape0 (vertices bdry_mesh) = shape0 (vertices (mesh discr))
    ∧ ∀ g row x,
        g ∈ groups bdry_mesh → row ∈ rows (vertex_indices g) → x ∈ row →
        0 ≤ x < Z.of_nat (length kept).
Proof.
  intros Haligned Hexist Hmake. unfold make_face_restriction in Hmake.
  apply bind_Ok in Hmake as ([bdry_mesh' connection_data] & Hrestrict & Hmake).
  apply bind_Ok in Hmake as (conn & _ & [= <- <- <-]).
  unfold restrict_mesh in Hrestrict.
  apply bind_Ok in Hrestrict as (kept & Hkept & Hrestrict).
  apply bind_Ok in Hrestrict as (v2b & Hv2b & Hrestrict).
  apply bind_Ok in Hrestrict as (bdry_vertices & Hvertices & Hrestrict).
  apply bind_Ok in Hrestrict as ([bdry_mesh_groups cd] & Hfold & Hrestrict).
  apply bind_Ok in Hrestrict as (bm & Hinit & [= <- <-]).
  exists kept. split; [done|].
  apply Mesh_init_Ok in Hinit as (Hv & Hjoin & _).
  unfold take_cols in Hvertices.
  apply bind_Ok in Hvertices as (cols & Hcols & [= <-]).
  rewrite Hv. simpl. split; [done|]. split.
  { unfold shape0. simpl. by apply mapM_Ok_lookup in Hcols as [-> _]. }
  assert (Hgroups : Forall (λ g, rows_below (Z.of_nat (length kept))
                                   (rows (vertex_indices g)))
                      bdry_mesh_groups).
  { apply (foldM_invariant_Ok
             (λ acc, Forall (λ g, rows_below (Z.of_nat (length kept))
                                    (rows (vertex_indices g))) (fst acc))
             _ _ _ _ Hfold); [constructor|].
    intros item acc acc' Hitem Hacc Hstep.
    by eapply restrict_group_rows. }
  intros g row x Hg Hrow Hx.
  apply join_groups_Ok in Hjoin as [Hlen Hlook].
  apply list_elem_of_lookup in Hg as [i Hi].
  destruct (lookup_lt_is_Some_2 bdry_mesh_groups i) as [g0 Hg0].
  { rewrite <-Hlen. by eapply lookup_lt_Some. }
  destruct (Hlook i g0 Hg0) as [_ Hi']. rewrite Hi in Hi'.
  injection Hi' as ->. simpl in Hrow.
  rewrite Forall_forall in Hgroups.
  specialize (Hgroups g0 (list_elem_of_lookup_2 _ _ _ Hg0)).
  unfold rows_below in Hgroups. rewrite Forall_forall in Hgroups.
  specialize (Hgroups row Hrow). rewrite Forall_forall in Hgroups.
  by apply Hgroups.
Qed.

End cropping.

Lemma triangle_tables_aligned : tables_aligned triangle_discr.
Proof.
  intros [|igrp] grp fm bg Hgrp Hfm Hbg; [|done].
  injection Hgrp as <-. injection Hfm as <-. injection Hbg as <-.
  reflexivity.
Qed.

Lemma triangle_flagged_faces_exist : flagged_faces_exist triangle_discr 2.
Proof.
  intros [|igrp] grp fm bg faces k face nb Hgrp Hfm Hbg Hfaces Hface Hnb Hbit;
    [|done].
  injection Hgrp as <-. injection Hfm as <-. injection Hbg as <-.
  injection Hfaces as <-. simpl in Hface.
  destruct k as [|[|[|k]]]; [..|done]; injection Hface as <-; simpl; lia.
Qed.

Lemma restricted_mesh_numbers_the_kept_vertices_witness :
  ∃ bdry_mesh bdry_discr connection kept,
    make_face_restriction triangle_discr factory_order_1 (Some "top"%string)
      = Ok (bdry_mesh, bdry_discr, connection)
    ∧ _get_face_vertices triangle_mesh (Some "top"%string) = Ok kept
    ∧ shape1 (vertices bdry_mesh) = length kept
    ∧ ∀ g row x,
        g ∈ groups bdry_mesh → row ∈ rows (vertex_indices g) → x ∈ row →
        0 ≤ x < Z.of_nat (length kept).
Proof.
  assert (Hmake : ∃ r, make_face_restriction triangle_discr factory_order_1
                         (Some "top"%string) = Ok r).
  { eexists. vm_compute. reflexivity. }
  destruct Hmake as [[[bdry_mesh bdry_discr] connection] Hmake].
  destruct (restricted_mesh_numbers_the_kept_vertices
              triangle_discr factory_order_1 "top"%string
              bdry_mesh bdry_discr connection
              triangle_tables_aligned triangle_flagged_faces_exist Hmake)
    as (kept & Hkept & Hshape & _ & Hrows).
  exists bdry_mesh, bdry_discr, connection, kept.
  split; [exact Hmake|]. split; [exact Hkept|].
  split; [exact Hshape | exact Hrows].
Defined.

(** ** The element count of a mesh *)

(** X5. A mesh has as many elements as the groups it was built from have
    together, and carries them under the offsets of [Mesh.__init__]. *)
Theorem mesh_nelements_is_sum_of_groups `{Environment} vertices0 groups0
    skip_tests conn vdt edt (m : Mesh) :
  Mesh_init vertices0 groups0 skip_tests conn vdt edt = Ok m →
  Mesh_nelements m = sum_list (nelements <$> groups0)
  ∧ stamped_from 0 (groups m).
Proof.
  intros Hinit. apply Mesh_init_Ok in Hinit as (_ & Hjoin & _).
  apply join_groups_stamped in Hjoin as (Hstamped & _ & Hn).
  split; [|done]. unfold Mesh_nelements. by rewrite Hn.
Qed.

Lemma mesh_nelements_is_sum_of_groups_witness :
  Mesh_nelements square_mesh = sum_list (nelements <$> square_groups)
  ∧ stamped_from 0 (groups square_mesh).
Proof.
  exact (mesh_nelements_is_sum_of_groups
           square_vertices square_groups false ArgNone int32 int32
           square_mesh square_mesh_init).
Defined.

(** ** When the connectivity builder returns *)

Lemma foldM_Ok_Forall {A B} (P : B → Prop) (Q : A → Prop)
    (f : B → A → result B) (l : list A) :
  ∀ b b',
    foldM f b l = Ok b' → P b →
    (∀ a b b', a ∈ l → P b → f b a = Ok b' → P b' ∧ Q a) →
    P b' ∧ Forall Q l.
Proof.
  induction l as [|a l IH]; intros b b' Hfold Hb Hstep.
  - injection Hfold as <-. by split.
  - simpl in Hfold. apply bind_Ok in Hfold as (b1 & Hb1 & Hfold).
    destruct (Hstep a b b1) as [Hb1' Ha]; [left|done|done|].
    destruct (IH b1 b' Hfold Hb1') as [Hb' Hl].
    { intros a' b2 b3 Ha'. apply Hstep. by right. }
    split; [done|]. by constructor.
Qed.

Lemma foldM_ext_invariant {A B} (P : B → Prop) (f g : B → A → result B)
    (l : list A) :
  ∀ b,
    P b →
    (∀ a b, a ∈ l → P b → f b a = g b a) →
    (∀ a b b', a ∈ l → P b → f b a = Ok b' → P b') →
    foldM f b l = foldM g b l.
Proof.
  induction l as [|a l IH]; intros b Hb Heq Hstep; [done|].
  simpl. rewrite <-(Heq a b) by (done || left).
  destruct (f b a) as [b1|e] eqn:Hf; [|done]. simpl.
  apply IH.
  - eapply Hstep; [left|done..].
  - intros a' b2 Ha'. apply Heq. by right.
  - intros a' b2 b3 Ha'. apply Hstep. by right.
Qed.

Lemma addressable_incidences (mesh : Mesh) :
  addressable mesh ↔
  ∀ t, t ∈ incidences mesh →
    ∃ iel_base, fst (fst t) = Some iel_base
      ∧ (iel_base + snd (fst t) < Mesh_nelements mesh)%nat
      ∧ - Z.of_nat (nvertices mesh) ≤ snd t < Z.of_nat (nvertices mesh).
Proof.
  split.
  - intros Haddr [[base iel] v] Ht.
    apply elem_of_incidences in Ht as (g & row & Hg & Hbase & Hrow & Hv).
    destruct (Haddr g iel row v Hg Hrow Hv) as (b & Hb & Hlt & Hrange).
    exists b. simpl. split; [congruence|done].
  - intros Hinc g iel row v Hg Hrow Hv.
    destruct (Hinc (element_nr_base g, iel, v)) as (b & Hb & Hlt & Hrange).
    { apply elem_of_incidences. by exists g, row. }
    by exists b.
Qed.

Lemma py_alter_is_Ok {A} (f : A → A) (l : list A) (i : Z) :
  is_Ok (py_alter f l i) ↔ - Z.of_nat (length l) ≤ i < Z.of_nat (length l).
Proof.
  split.
  - intros [l' (j & Hj & Hlt & _)%py_alter_Ok].
    destruct (decide (i < 0)); lia.
  - intros Hi. eexists. apply py_alter_Ok.
    exists (Z.to_nat (if decide (i < 0) then i + Z.of_nat (length l) else i)).
    split; [|split; [|done]]; destruct (decide (i < 0)); lia.
Qed.

Lemma py_index_is_Ok {A} (l : list A) (i : Z) :
  is_Ok (py_index l i) ↔ - Z.of_nat (length l) ≤ i < Z.of_nat (length l).
Proof.
  split.
  - intros [x (j & Hj & Hx)%py_index_Ok].
    apply lookup_lt_Some in Hx. destruct (decide (i < 0)); lia.
  - intros Hi.
    destruct (lookup_lt_is_Some_2 l
                (Z.to_nat (if decide (i < 0) then i + Z.of_nat (length l)
                           else i))) as [x Hx].
    { destruct (decide (i < 0)); lia. }
    exists x. apply py_index_Ok. eexists. split; [|done].
    destruct (decide (i < 0)); lia.
Qed.

Lemma elem_of_alter {A} (f : A → A) (l : list A) (j : nat) (y : A) :
  y ∈ alter f j l → y ∈ l ∨ ∃ x, l !! j = Some x ∧ y = f x.
Proof.
  intros [k Hk]%list_elem_of_lookup.
  destruct (decide (j = k)) as [->|Hne].
  - rewrite list_lookup_alter_eq in Hk.
    apply fmap_Some in Hk as (x & Hx & ->). right. by exists x.
  - rewrite list_lookup_alter_ne in Hk by done.
    left. by eapply list_elem_of_lookup_2.
Qed.

Lemma py_alter_Ok_length {A} (f : A → A) (l l' : list A) (i : Z) :
  py_alter f l i = Ok l' → length l' = length l.
Proof. intros (j & _ & _ & ->)%py_alter_Ok. apply length_alter. Qed.

Section connectivity_returns.
Context `{SetOrder}.

Lemma record_elements_Ok (mesh : Mesh) (vertex_to_element : list (list Z)) :
  for_each_element mesh record_element (replicate (nvertices mesh) [])
    = Ok vertex_to_element →
  length vertex_to_element = nvertices mesh
  ∧ ∀ t, t ∈ incidences mesh →
      is_Some (fst (fst t))
      ∧ - Z.of_nat (nvertices mesh) ≤ snd t < Z.of_nat (nvertices mesh).
Proof.
  set (step := λ (iel_base : option nat) (iel_grp : nat)
                 (vertex_to_element : list (list Z)) (ivertex : Z),
         _ ← py_index vertex_to_element ivertex;
         match iel_base with
         | None => Raise TypeError
         | Some iel_base =>
             py_alter (λ l, l ++ [Z.of_nat (iel_base + iel_grp)])
               vertex_to_element ivertex
         end).
  change (for_each_element mesh record_element (replicate (nvertices mesh) []))
    with (for_each_element mesh
            (λ iel_base iel_grp s row, foldM (step iel_base iel_grp) s row)
            (replicate (nvertices mesh) [])).
  rewrite for_each_element_incidences. intros Hfold.
  rewrite <-Forall_forall.
  apply (foldM_Ok_Forall (λ v2e, length v2e = nvertices mesh) _ _ _ _ _ Hfold).
  { apply length_replicate. }
  intros [[base iel] v] v2e v2e' _ Hlen Hstep.
  unfold step in Hstep. simpl in Hstep.
  apply bind_Ok in Hstep as (l0 & _ & Hstep).
  destruct base as [b|]; [|done]. simpl.
  split; [by rewrite (py_alter_Ok_length _ _ _ _ Hstep)|].
  split; [done|]. rewrite <-Hlen. apply (py_alter_is_Ok (λ l, l ++ [Z.of_nat (b + iel)])).
  by eexists.
Qed.

Lemma gather_neighbors_Ok (mesh : Mesh) (vertex_to_element : list (list Z))
    (element_to_element : list (gset Z)) :
  for_each_element mesh (gather_neighbors vertex_to_element)
    (replicate (Mesh_nelements mesh) ∅) = Ok element_to_element →
  length element_to_element = Mesh_nelements mesh
  ∧ ∀ t, t ∈ incidences mesh →
      ∃ iel_base, fst (fst t) = Some iel_base
        ∧ (iel_base + snd (fst t) < Mesh_nelements mesh)%nat.
Proof.
  set (step := λ (iel_base : option nat) (iel_grp : nat)
                 (element_to_element : list (gset Z)) (ivertex : Z),
         match iel_base with
         | None => Raise TypeError
         | Some iel_base =>
             match py_index vertex_to_element ivertex with
             | Ok els =>
                 py_alter (λ s, s ∪ list_to_set els) element_to_element
                   (Z.of_nat (iel_base + iel_grp))
             | Raise e => Raise e
             end
         end).
  change (for_each_element mesh (gather_neighbors vertex_to_element)
            (replicate (Mesh_nelements mesh) ∅))
    with (for_each_element mesh
            (λ iel_base iel_grp s row, foldM (step iel_base iel_grp) s row)
            (replicate (Mesh_nelements mesh) ∅)).
  rewrite for_each_element_incidences. intros Hfold.
  rewrite <-Forall_forall.
  apply (foldM_Ok_Forall (λ e2e, length e2e = Mesh_nelements mesh)
           _ _ _ _ _ Hfold).
  { apply length_replicate. }
  intros [[base iel] v] e2e e2e' _ Hlen Hstep.
  unfold step in Hstep. simpl in Hstep.
  destruct base as [b|]; [|done].
  destruct (py_index vertex_to_element v) as [els|] eqn:Hels; [|done].
  simpl. split; [by rewrite (py_alter_Ok_length _ _ _ _ Hstep)|].
  exists b. split; [done|].
  assert (is_Ok (py_alter (λ s, s ∪ list_to_set els) e2e (Z.of_nat (b + iel))))
    as Hok%py_alter_is_Ok by (by eexists).
  lia.
Qed.

Lemma assemble_connectivity (element_to_element : list (gset Z)) :
  (let lengths :=
     (λ el_list : gset Z, Z.of_nat (size el_list)) <$> element_to_element in
   let neighbors_starts := np_cumsum (0 :: lengths) in
   let neighbors := concat (set_iter <$> element_to_element) in
   last ← py_index neighbors_starts (-1);
   _ ← py_assert (bool_decide (last = Z.of_nat (length neighbors)));
   Ok (<["neighbors_starts" := neighbors_starts]>
         (<["neighbors" := neighbors]> (∅ : ElementConnectivity))))
  = Ok (connectivity_of element_to_element).
Proof.
  cbv zeta. rewrite py_index_cumsum_last. simpl.
  rewrite sizes_lengths, sumZ_lengths, bool_decide_eq_true_2 by done.
  simpl. unfold connectivity_of. by rewrite sizes_lengths.
Qed.

Lemma compute_connectivity_total (mesh : Mesh) :
  addressable mesh → is_Ok (_compute_connectivity_from_vertices mesh).
Proof.
  intros Haddr.
  pose proof (proj1 (addressable_incidences mesh) Haddr) as Hinc.
  assert (∃ v2e, for_each_element mesh record_element
                   (replicate (nvertices mesh) []) = Ok v2e
                 ∧ length v2e = nvertices mesh) as (v2e & Hv2e & Hlen1).
  { set (step := λ (iel_base : option nat) (iel_grp : nat)
                   (vertex_to_element : list (list Z)) (ivertex : Z),
           _ ← py_index vertex_to_element ivertex;
           match iel_base with
           | None => Raise TypeError
           | Some iel_base =>
               py_alter (λ l, l ++ [Z.of_nat (iel_base + iel_grp)])
                 vertex_to_element ivertex
           end).
    change (for_each_element mesh record_element
              (replicate (nvertices mesh) []))
      with (for_each_element mesh
              (λ iel_base iel_grp s row, foldM (step iel_base iel_grp) s row)
              (replicate (nvertices mesh) [])).
    rewrite for_each_element_incidences.
    apply (foldM_invariant (λ _ v2e, length v2e = nvertices mesh)).
    { apply length_replicate. }
    intros done [[base iel] v] v2e Ht Hlen.
    destruct (Hinc _ Ht) as (b & Hb & _ & Hv). simpl in Hb, Hv. subst base.
    unfold step. simpl.
    destruct (proj2 (py_index_is_Ok v2e v)) as [l0 ->]; [lia|]. simpl.
    destruct (proj2 (py_alter_is_Ok (λ l, l ++ [Z.of_nat (b + iel)]) v2e v))
      as [v2e' Hv2e']; [lia|].
    exists v2e'. split; [done|].
    by rewrite (py_alter_Ok_length _ _ _ _ Hv2e'). }
  assert (∃ e2e, for_each_element mesh (gather_neighbors v2e)
                   (replicate (Mesh_nelements mesh) ∅) = Ok e2e)
    as (e2e & He2e).
  { set (step := λ (iel_base : option nat) (iel_grp : nat)
                   (element_to_element : list (gset Z)) (ivertex : Z),
           match iel_base with
           | None => Raise TypeError
           | Some iel_base =>
               match py_index v2e ivertex with
               | Ok els =>
                   py_alter (λ s, s ∪ list_to_set els) element_to_element
                     (Z.of_nat (iel_base + iel_grp))
               | Raise e => Raise e
               end
           end).
    change (for_each_element mesh (gather_neighbors v2e)
              (replicate (Mesh_nelements mesh) ∅))
      with (for_each_element mesh
              (λ iel_base iel_grp s row, foldM (step iel_base iel_grp) s row)
              (replicate (Mesh_nelements mesh) ∅)).
    rewrite for_each_element_incidences.
    destruct (foldM_invariant
                (λ _ (e2e : list (gset Z)), length e2e = Mesh_nelements mesh)
                (λ s t, step (fst (fst t)) (snd (fst t)) s (snd t))
                (replicate (Mesh_nelements mesh) ∅) (incidences mesh))
      as (e2e & He2e & _); [apply length_replicate| |by exists e2e].
    intros done [[base iel] v] e2e Ht Hlen.
    destruct (Hinc _ Ht) as (b & Hb & Hel & Hv). simpl in Hb, Hel, Hv.
    subst base. simpl.
    destruct (proj2 (py_index_is_Ok v2e v)) as [els ->]; [lia|].
    rewrite py_alter_in_range by lia. eexists. split; [done|].
    by rewrite length_alter. }
  exists (connectivity_of e2e).
  unfold _compute_connectivity_from_vertices.
  change (shape1 (vertices mesh)) with (nvertices mesh).
  rewrite Hv2e. simpl. rewrite He2e. simpl.
  apply assemble_connectivity.
Qed.

Lemma compute_connectivity_Ok_addressable (mesh : Mesh) conn :
  _compute_connectivity_from_vertices mesh = Ok conn → addressable mesh.
Proof.
  unfold _compute_connectivity_from_vertices.
  change (shape1 (vertices mesh)) with (nvertices mesh).
  intros Hc. apply bind_Ok in Hc as (v2e & Hv2e & Hc).
  apply bind_Ok in Hc as (e2e & He2e & _).
  apply record_elements_Ok in Hv2e as [_ H1].
  apply gather_neighbors_Ok in He2e as [_ H2].
  apply addressable_incidences. intros t Ht.
  destruct (H1 t Ht) as [_ Hv]. destruct (H2 t Ht) as (b & Hb & Hlt).
  by exists b.
Qed.

(** X6. [_compute_connectivity_from_vertices] returns exactly when every
    vertex entry of the mesh can be processed: the group of the entry has an
    element offset, offset plus element number is below the element count
    of the mesh, and the entry lies between [-nvertices] and
    [nvertices - 1].  Otherwise it raises. *)
Theorem connectivity_returns_iff_addressable (mesh : Mesh) :
  is_Ok (_compute_connectivity_from_vertices mesh) ↔ addressable mesh.
Proof.
  split.
  - intros [conn Hc]. by eapply compute_connectivity_Ok_addressable.
  - apply compute_connectivity_total.
Qed.

End connectivity_returns.

Section connectivity_output.
Context `{SetOrder}.

Lemma compute_connectivity_Ok (mesh : Mesh) conn :
  _compute_connectivity_from_vertices mesh = Ok conn →
  ∃ vertex_to_element element_to_element,
    for_each_element mesh record_element (replicate (nvertices mesh) [])
      = Ok vertex_to_element
    ∧ for_each_element mesh (gather_neighbors vertex_to_element)
        (replicate (Mesh_nelements mesh) ∅) = Ok element_to_element
    ∧ conn = connectivity_of element_to_element.
Proof.
  unfold _compute_connectivity_from_vertices.
  change (shape1 (vertices mesh)) with (nvertices mesh).
  intros Hc. apply bind_Ok in Hc as (v2e & Hv2e & Hc).
  apply bind_Ok in Hc as (e2e & He2e & Hc).
  exists v2e, e2e. split; [done|]. split; [done|].
  pose proof (assemble_connectivity e2e) as Ha.
  cbv beta zeta in Hc, Ha. rewrite Ha in Hc. by injection Hc as <-.
Qed.

Lemma record_elements_entries (mesh : Mesh) (vertex_to_element : list (list Z)) :
  for_each_element mesh record_element (replicate (nvertices mesh) [])
    = Ok vertex_to_element →
  ∀ els x, els ∈ vertex_to_element → x ∈ els →
    ∃ iel_base iel_grp v,
      x = Z.of_nat (iel_base + iel_grp)
      ∧ (Some iel_base, iel_grp, v) ∈ incidences mesh.
Proof.
  set (step := λ (iel_base : option nat) (iel_grp : nat)
                 (vertex_to_element : list (list Z)) (ivertex : Z),
         _ ← py_index vertex_to_element ivertex;
         match iel_base with
         | None => Raise TypeError
         | Some iel_base =>
             py_alter (λ l, l ++ [Z.of_nat (iel_base + iel_grp)])
               vertex_to_element ivertex
         end).
  change (for_each_element mesh record_element (replicate (nvertices mesh) []))
    with (for_each_element mesh
            (λ iel_base iel_grp s row, foldM (step iel_base iel_grp) s row)
            (replicate (nvertices mesh) [])).
  rewrite for_each_element_incidences. intros Hfold.
  apply (foldM_invariant_prefix
           (λ done (v2e : list (list Z)),
              ∀ els x, els ∈ v2e → x ∈ els →
                ∃ iel_base iel_grp v,
                  x = Z.of_nat (iel_base + iel_grp)
                  ∧ (Some iel_base, iel_grp, v) ∈ done) _ _ _ _ Hfold).
  - intros els x [-> _]%elem_of_replicate. by intros ?%elem_of_nil.
  - intros done [[base iel] v] v2e v2e' _ HP Hstep.
    unfold step in Hstep. simpl in Hstep.
    apply bind_Ok in Hstep as (l0 & _ & Hstep).
    destruct base as [b|]; [|done].
    apply py_alter_Ok in Hstep as (j & _ & _ & ->).
    intros els x [Hels | (els0 & Hels0 & ->)]%elem_of_alter Hx.
    + destruct (HP els x Hels Hx) as (b' & iel' & v' & -> & Hin).
      exists b', iel', v'. split; [done|]. apply elem_of_app. by left.
    + apply elem_of_app in Hx as [Hx | ->%list_elem_of_singleton].
      * destruct (HP els0 x (list_elem_of_lookup_2 _ _ _ Hels0) Hx)
          as (b' & iel' & v' & -> & Hin).
        exists b', iel', v'. split; [done|]. apply elem_of_app. by left.
      * exists b, iel, v. split; [done|]. apply elem_of_app. right.
        by apply list_elem_of_singleton.
Qed.

Lemma gather_neighbors_entries (mesh : Mesh)
    (vertex_to_element : list (list Z)) (element_to_element : list (gset Z)) :
  for_each_element mesh (gather_neighbors vertex_to_element)
    (replicate (Mesh_nelements mesh) ∅) = Ok element_to_element →
  ∀ s x, s ∈ element_to_element → x ∈ s →
    ∃ els, els ∈ vertex_to_element ∧ x ∈ els.
Proof.
  set (step := λ (iel_base : option nat) (iel_grp : nat)
                 (element_to_element : list (gset Z)) (ivertex : Z),
         match iel_base with
         | None => Raise TypeError
         | Some iel_base =>
             match py_index vertex_to_element ivertex with
             | Ok els =>
                 py_alter (λ s, s ∪ list_to_set els) element_to_element
                   (Z.of_nat (iel_base + iel_grp))
             | Raise e => Raise e
             end
         end).
  change (for_each_element mesh (gather_neighbors vertex_to_element)
            (replicate (Mesh_nelements mesh) ∅))
    with (for_each_element mesh
            (λ iel_base iel_grp s row, foldM (step iel_base iel_grp) s row)
            (replicate (Mesh_nelements mesh) ∅)).
  rewrite for_each_element_incidences. intros Hfold.
  apply (foldM_invariant_Ok
           (λ e2e : list (gset Z),
              ∀ s x, s ∈ e2e → x ∈ s →
                ∃ els, els ∈ vertex_to_element ∧ x ∈ els) _ _ _ _ Hfold).
  - intros s x [-> _]%elem_of_replicate. by intros ?%not_elem_of_empty.
  - intros [[base iel] v] e2e e2e' _ HP Hstep.
    unfold step in Hstep. simpl in Hstep. destruct base as [b|]; [|done].
    destruct (py_index vertex_to_element v) as [els|] eqn:Hels; [|done].
    apply py_alter_Ok in Hstep as (j & _ & _ & ->).
    intros s x [Hs | (s0 & Hs0 & ->)]%elem_of_alter Hx.
    + by apply (HP s x).
    + apply elem_of_union in Hx as [Hx | Hx%elem_of_list_to_set].
      * by apply (HP s0 x (list_elem_of_lookup_2 _ _ _ Hs0)).
      * exists els. split; [by eapply py_index_Ok_elem_of | done].
Qed.

(** X7. Whatever the mesh, a connectivity that
    [_compute_connectivity_from_vertices] returns has one start per element
    and one more, and lists nothing but element numbers of the mesh, from 0
    to [nelements - 1]. *)
Theorem connectivity_lists_only_elements_of_the_mesh (mesh : Mesh)
    (conn : ElementConnectivity) :
  _compute_connectivity_from_vertices mesh = Ok conn →
  ∃ neighbors_starts neighbors,
    getattr conn "neighbors_starts" = Ok neighbors_starts
    ∧ getattr conn "neighbors" = Ok neighbors
    ∧ length neighbors_starts = S (Mesh_nelements mesh)
    ∧ Forall (λ x, 0 ≤ x < Z.of_nat (Mesh_nelements mesh)) neighbors.
Proof.
  intros Hc.
  pose proof (compute_connectivity_Ok_addressable mesh conn Hc) as Haddr.
  pose proof (proj1 (addressable_incidences mesh) Haddr) as Hinc.
  apply compute_connectivity_Ok in Hc as (v2e & e2e & Hv2e & He2e & ->).
  pose proof (gather_neighbors_Ok mesh v2e e2e He2e) as [Hlen _].
  eexists _, _. unfold getattr, connectivity_of.
  rewrite lookup_insert_eq. split; [done|].
  rewrite lookup_insert_ne by done. rewrite lookup_insert_eq. split; [done|].
  split.
  { rewrite length_np_cumsum. simpl. by rewrite length_fmap, Hlen. }
  apply Forall_forall. intros x (l & Hl & Hx)%elem_of_concat.
  apply list_elem_of_fmap in Hl as (s & -> & Hs).
  apply elem_of_set_iter in Hx.
  destruct (gather_neighbors_entries mesh v2e e2e He2e s x Hs Hx)
    as (els & Hels & Hxels).
  destruct (record_elements_entries mesh v2e Hv2e els x Hels Hxels)
    as (b & iel & v & -> & Hin).
  destruct (Hinc _ Hin) as (b' & [= <-] & Hlt & _). simpl in Hlt. lia.
Qed.

End connectivity_output.

Lemma connectivity_lists_only_elements_of_the_mesh_witness :
  ∃ neighbors_starts neighbors,
    getattr (connectivity_of [{[0; 1]}; {[0; 1]}]) "neighbors_starts"
      = Ok neighbors_starts
    ∧ getattr (connectivity_of [{[0; 1]}; {[0; 1]}]) "neighbors"
      = Ok neighbors
    ∧ length neighbors_starts = S (Mesh_nelements square_mesh_from_the_end)
    ∧ Forall (λ x, 0 ≤ x < Z.of_nat (Mesh_nelements square_mesh_from_the_end))
        neighbors.
Proof.
  apply (connectivity_lists_only_elements_of_the_mesh
           square_mesh_from_the_end).
  vm_compute. reflexivity.
Defined.

(** ** Vertex indices that count from the end *)

Lemma py_alter_wrap {A} (f : A → A) (l : list A) (i : Z) :
  - Z.of_nat (length l) ≤ i →
  py_alter f l (wrap_index (length l) i) = py_alter f l i.
Proof.
  intros Hi. unfold wrap_index.
  destruct (decide (i < 0)) as [Hneg|Hpos]; [|done].
  unfold py_alter. cbv zeta.
  destruct (decide (i + Z.of_nat (length l) < 0)); [lia|].
  destruct (decide (i < 0)); [done|lia].
Qed.

Lemma py_index_wrap {A} (l : list A) (i : Z) :
  - Z.of_nat (length l) ≤ i →
  py_index l (wrap_index (length l) i) = py_index l i.
Proof.
  intros Hi. unfold wrap_index.
  destruct (decide (i < 0)) as [Hneg|Hpos]; [|done].
  unfold py_index. cbv zeta.
  destruct (decide (i + Z.of_nat (length l) < 0)); [lia|].
  destruct (decide (i < 0)); [done|lia].
Qed.

Lemma for_each_element_wrap {S} (mesh : Mesh)
    (step : option nat → nat → S → Z → result S) (s : S) :
  for_each_element (wrap_mesh mesh)
    (λ iel_base iel_grp s row, foldM (step iel_base iel_grp) s row) s
  = for_each_element mesh
      (λ iel_base iel_grp s row,
         foldM (λ s v, step iel_base iel_grp s
                         (wrap_index (nvertices mesh) v)) s row) s.
Proof.
  unfold for_each_element, wrap_mesh. cbn [groups]. rewrite foldM_fmap.
  apply foldM_ext. intros s' g _. cbn [wrap_group element_nr_base].
  replace (nelements (wrap_group (nvertices mesh) g)) with (nelements g)
    by (unfold nelements, shape0; simpl; by rewrite length_fmap).
  apply foldM_ext. intros s'' iel _. unfold wrap_group.
  cbn [vertex_indices rows]. rewrite list_lookup_fmap.
  destruct (rows (vertex_indices g) !! iel) as [row|]; [|done]. simpl.
  apply foldM_fmap.
Qed.

Lemma Mesh_nelements_wrap (mesh : Mesh) :
  Mesh_nelements (wrap_mesh mesh) = Mesh_nelements mesh.
Proof.
  unfold Mesh_nelements, wrap_mesh. cbn [groups].
  rewrite <-list_fmap_compose. f_equal. apply list_fmap_ext.
  intros _ g _. unfold nelements, shape0. simpl. by rewrite length_fmap.
Qed.

Lemma vertex_indices_at_least_incidences (lo : Z) (mesh : Mesh) :
  vertex_indices_at_least lo mesh →
  ∀ t, t ∈ incidences mesh → lo ≤ snd t.
Proof.
  intros Hlo [[base iel] v] Ht.
  apply elem_of_incidences in Ht as (g & row & Hg & _ & Hrow & Hv).
  unfold vertex_indices_at_least in Hlo. rewrite Forall_forall in Hlo.
  specialize (Hlo g Hg). rewrite Forall_forall in Hlo.
  specialize (Hlo row (list_elem_of_lookup_2 _ _ _ Hrow)).
  rewrite Forall_forall in Hlo. by apply Hlo.
Qed.

Section wrap.
Context `{SetOrder}.

Lemma record_elements_wrap (mesh : Mesh) :
  vertex_indices_at_least (- Z.of_nat (nvertices mesh)) mesh →
  for_each_element (wrap_mesh mesh) record_element
    (replicate (nvertices mesh) [])
  = for_each_element mesh record_element (replicate (nvertices mesh) []).
Proof.
  intros Hlo.
  pose proof (vertex_indices_at_least_incidences _ _ Hlo) as Hinc.
  set (step := λ (iel_base : option nat) (iel_grp : nat)
                 (vertex_to_element : list (list Z)) (ivertex : Z),
         _ ← py_index vertex_to_element ivertex;
         match iel_base with
         | None => Raise TypeError
         | Some iel_base =>
             py_alter (λ l, l ++ [Z.of_nat (iel_base + iel_grp)])
               vertex_to_element ivertex
         end).
  change (for_each_element (wrap_mesh mesh) record_element
            (replicate (nvertices mesh) []))
    with (for_each_element (wrap_mesh mesh)
            (λ iel_base iel_grp s row, foldM (step iel_base iel_grp) s row)
            (replicate (nvertices mesh) [])).
  change (for_each_element mesh record_element (replicate (nvertices mesh) []))
    with (for_each_element mesh
            (λ iel_base iel_grp s row, foldM (step iel_base iel_grp) s row)
            (replicate (nvertices mesh) [])).
  rewrite for_each_element_wrap, !for_each_element_incidences.
  apply (foldM_ext_invariant (λ v2e, length v2e = nvertices mesh)).
  - apply length_replicate.
  - intros [[base iel] v] v2e Ht Hlen. simpl. unfold step.
    pose proof (Hinc _ Ht) as Hv. simpl in Hv.
    rewrite <-Hlen in Hv |- *. rewrite py_index_wrap by done.
    destruct (py_index v2e v) as [l0|e]; [|done]. simpl.
    destruct base as [b|]; [|done].
    by apply py_alter_wrap.
  - intros [[base iel] v] v2e v2e' _ Hlen Hstep.
    unfold step in Hstep. simpl in Hstep.
    apply bind_Ok in Hstep as (l0 & _ & Hstep).
    destruct base as [b|]; [|done].
    by rewrite (py_alter_Ok_length _ _ _ _ Hstep).
Qed.

Lemma gather_neighbors_wrap (mesh : Mesh) (vertex_to_element : list (list Z)) :
  vertex_indices_at_least (- Z.of_nat (nvertices mesh)) mesh →
  length vertex_to_element = nvertices mesh →
  for_each_element (wrap_mesh mesh) (gather_neighbors vertex_to_element)
    (replicate (Mesh_nelements mesh) ∅)
  = for_each_element mesh (gather_neighbors vertex_to_element)
      (replicate (Mesh_nelements mesh) ∅).
Proof.
  intros Hlo Hlen.
  pose proof (vertex_indices_at_least_incidences _ _ Hlo) as Hinc.
  set (step := λ (iel_base : option nat) (iel_grp : nat)
                 (element_to_element : list (gset Z)) (ivertex : Z),
         match iel_base with
         | None => Raise TypeError
         | Some iel_base =>
             match py_index vertex_to_element ivertex with
             | Ok els =>
                 py_alter (λ s, s ∪ list_to_set els) element_to_element
                   (Z.of_nat (iel_base + iel_grp))
             | Raise e => Raise e
             end
         end).
  change (for_each_element (wrap_mesh mesh)
            (gather_neighbors vertex_to_element)
            (replicate (Mesh_nelements mesh) ∅))
    with (for_each_element (wrap_mesh mesh)
            (λ iel_base iel_grp s row, foldM (step iel_base iel_grp) s row)
            (replicate (Mesh_nelements mesh) ∅)).
  change (for_each_element mesh (gather_neighbors vertex_to_element)
            (replicate (Mesh_nelements mesh) ∅))
    with (for_each_element mesh
            (λ iel_base iel_grp s row, foldM (step iel_base iel_grp) s row)
            (replicate (Mesh_nelements mesh) ∅)).
  rewrite for_each_element_wrap, !for_each_element_incidences.
  apply foldM_ext. intros e2e [[base iel] v] Ht. simpl. unfold step.
  destruct base as [b|]; [|done].
  rewrite <-Hlen, py_index_wrap; [done|]. rewrite Hlen. by apply (Hinc _ Ht).
Qed.

Lemma stamped_from_wrap (n : nat) (groups : list MeshElementGroup) :
  ∀ el_nr, stamped_from el_nr groups →
           stamped_from el_nr (wrap_group n <$> groups).
Proof.
  induction groups as [|g groups IH]; intros el_nr; [done|].
  intros [Hbase Hrest]. rewrite fmap_cons. cbn [stamped_from]. split; [done|].
  replace (nelements (wrap_group n g)) with (nelements g)
    by (unfold nelements, shape0; simpl; by rewrite length_fmap).
  by apply IH.
Qed.

(** X8. A negative vertex index counts from the end.  When no vertex index
    of the mesh is below [-nvertices], the connectivity builder gives for
    the mesh what it gives for the mesh in which every negative index [v]
    is replaced by [v + nvertices], the same connectivity or the same
    exception; if moreover the groups carry the offsets of [Mesh.__init__]
    and no index reaches [nvertices], that second mesh is one whose indices
    all name a column of [vertices]. *)
Theorem negative_vertex_indices_count_from_the_end (mesh : Mesh) :
  vertex_indices_at_least (- Z.of_nat (nvertices mesh)) mesh →
  _compute_connectivity_from_vertices mesh
  = _compute_connectivity_from_vertices (wrap_mesh mesh)
  ∧ (stamped_from 0 (groups mesh) →
     vertex_indices_below (Z.of_nat (nvertices mesh)) mesh →
     valid_mesh (wrap_mesh mesh)).
Proof.
  intros Hlo. split.
  - unfold _compute_connectivity_from_vertices.
    change (shape1 (vertices (wrap_mesh mesh))) with (nvertices mesh).
    change (shape1 (vertices mesh)) with (nvertices mesh).
    rewrite Mesh_nelements_wrap, record_elements_wrap by done.
    destruct (for_each_element mesh record_element _) as [v2e|e] eqn:Hv2e;
      [|done].
    simpl. apply record_elements_Ok in Hv2e as [Hlen _].
    by rewrite (gather_neighbors_wrap mesh v2e Hlo Hlen).
  - intros Hstamped Hhi. split.
    + unfold wrap_mesh. cbn [groups]. by apply stamped_from_wrap.
    + unfold vertex_indices_in_range, wrap_mesh. cbn [groups].
      change (nvertices _) with (nvertices mesh).
      unfold vertex_indices_at_least in Hlo.
      unfold vertex_indices_below in Hhi.
      rewrite Forall_fmap. rewrite Forall_forall in Hlo, Hhi |- *.
      intros g Hg. specialize (Hlo g Hg). specialize (Hhi g Hg). simpl.
      rewrite Forall_fmap. rewrite Forall_forall in Hlo, Hhi |- *.
      intros row Hrow. specialize (Hlo row Hrow). specialize (Hhi row Hrow).
      simpl. rewrite Forall_fmap. rewrite Forall_forall in Hlo, Hhi |- *.
      intros v Hv. specialize (Hlo v Hv). specialize (Hhi v Hv). simpl.
      unfold wrap_index. destruct (decide (v < 0)); lia.
Qed.

End wrap.

Lemma square_mesh_from_the_end_at_least :
  vertex_indices_at_least (- Z.of_nat (nvertices square_mesh_from_the_end))
    square_mesh_from_the_end.
Proof.
  repeat first [apply Forall_cons; split | apply Forall_nil];
    unfold nvertices; simpl; lia.
Qed.

Lemma negative_vertex_indices_count_from_the_end_witness :
  _compute_connectivity_from_vertices square_mesh_from_the_end
  = _compute_connectivity_from_vertices (wrap_mesh square_mesh_from_the_end)
  ∧ wrap_mesh square_mesh_from_the_end = square_mesh.
Proof.
  split; [|reflexivity].
  apply (negative_vertex_indices_count_from_the_end
           square_mesh_from_the_end square_mesh_from_the_end_at_least).
Defined.

(** ** Meshes from the groups of a mesh *)

Section rejoining.
Context `{Environment}.

Lemma join_groups_copies (groups0 : list MeshElementGroup) :
  ∀ el_nr node_nr new_groups,
    join_groups el_nr node_nr groups0 = Ok new_groups →
    ∃ copies,
      mapM (λ g, copy g no_kwargs) new_groups = Ok copies
      ∧ Forall (λ c, element_nr_base c = None ∧ node_nr_base c = None) copies
      ∧ join_groups el_nr node_nr copies = Ok new_groups.
Proof.
  induction groups0 as [|g groups0 IH]; intros el_nr node_nr new_groups Hjoin.
  - injection Hjoin as <-. exists []. by split.
  - simpl in Hjoin. apply bind_Ok in Hjoin as (ng & Hng & Hjoin).
    apply bind_Ok in Hjoin as (new' & Hnew' & [= <-]).
    destruct (IH _ _ _ Hnew') as (copies & Hcopies & Hnone & Hrejoin).
    pose proof (join_mesh_Ok _ _ _ _ Hng) as (_ & Heq & Hchecked).
    destruct (copy_total ng no_kwargs eq_refl eq_refl Hchecked) as [c Hc].
    pose proof (copy_Ok _ _ _ Hc) as [Hceq Hcchecked]. simpl in Hceq.
    assert (Hcbase : element_nr_base c = None) by (by rewrite Hceq).
    destruct (join_mesh_total c el_nr node_nr Hcbase Hcchecked) as [ng' Hng'].
    pose proof (join_mesh_Ok _ _ _ _ Hng') as (_ & Heq' & _).
    assert (ng' = ng) as ->.
    { rewrite Heq', Hceq, Heq. reflexivity. }
    exists (c :: copies). rewrite mapM_cons, Hc. simpl. rewrite Hcopies. simpl.
    split; [done|]. split.
    { constructor; [|done]. by rewrite Hceq. }
    rewrite Hng'. simpl. rewrite Hrejoin. done.
Qed.

(** X9. The groups of a mesh cannot be handed to [Mesh.__init__] again,
    which raises [RuntimeError] at the first of them; their copies can, and
    the mesh built from the copies has the very groups of the first mesh,
    offsets included. *)
Theorem mesh_groups_rejoin_only_as_copies vertices0 groups0 skip_tests conn
    vdt edt (m : Mesh) :
  Mesh_init vertices0 groups0 skip_tests conn vdt edt = Ok m →
  (groups m ≠ [] →
   ∀ vertices' skip_tests' conn' vdt' edt',
     Mesh_init vertices' (groups m) skip_tests' conn' vdt' edt'
     = Raise RuntimeError)
  ∧ ∃ copies,
      mapM (λ g, copy g no_kwargs) (groups m) = Ok copies
      ∧ Forall (λ c, element_nr_base c = None ∧ node_nr_base c = None) copies
      ∧ ∀ vertices' conn' vdt' edt',
          ∃ m', Mesh_init vertices' copies true conn' vdt' edt' = Ok m'
                ∧ groups m' = groups m.
Proof.
  intros Hinit. apply Mesh_init_Ok in Hinit as (_ & Hjoin & _). split.
  - intros Hne vertices' skip_tests' conn' vdt' edt'.
    apply join_groups_stamped in Hjoin as (Hstamped & _ & _).
    destruct (groups m) as [|ng rest]; [done|].
    destruct Hstamped as [Hbase _].
    unfold Mesh_init. simpl. by rewrite (join_mesh_joined _ _ _ _ Hbase).
  - destruct (join_groups_copies _ _ _ _ Hjoin)
      as (copies & Hcopies & Hnone & Hrejoin).
    exists copies. split; [done|]. split; [done|].
    intros vertices' conn' vdt' edt'. unfold Mesh_init. rewrite Hrejoin.
    simpl. eexists. split; [done|]. done.
Qed.

End rejoining.

Lemma mesh_groups_rejoin_only_as_copies_witness :
  Mesh_init square_vertices (groups square_mesh) true ArgNone int32 int32
  = Raise RuntimeError
  ∧ ∃ copies m',
      mapM (λ g, copy g no_kwargs) (groups square_mesh) = Ok copies
      ∧ Mesh_init square_vertices copies true ArgNone int32 int32 = Ok m'
      ∧ groups m' = groups square_mesh.
Proof.
  destruct (mesh_groups_rejoin_only_as_copies
              square_vertices square_groups false ArgNone int32 int32
              square_mesh square_mesh_init) as [Hraise (copies & Hc & _ & Hm)].
  split.
  - apply Hraise. discriminate.
  - destruct (Hm square_vertices ArgNone int32 int32) as (m' & Hm' & Hg).
    exists copies, m'. split; [exact Hc|]. split; [exact Hm' | exact Hg].
Defined.

(** ** Reading the connectivity of a mesh that has none *)

Section failed_reads.
Context `{SetOrder}.

Lemma accesses_failing compute (n : nat) (self : Mesh) (e : exn) :
  _element_connectivity self = ConnNone →
  compute self = Raise e →
  accesses compute n self = (replicate n (Raise e), self).
Proof.
  intros Hstate Hraise. induction n as [|n IH]; [done|].
  simpl. unfold element_connectivity_by. rewrite Hstate, Hraise.
  by rewrite IH.
Qed.

(** X10. A derivation that fails is not stored.  On a mesh whose
    connectivity is to be derived and that has a vertex entry the builder
    cannot process, every read of [element_connectivity] raises, the same
    exception each time, and the mesh stays as it was, so that each read
    runs the builder again. *)
Theorem failed_derivation_is_not_cached (mesh : Mesh) (n : nat) :
  _element_connectivity mesh = ConnNone →
  ¬ addressable mesh →
  ∃ e,
    _compute_connectivity_from_vertices mesh = Raise e
    ∧ accesses _compute_connectivity_from_vertices n mesh
      = (replicate n (Raise e), mesh).
Proof.
  intros Hstate Hbad.
  destruct (_compute_connectivity_from_vertices mesh) as [conn|e] eqn:Hc.
  - destruct Hbad. by eapply compute_connectivity_Ok_addressable.
  - exists e. split; [done|]. by apply accesses_failing.
Qed.

End failed_reads.

Lemma square_mesh_out_of_range_not_addressable :
  ¬ addressable square_mesh_out_of_range.
Proof.
  intros Haddr.
  destruct (compute_connectivity_total square_mesh_out_of_range Haddr)
    as [conn Hconn].
  vm_compute in Hconn. discriminate Hconn.
Qed.

Lemma failed_derivation_is_not_cached_witness :
  ∃ e,
    _compute_connectivity_from_vertices square_mesh_out_of_range = Raise e
    ∧ accesses _compute_connectivity_from_vertices 3 square_mesh_out_of_range
      = (replicate 3 (Raise e), square_mesh_out_of_range).
Proof.
  apply (failed_derivation_is_not_cached square_mesh_out_of_range 3);
    [reflexivity | exact square_mesh_out_of_range_not_addressable].
Defined.

(** ** When a mesh can be built *)

Section mesh_init_returns.
Context `{Environment}.

Lemma join_groups_Ok_unjoined (groups0 : list MeshElementGroup) :
  ∀ el_nr node_nr new_groups,
    join_groups el_nr node_nr groups0 = Ok new_groups →
    Forall (λ g, element_nr_base g = None ∧ group_checked g) groups0.
Proof.
  induction groups0 as [|g groups0 IH]; intros el_nr node_nr new_groups Hjoin;
    [constructor|].
  simpl in Hjoin. apply bind_Ok in Hjoin as (ng & Hng & Hjoin).
  apply bind_Ok in Hjoin as (new' & Hnew' & _).
  constructor; [|by eapply IH].
  apply join_mesh_Ok in Hng as (Hnone & -> & Hchecked). split; [done|].
  exact Hchecked.
Qed.

(** X11. For simplex groups, [Mesh.__init__] with the tests skipped returns
    exactly when none of the groups has joined a mesh and each of them has
    one vertex more per element than its dimension, which is what
    [SimplexElementGroup.__init__] checks again when the group is copied
    into the mesh; and the tests, when they are run and pass, leave the mesh
    as it is built without them. *)
Theorem mesh_init_returns_iff vertices0 groups0 conn vdt edt :
  (Forall (λ g, class_of g = SimplexElementGroup_class) groups0 →
   (is_Ok (Mesh_init vertices0 groups0 true conn vdt edt) ↔
    Forall (λ g, element_nr_base g = None
                 ∧ shape1 (vertex_indices g) = (dim g + 1)%nat) groups0))
  ∧ ∀ m, Mesh_init vertices0 groups0 false conn vdt edt = Ok m →
         Mesh_init vertices0 groups0 true conn vdt edt = Ok m.
Proof.
  split; [intros Hsimplex; split|].
  - intros [m Hm]. apply Mesh_init_Ok in Hm as (_ & Hjoin & _).
    apply join_groups_Ok_unjoined in Hjoin.
    rewrite Forall_forall in Hjoin, Hsimplex |- *.
    intros g Hg. destruct (Hjoin g Hg) as [Hbase Hchecked].
    split; [done|]. by apply Hchecked, Hsimplex.
  - intros Hgroups.
    destruct (join_groups_total groups0 0 0) as [new_groups Hjoin].
    { rewrite Forall_forall in Hgroups |- *.
      intros g Hg. destruct (Hgroups g Hg) as [Hbase Hshape].
      split; [done|]. by intros _. }
    unfold Mesh_init. rewrite Hjoin. simpl. apply is_Ok_Ok.
  - intros m Hm. unfold Mesh_init in Hm |- *.
    destruct (join_groups 0 0 groups0) as [new_groups|e]; [|done].
    simpl in Hm |- *.
    destruct (mesh_tests vertices0 new_groups) as [[]|e]; [|done].
    exact Hm.
Qed.

End mesh_init_returns.

(** The two triangles of the square join a mesh; once stamped, they do
    not join another. *)
Lemma mesh_init_returns_iff_witness :
  Forall (λ g, class_of g = SimplexElementGroup_class) square_groups
  ∧ is_Ok (Mesh_init square_vertices square_groups true ArgNone int32 int32)
  ∧ ¬ is_Ok (Mesh_init square_vertices square_stamped true ArgNone int32 int32).
Proof.
  assert (Hnew : Forall (λ g, class_of g = SimplexElementGroup_class)
                   square_groups).
  { repeat constructor. }
  assert (Hold : Forall (λ g, class_of g = SimplexElementGroup_class)
                   square_stamped).
  { repeat constructor. }
  split; [exact Hnew|]. split.
  - apply (proj1 (mesh_init_returns_iff square_vertices square_groups ArgNone
                    int32 int32) Hnew).
    repeat constructor.
  - intros Hok.
    apply (proj1 (mesh_init_returns_iff square_vertices square_stamped ArgNone
                    int32 int32) Hold) in Hok.
    apply Forall_cons in Hok as [[Hbase _] _]. discriminate Hbase.
Defined.

(** ** The loops of the face restriction *)

Lemma foldM_invariant_split {A B} (P : list A → B → Prop)
    (f : B → A → result B) (b b' : B) (l : list A) :
  foldM f b l = Ok b' →
  P [] b →
  (∀ done a rest b b',
     l = done ++ a :: rest → P done b → f b a = Ok b' → P (done ++ [a]) b') →
  P l b'.
Proof.
  intros Hfold Hb Hstep.
  cut (∀ rest done b, l = done ++ rest → P done b →
         foldM f b rest = Ok b' → P l b').
  { intros Hcut. by apply (Hcut l [] b). }
  induction rest as [|a rest IH]; intros done b0 Hl Hp Hf; simpl in Hf.
  - injection Hf as <-. rewrite Hl, app_nil_r. done.
  - apply bind_Ok in Hf as (b1 & Hb1 & Hf).
    apply (IH (done ++ [a]) b1); [by rewrite <-app_assoc| |done].
    by apply (Hstep done a rest b0).
Qed.

Lemma batch_start_0 (gbf : list (Z * Z)) : batch_start gbf 0 = 0%nat.
Proof.
  unfold batch_start. rewrite filter_none; [done|]. intros p. simpl. lia.
Qed.

Lemma batch_start_S (gbf : list (Z * Z)) (f : nat) :
  batch_start gbf (S f) = (batch_start gbf f + length (batch_pairs gbf f))%nat.
Proof. apply filter_below_S. Qed.

Lemma batch_start_le (gbf : list (Z * Z)) (f f' : nat) :
  (f ≤ f')%nat → (batch_start gbf f ≤ batch_start gbf f')%nat.
Proof.
  induction 1 as [|f' _ IH]; [done|]. rewrite batch_start_S. lia.
Qed.

Lemma assign_rows_Ok (target : ndarray Z) (start : nat) (value target' : ndarray Z) :
  assign_rows target start value = Ok target' →
  shape1 value ≠ 1%nat →
  (start + shape0 value ≤ shape0 target)%nat
  ∧ shape1 value = shape1 target
  ∧ target' = NdArray (shape1 target)
                (take start (rows target) ++ rows value
                   ++ drop (start + shape0 value) (rows target)).
Proof.
  unfold assign_rows. intros Hassign Hne.
  case_decide as Hfit; [|done].
  case_decide as Hsame; [|by case_decide].
  by injection Hassign as <-.
Qed.

Section restriction_facts.
Context `{Environment}.

Lemma SimplexElementGroup_init_with_nodes order0 vertex_indices0 nodes0
    unit_nodes0 g :
  SimplexElementGroup_init order0 vertex_indices0 nodes0 None None
    (Some unit_nodes0) None = Ok g →
  shape1 vertex_indices0 = (shape0 unit_nodes0 + 1)%nat
  ∧ g = {| class_of := SimplexElementGroup_class; order := order0;
           vertex_indices := vertex_indices0; nodes := nodes0;
           unit_nodes := unit_nodes0;
           element_nr_base := None; node_nr_base := None |}.
Proof.
  unfold SimplexElementGroup_init. simpl.
  case_decide as Hshape; [done|]. intros [= <-].
  split; [|done]. by destruct (decide (shape1 vertex_indices0
                                        = (shape0 unit_nodes0 + 1)%nat)).
Qed.

(** One pass of the loop over the faces. *)
Lemma face_batch_Ok igrp mgrp v2b gbf bdry_unit_nodes vol_basis faces coords
    st st' (f : nat) :
  face_vertex_indices mgrp = Ok faces →
  face_batch igrp mgrp v2b gbf bdry_unit_nodes vol_basis faces coords st f
    = Ok st' →
  ∃ loc new_rows data,
    faces !! f = Some loc
    ∧ length loc = shape1 (st_vertex_indices st)
    ∧ length new_rows = length (batch_pairs gbf f)
    ∧ (st_batch_base st + length new_rows
       ≤ length (rows (st_vertex_indices st)))%nat
    ∧ (∀ j el face, batch_pairs gbf f !! j = Some (el, face) →
         ∃ r, new_rows !! j = Some r
              ∧ renumbered_face mgrp v2b loc el = Ok r)
    ∧ st_vertex_indices st'
      = NdArray (shape1 (st_vertex_indices st))
          (take (st_batch_base st) (rows (st_vertex_indices st))
             ++ new_rows
             ++ drop (st_batch_base st + length new_rows)
                  (rows (st_vertex_indices st)))
    ∧ st_connection_data st' = <[(igrp, f) := data]> (st_connection_data st)
    ∧ Cbd.group_source_element_indices data = fst <$> batch_pairs gbf f
    ∧ Cbd.group_target_element_indices data
      = Z.of_nat <$> seq (st_batch_base st) (length (batch_pairs gbf f))
    ∧ st_batch_base st'
      = (st_batch_base st + length (batch_pairs gbf f))%nat.
Proof.
  intros Hfaces Hbatch. unfold face_batch in Hbatch.
  apply bind_Ok in Hbatch as (loc & Hloc & Hbatch).
  destruct (faces !! f) as [loc'|] eqn:Hlocf; [|done]. injection Hloc as ->.
  apply bind_Ok in Hbatch as ([A b] & _ & Hbatch).
  apply bind_Ok in Hbatch as (face_unit_nodes & _ & Hbatch).
  apply bind_Ok in Hbatch as (resampling_mat & _ & Hbatch).
  apply bind_Ok in Hbatch as (el_vertices & Hrows & Hbatch).
  apply bind_Ok in Hbatch as (glob & Hcols & Hbatch).
  apply bind_Ok in Hbatch as (new_rows & Hnew & Hbatch).
  apply bind_Ok in Hbatch as (vi' & Hassign & Hbatch).
  apply bind_Ok in Hbatch as (new_nodes & _ & Hbatch).
  apply bind_Ok in Hbatch as (nodes' & _ & [= <-]).
  fold (batch_pairs gbf f) in *.
  unfold take_rows, np_take in Hrows.
  apply bind_Ok in Hrows as (rs & Hrs & [= <-]).
  unfold take_cols in Hcols. simpl in Hcols.
  apply bind_Ok in Hcols as (cs & Hcs & [= <-]). simpl in Hnew, Hassign.
  pose proof (mapM_Ok_lookup _ _ _ Hrs) as [Hlen_rs Hlook_rs].
  pose proof (mapM_Ok_lookup _ _ _ Hcs) as [Hlen_cs Hlook_cs].
  pose proof (mapM_Ok_lookup _ _ _ Hnew) as [Hlen_new Hlook_new].
  assert (Hloc_in : loc ∈ faces) by (by eapply list_elem_of_lookup_2).
  pose proof (face_vertex_indices_length _ _ _ Hfaces Hloc_in) as Hloc_len.
  apply assign_rows_Ok in Hassign as (Hfit & Hshape & ->); [|simpl; lia].
  unfold shape0 in Hfit. simpl in Hfit, Hshape.
  rewrite length_fmap in Hlen_rs.
  exists loc, new_rows. eexists. split; [done|]. split; [done|].
  split; [congruence|]. split; [done|]. split.
  { intros j el face Hj.
    destruct (Hlook_rs j el) as (row & Hrow & Hprow).
    { by rewrite list_lookup_fmap, Hj. }
    destruct (Hlook_cs j row Hrow) as (gface & Hgface & Hpface).
    destruct (Hlook_new j gface Hgface) as (r & Hr & Hpr).
    exists r. split; [done|]. unfold renumbered_face.
    unfold np_take in *. rewrite Hprow. simpl. rewrite Hpface. simpl. done. }
  simpl. split; [done|]. split; [reflexivity|]. simpl.
  rewrite !length_fmap. done.
Qed.

(** The loop over the faces of one group. *)
Lemma face_loop_Ok igrp mgrp v2b gbf bdry_unit_nodes vol_basis faces coords
    (m : nat) nodes0 cd0 st :
  face_vertex_indices mgrp = Ok faces →
  foldM (face_batch igrp mgrp v2b gbf bdry_unit_nodes vol_basis faces coords)
    {| st_vertex_indices := np_empty (length gbf) m; st_nodes := nodes0;
       st_connection_data := cd0; st_batch_base := 0 |}
    (seq 0 (length faces)) = Ok st →
  shape1 (st_vertex_indices st) = m
  ∧ length (rows (st_vertex_indices st)) = length gbf
  ∧ faces_restricted igrp mgrp v2b gbf faces (st_vertex_indices st)
      (st_connection_data st) (length faces)
  ∧ (∀ k face_id, k ≠ igrp →
       st_connection_data st !! (k, face_id) = cd0 !! (k, face_id))
  ∧ (∀ loc, loc ∈ faces → length loc = m)
  ∧ (∀ i : nat, (batch_start gbf (length faces) ≤ i)%nat →
       rows (st_vertex_indices st) !! i
       = rows (np_empty (length gbf) m) !! i).
Proof.
  intros Hfaces Hfold.
  pose (Q := λ (f : nat) (st : face_loop_state),
         shape1 (st_vertex_indices st) = m
         ∧ length (rows (st_vertex_indices st)) = length gbf
         ∧ st_batch_base st = batch_start gbf f
         ∧ faces_restricted igrp mgrp v2b gbf faces (st_vertex_indices st)
             (st_connection_data st) f
         ∧ (∀ k face_id, k ≠ igrp →
              st_connection_data st !! (k, face_id) = cd0 !! (k, face_id))
         ∧ (∀ face_id loc, (face_id < f)%nat → faces !! face_id = Some loc →
              length loc = m)
         ∧ (∀ i : nat, (batch_start gbf f ≤ i)%nat →
              rows (st_vertex_indices st) !! i
              = rows (np_empty (length gbf) m) !! i)).
  assert (HQ : Q (length faces) st).
  { apply (foldM_seq_invariant Q _ _ _ _ Hfold).
    - unfold Q, np_empty. simpl.
      split; [done|]. split; [by rewrite length_fmap, length_seq|].
      split; [by rewrite batch_start_0|]. split; [split; intros; lia|].
      split; [done|]. split; [intros; lia | done].
    - clear Hfold st.
      intros f st st' Hf
        (Hshape & Hlen & Hbase & [Hrows Hdata] & Hother & Hlocs & Hrest)
        Hbatch.
      destruct (face_batch_Ok _ _ _ _ _ _ _ _ _ _ _ Hfaces Hbatch)
        as (loc & new_rows & data & Hloc & Hloc_len & Hlen_new & Hfit & Hnew
            & Hvi & Hcd & Hsrc & Htgt & Hbase').
      unfold Q. rewrite Hvi, Hcd, Hbase'. cbn [shape1 rows].
      split; [done|]. split.
      { rewrite !length_app, length_take, length_drop. lia. }
      split; [by rewrite batch_start_S, Hbase|].
      split; [split|].
      + intros f' j el face Hf' Hj. cbn [rows].
        destruct (decide (f' = f)) as [->|Hne].
        * destruct (Hnew j el face Hj) as (r & Hr & Hren).
          exists loc, r. split; [done|]. split; [done|].
          rewrite <-Hbase. rewrite lookup_app_r by (rewrite length_take; lia).
          rewrite length_take.
          replace (st_batch_base st + j
                   - st_batch_base st `min` length (rows (st_vertex_indices st)))%nat
            with j by lia.
          rewrite lookup_app_l; [done|]. by eapply lookup_lt_Some.
        * destruct (Hrows f' j el face) as (loc' & r & Hloc' & Hren & Hr);
            [lia|done|].
          exists loc', r. split; [done|]. split; [done|].
          pose proof (lookup_lt_Some _ _ _ Hj) as Hjlt.
          pose proof (batch_start_le gbf (S f') f) as Hle.
          rewrite batch_start_S in Hle.
          rewrite lookup_app_l by (rewrite length_take; lia).
          rewrite lookup_take_lt by lia. done.
      + intros f' Hf'. destruct (decide (f' = f)) as [->|Hne].
        * exists data. rewrite lookup_insert_eq. split; [done|].
          split; [done|]. by rewrite Htgt, Hbase.
        * destruct (Hdata f') as (data' & Hdata' & Hsrc' & Htgt'); [lia|].
          exists data'. rewrite lookup_insert_ne by congruence. done.
      + split.
        * intros k face_id Hk. rewrite lookup_insert_ne by congruence.
          by apply Hother.
        * split.
          -- intros f' loc' Hf' Hloc'.
             destruct (decide (f' = f)) as [->|Hne].
             ++ rewrite Hloc in Hloc'. injection Hloc' as <-. congruence.
             ++ apply (Hlocs f' loc'); [lia|done].
          -- intros i Hi. rewrite batch_start_S, <-Hbase, <-Hlen_new in Hi.
             rewrite app_assoc, lookup_app_r
               by (rewrite length_app, length_take; lia).
             rewrite length_app, length_take, lookup_drop.
             replace (st_batch_base st + length new_rows
                      + (i - (st_batch_base st
                                `min` length (rows (st_vertex_indices st))
                              + length new_rows)))%nat with i by lia.
             apply Hrest. lia. }
  destruct HQ as (Hshape & Hlen & _ & Hrestricted & Hother & Hlocs & Hrest).
  split; [done|]. split; [done|]. split; [done|]. split; [done|].
  split; [|done].
  intros loc [f Hf]%list_elem_of_lookup.
  apply (Hlocs f loc); [by eapply lookup_lt_Some | done].
Qed.

(** The body of the loop over the groups. *)
Lemma restrict_group_Ok discr boundary_tag btag_bit v2b bgs cd igrp grp fm
    bgs' cd' :
  restrict_group discr boundary_tag btag_bit v2b (bgs, cd) (igrp, (grp, fm))
    = Ok (bgs', cd') →
  ∃ bg,
    bgs' = bgs ++ [bg]
    ∧ element_nr_base bg = None
    ∧ group_restricted boundary_tag btag_bit v2b igrp grp fm bg cd'
    ∧ ∀ k face_id, k ≠ igrp → cd' !! (k, face_id) = cd !! (k, face_id).
Proof.
  intros Hstep. unfold restrict_group in Hstep.
  case_decide as Hclass; [done|].
  apply bind_Ok in Hstep as (gbf & Hgbf & Hstep).
  apply bind_Ok in Hstep as (bdry_unit_nodes & Hwb & Hstep).
  apply bind_Ok in Hstep as (vol_basis & _ & Hstep).
  apply bind_Ok in Hstep as (faces & Hfaces & Hstep).
  apply bind_Ok in Hstep as (coords & _ & Hstep).
  apply bind_Ok in Hstep as (st & Hfold & Hstep).
  apply bind_Ok in Hstep as (g & Hg & [= <- <-]).
  apply face_loop_Ok in Hfold
    as (Hshape & Hlen & Hrestricted & Hother & Hlocs & Hrest); [|done].
  apply SimplexElementGroup_init_with_nodes in Hg as [Hcheck ->].
  assert (Hsimplex : class_of (mesh_el_group grp) = SimplexElementGroup_class).
  { destruct (class_of (mesh_el_group grp)); [|done]. by destruct Hclass. }
  eexists. split; [done|]. split; [done|]. split; [|done].
  exists gbf, faces. cbn [class_of order unit_nodes vertex_indices].
  split; [done|]. split; [done|]. split; [done|]. split.
  { unfold face_vertex_indices in Hfaces. rewrite Hsimplex in Hfaces.
    destruct (decide (dim (mesh_el_group grp) = 1%nat)) as [Hone|_].
    { injection Hfaces as <-.
      specialize (Hlocs [0; 1]). simpl in Hlocs.
      rewrite Hone in Hlocs. specialize (Hlocs ltac:(left)). lia. }
    destruct (decide (dim (mesh_el_group grp) = 2%nat)); [by left|].
    destruct (decide (dim (mesh_el_group grp) = 3%nat)); [by right|done]. }
  split; [done|]. split; [done|]. split; [done|].
  split; [unfold dim at 1; simpl; lia|]. split; [lia|].
  split; [unfold nelements, shape0; simpl; done|]. split; [done|].
  intros i Hi. rewrite (Hrest i Hi). by rewrite Nat.add_sub.
Qed.

(** The loop over the groups. *)
Lemma restrict_groups_Ok discr boundary_tag btag_bit v2b bgs cd :
  foldM (restrict_group discr boundary_tag btag_bit v2b) ([], ∅)
    (enumerate (zip (discr_groups discr)
                  (facial_adjacency_groups (mesh discr)))) = Ok (bgs, cd) →
  length bgs = length (zip (discr_groups discr)
                         (facial_adjacency_groups (mesh discr)))
  ∧ Forall (λ bg, element_nr_base bg = None) bgs
  ∧ ∀ k grp fm,
      discr_groups discr !! k = Some grp →
      facial_adjacency_groups (mesh discr) !! k = Some fm →
      ∃ bg, bgs !! k = Some bg
            ∧ group_restricted boundary_tag btag_bit v2b k grp fm bg cd.
Proof.
  intros Hfold.
  set (items := enumerate (zip (discr_groups discr)
                             (facial_adjacency_groups (mesh discr)))) in *.
  pose (P := λ (done : list (nat * (DiscretizationGroup * fagrp_map)))
               (acc : list MeshElementGroup
                      * gmap (nat * nat) _ConnectionBatchData),
         length (fst acc) = length done
         ∧ Forall (λ bg, element_nr_base bg = None) (fst acc)
         ∧ ∀ k item, done !! k = Some item →
             fst item = k
             ∧ ∃ bg, fst acc !! k = Some bg
                 ∧ group_restricted boundary_tag btag_bit v2b k
                     (fst (snd item)) (snd (snd item)) bg (snd acc)).
  assert (HP : P items (bgs, cd)).
  { apply (foldM_invariant_split P _ _ _ _ Hfold).
    - split; [done|]. split; [constructor|]. intros k item Hk. done.
    - intros done [igrp [grp fm]] rest [bgs0 cd0] [bgs1 cd1] Hitems
        (Hlen & Hnone & Hdone) Hstep.
      apply restrict_group_Ok in Hstep as (bg & -> & Hbase & Hbg & Hother).
      assert (Higrp : igrp = length done).
      { assert (items !! length done = Some (igrp, (grp, fm))) as Hat.
        { rewrite Hitems, lookup_app_r by lia.
          by replace (length done - length done)%nat with 0%nat by lia. }
        by apply lookup_enumerate in Hat as [<- _]. }
      simpl in Hlen. unfold P. cbn [fst snd].
      split; [rewrite !length_app; simpl; lia|].
      split; [apply Forall_app; split; [done|by constructor]|].
      intros k item Hk.
      destruct (decide (k < length done)%nat) as [Hlt|Hge].
      + rewrite lookup_app_l in Hk by done.
        destruct (Hdone k item Hk) as (Hfst & bg0 & Hbg0 & Hr).
        split; [done|]. exists bg0. simpl in Hbg0.
        rewrite lookup_app_l by lia. split; [done|].
        destruct Hr as (gbf & faces & Hgbf & Hfaces & Hc & Hd & Hbc & Hbo
                        & Hwb & Hdim & Hshape & Hn & [Hrows Hdata] & Hrest).
        exists gbf, faces. do 10 (split; [done|]). split; [|done].
        split; [done|].
        intros f Hf. destruct (Hdata f Hf) as (data & Hkey & Hsrc & Htgt).
        exists data. split; [|done]. simpl. simpl in Hkey.
        rewrite Hother by lia. done.
      + pose proof (lookup_lt_Some _ _ _ Hk) as Hk'.
        rewrite length_app in Hk'. simpl in Hk'.
        assert (k = length done) as -> by lia.
        rewrite lookup_app_r in Hk by lia.
        replace (length done - length done)%nat with 0%nat in Hk by lia.
        injection Hk as <-. cbn [fst snd]. split; [done|]. exists bg.
        rewrite lookup_app_r by lia. rewrite Hlen.
        replace (length done - length done)%nat with 0%nat by lia.
        split; [done|]. by rewrite <-Higrp. }
  destruct HP as (Hlen & Hnone & Hall). simpl in Hlen, Hnone.
  split; [by rewrite Hlen; unfold items, enumerate; rewrite length_imap|].
  split; [done|].
  intros k grp fm Hgrp Hfm.
  destruct (Hall k (k, (grp, fm))) as (_ & bg & Hbg & Hr).
  { apply lookup_enumerate. split; [done|]. simpl.
    apply lookup_zip_with_Some. by exists grp, fm. }
  by exists bg.
Qed.

Lemma group_restricted_joined boundary_tag btag_bit v2b k grp fm bg bg' cd :
  class_of bg' = class_of bg → order bg' = order bg →
  vertex_indices bg' = vertex_indices bg → unit_nodes bg' = unit_nodes bg →
  group_restricted boundary_tag btag_bit v2b k grp fm bg cd →
  group_restricted boundary_tag btag_bit v2b k grp fm bg' cd.
Proof.
  intros Hc Ho Hv Hu (gbf & faces & H1 & H2 & H3 & H4 & H5 & H6 & H7 & H8 & H9
                      & H10 & H11 & H12).
  exists gbf, faces. unfold dim, nelements in *.
  rewrite Hc, Ho, Hv, Hu. done.
Qed.

(** Everything [make_face_restriction] does up to the boundary mesh. *)
Lemma restrict_mesh_Ok discr boundary_tag bdry_mesh cd :
  restrict_mesh discr boundary_tag = Ok (bdry_mesh, cd) →
  ∃ kept v2b,
    _get_face_vertices (mesh discr) boundary_tag = Ok kept
    ∧ make_vol_to_bdry_vertices (shape1 (vertices (mesh discr))) kept = Ok v2b
    ∧ take_cols (vertices (mesh discr)) kept = Ok (vertices bdry_mesh)
    ∧ _element_connectivity bdry_mesh = ConnFalse
    ∧ stamped_from 0 (groups bdry_mesh)
    ∧ length (groups bdry_mesh)
      = length (zip (discr_groups discr)
                  (facial_adjacency_groups (mesh discr)))
    ∧ ∀ k grp fm,
        discr_groups discr !! k = Some grp →
        facial_adjacency_groups (mesh discr) !! k = Some fm →
        ∃ bg, groups bdry_mesh !! k = Some bg
              ∧ element_nr_base bg
                = Some (sum_list (nelements <$> take k (groups bdry_mesh)))
              ∧ group_restricted boundary_tag
                  (boundary_tag_bit (mesh discr) boundary_tag) v2b k grp fm
                  bg cd.
Proof.
  intros Hrestrict. unfold restrict_mesh in Hrestrict.
  apply bind_Ok in Hrestrict as (kept & Hkept & Hrestrict).
  apply bind_Ok in Hrestrict as (v2b & Hv2b & Hrestrict).
  apply bind_Ok in Hrestrict as (bdry_vertices & Hvertices & Hrestrict).
  apply bind_Ok in Hrestrict as ([bgs cd'] & Hfold & Hrestrict).
  apply bind_Ok in Hrestrict as (bm & Hinit & [= <- <-]).
  apply restrict_groups_Ok in Hfold as (Hlen & Hnone & Hall).
  apply Mesh_init_Ok in Hinit as (Hv & Hjoin & Hconn).
  pose proof (join_groups_stamped _ _ _ _ Hjoin) as (Hstamped & _ & Hnel).
  apply join_groups_Ok in Hjoin as [Hlen' Hlook].
  exists kept, v2b. split; [done|]. split; [done|].
  split; [by rewrite Hv|]. split; [done|]. split; [done|].
  split; [congruence|].
  intros k grp fm Hgrp Hfm.
  destruct (Hall k grp fm Hgrp Hfm) as (bg & Hbg & Hr).
  destruct (Hlook k bg Hbg) as [_ Hbg'].
  eexists. split; [exact Hbg'|]. split.
  { cbn [element_nr_base]. rewrite !fmap_take, Hnel. done. }
  by eapply group_restricted_joined; [..|exact Hr].
Qed.

End restriction_facts.

(** ** The boundary connection *)

Lemma affine_apply_is_Ok (A : ndarray float) (b : list float)
    (x : ndarray float) :
  shape0 A = length b →
  is_Ok (affine_apply A b x) ↔ shape1 A = shape0 x.
Proof.
  intros Hb. unfold affine_apply, np_dot. split.
  - intros [y Hy]. by case_decide.
  - intros Hshape. rewrite decide_True by done. simpl.
    unfold add_along_rows, shape0. simpl. rewrite length_fmap.
    rewrite decide_True by done. apply is_Ok_Ok.
Qed.

Section connection_facts.
Context `{Environment}.

Lemma face_affine_map_shape (mgrp : MeshElementGroup) faces coords (f : nat)
    A b :
  face_vertex_indices mgrp = Ok faces →
  vertex_unit_coordinates mgrp = Ok coords →
  face_affine_map faces coords f = Ok (A, b) →
  ∃ loc, faces !! f = Some loc
         ∧ shape1 A = (length loc - 1)%nat ∧ shape0 A = length b.
Proof.
  unfold face_vertex_indices, vertex_unit_coordinates.
  destruct (class_of mgrp); [done|].
  destruct (decide (dim mgrp = 1%nat)) as [_|_].
  { intros [= <-] [= <-] Hmap.
    destruct f as [|f]; [|by simpl in Hmap].
    vm_compute in Hmap. injection Hmap as <- <-.
    eexists. split; [reflexivity|]. split; reflexivity. }
  destruct (decide (dim mgrp = 2%nat)) as [_|_].
  { intros [= <-] [= <-] Hmap.
    do 3 (destruct f as [|f];
          [vm_compute in Hmap; injection Hmap as <- <-;
           eexists; split; [reflexivity|]; split; reflexivity|]).
    by simpl in Hmap. }
  destruct (decide (dim mgrp = 3%nat)) as [_|_]; [|done].
  intros [= <-] [= <-] Hmap.
  do 4 (destruct f as [|f];
        [vm_compute in Hmap; injection Hmap as <- <-;
         eexists; split; [reflexivity|]; split; reflexivity|]).
  by simpl in Hmap.
Qed.

Lemma build_boundary_connection_Ok vol_discr bdry_discr cd connection :
  _build_boundary_connection vol_discr bdry_discr cd = Ok connection →
  from_discr connection = vol_discr
  ∧ to_discr connection = bdry_discr
  ∧ length (connection_groups connection)
    = length (zip (discr_groups vol_discr) (discr_groups bdry_discr))
  ∧ ∀ k vol_grp bdry_grp,
      discr_groups vol_discr !! k = Some vol_grp →
      discr_groups bdry_discr !! k = Some bdry_grp →
      ∃ faces batches,
        face_vertex_indices (mesh_el_group vol_grp) = Ok faces
        ∧ connection_groups connection !! k = Some batches
        ∧ length batches = length faces
        ∧ ∀ f, (f < length faces)%nat →
            ∃ data batch,
              cd !! (k, f) = Some data
              ∧ batches !! f = Some batch
              ∧ affine_apply (Cbd.A data) (Cbd.b data)
                  (to_01 (discr_unit_nodes bdry_grp))
                = Ok (result_unit_nodes batch)
              ∧ offset_indices (element_nr_base (mesh_el_group vol_grp))
                  (Cbd.group_source_element_indices data)
                = Ok (from_element_indices batch)
              ∧ offset_indices (element_nr_base (mesh_el_group bdry_grp))
                  (Cbd.group_target_element_indices data)
                = Ok (to_element_indices batch)
              ∧ from_group_index batch = k
              ∧ to_element_face batch = f.
Proof.
  unfold _build_boundary_connection. intros Hbuild.
  apply bind_Ok in Hbuild as (cgs & Hcgs & [= <-]). simpl.
  split; [done|]. split; [done|].
  apply mapM_Ok_lookup in Hcgs as [Hlen Hlook].
  split; [by rewrite Hlen; unfold enumerate; rewrite length_imap|].
  intros k vol_grp bdry_grp Hvol Hbdry.
  destruct (Hlook k (k, (vol_grp, bdry_grp))) as (batches & Hbatches & Hbody).
  { apply lookup_enumerate. split; [done|]. simpl.
    apply lookup_zip_with_Some. by exists vol_grp, bdry_grp. }
  simpl in Hbody. apply bind_Ok in Hbody as (faces & Hfaces & Hbody).
  apply mapM_Ok_lookup in Hbody as [Hlen_b Hlook_b].
  exists faces, batches. split; [done|]. split; [done|].
  split; [by rewrite Hlen_b, length_seq|].
  intros f Hf.
  destruct (Hlook_b f f) as (batch & Hbatch & Hstep).
  { by apply lookup_seq. }
  simpl in Hstep. apply bind_Ok in Hstep as (data & Hdata & Hstep).
  destruct (cd !! (k, f)) as [data'|] eqn:Hkey; [|done].
  injection Hdata as ->.
  apply bind_Ok in Hstep as (nodes' & Hnodes & Hstep).
  apply bind_Ok in Hstep as (from' & Hfrom & Hstep).
  apply bind_Ok in Hstep as (to' & Hto & [= <-]).
  exists data. eexists. split; [done|]. split; [done|]. simpl. done.
Qed.

Lemma build_boundary_connection_total vol_discr bdry_discr cd :
  (∀ k vol_grp bdry_grp,
     discr_groups vol_discr !! k = Some vol_grp →
     discr_groups bdry_discr !! k = Some bdry_grp →
     ∃ faces,
       face_vertex_indices (mesh_el_group vol_grp) = Ok faces
       ∧ is_Some (element_nr_base (mesh_el_group vol_grp))
       ∧ is_Some (element_nr_base (mesh_el_group bdry_grp))
       ∧ ∀ f, (f < length faces)%nat →
           ∃ data,
             cd !! (k, f) = Some data
             ∧ is_Ok (affine_apply (Cbd.A data) (Cbd.b data)
                        (to_01 (discr_unit_nodes bdry_grp)))) →
  is_Ok (_build_boundary_connection vol_discr bdry_discr cd).
Proof.
  intros Hall. unfold _build_boundary_connection.
  match goal with
  | |- is_Ok (mapM ?body ?items ≫= _) =>
      destruct (mapM_total body items) as [cgs Hcgs]
  end.
  - intros [k [vol_grp bdry_grp]] [i Hi]%list_elem_of_lookup.
    apply lookup_enumerate in Hi as [Hk Hzip]. simpl in Hk, Hzip. subst i.
    apply lookup_zip_with_Some in Hzip as (? & ? & [= <- <-] & Hvol & Hbdry).
    destruct (Hall k vol_grp bdry_grp Hvol Hbdry)
      as (faces & Hfaces & [vb Hvb] & [bb Hbb] & Hdata).
    simpl. rewrite Hfaces. simpl.
    apply mapM_total. intros f [_ Hf]%elem_of_seq.
    destruct (Hdata f) as (data & -> & [y Hy]); [lia|].
    simpl. rewrite Hy. simpl. rewrite Hvb, Hbb. simpl. apply is_Ok_Ok.
  - rewrite Hcgs. simpl. apply is_Ok_Ok.
Qed.

Lemma make_face_restriction_Ok discr group_factory boundary_tag bdry_mesh
    bdry_discr connection :
  make_face_restriction discr group_factory boundary_tag
    = Ok (bdry_mesh, bdry_discr, connection) →
  ∃ cd,
    restrict_mesh discr boundary_tag = Ok (bdry_mesh, cd)
    ∧ bdry_discr = Discretization_init bdry_mesh group_factory
    ∧ _build_boundary_connection discr bdry_discr cd = Ok connection.
Proof.
  unfold make_face_restriction. intros Hmake.
  apply bind_Ok in Hmake as ([bm cd] & Hrestrict & Hmake).
  apply bind_Ok in Hmake as (conn & Hbuild & [= <- <- <-]).
  by exists cd.
Qed.

End connection_facts.

(** ** The evaluation points of the boundary connection *)

Section face_claims.
Context `{Environment}.

(** Each batch of the connection stores the image, under the coefficients
    kept for its group and face, of the unit nodes of the boundary
    discretization group, and the elements kept for them, offset by the
    bases of their groups. *)
Lemma build_boundary_connection_batch vol_discr bdry_discr connection_data
    connection igrp face_id batch_group batch :
  _build_boundary_connection vol_discr bdry_discr connection_data
    = Ok connection →
  connection_groups connection !! igrp = Some batch_group →
  batch_group !! face_id = Some batch →
  ∃ vol_grp bdry_grp data,
    discr_groups vol_discr !! igrp = Some vol_grp
    ∧ discr_groups bdry_discr !! igrp = Some bdry_grp
    ∧ connection_data !! (igrp, face_id) = Some data
    ∧ affine_apply (Cbd.A data) (Cbd.b data)
        (to_01 (discr_unit_nodes bdry_grp))
      = Ok (result_unit_nodes batch)
    ∧ offset_indices (element_nr_base (mesh_el_group vol_grp))
        (Cbd.group_source_element_indices data)
      = Ok (from_element_indices batch)
    ∧ offset_indices (element_nr_base (mesh_el_group bdry_grp))
        (Cbd.group_target_element_indices data)
      = Ok (to_element_indices batch).
Proof.
  unfold _build_boundary_connection. intros Hbuild Hgroup Hbatch. inv_Ok.
  simpl in Hgroup.
  destruct (mapM_Ok_lookup_inv _ _ _ _ _ Hx Hgroup)
    as ([i [vol_grp bdry_grp]] & Hin & Hbody).
  apply lookup_enumerate in Hin as [Hi Hzip]. simpl in Hi, Hzip. subst i.
  apply lookup_zip_with_Some in Hzip as (? & ? & [= <- <-] & Hvol & Hbdry).
  inv_Ok.
  destruct (mapM_Ok_lookup_inv _ _ _ _ _ Hbody Hbatch) as (f & Hf & Hstep).
  apply lookup_seq in Hf as [-> _]. simpl in Hstep.
  apply bind_Ok in Hstep as (data & Hdata & Hstep).
  destruct (connection_data !! (igrp, face_id)) as [data'|] eqn:Hkey;
    [|done].
  injection Hdata as ->.
  apply bind_Ok in Hstep as (points & Hpoints & Hstep).
  apply bind_Ok in Hstep as (sources & Hsources & Hstep).
  apply bind_Ok in Hstep as (targets & Htargets & [= <-]).
  exists vol_grp, bdry_grp, data. simpl. done.
Qed.

(** One pass of the loop over the faces of group [igrp]: the batch it adds
    is resampled into the nodes it leaves, and the batches of the group
    added before stay so. *)
Lemma face_batch_resampled
    (connection_data : gmap (nat * nat) _ConnectionBatchData) igrp mgrp
    vol_to_bdry_vertices group_boundary_faces bdry_unit_nodes vol_basis faces
    coords st st' face_id :
  face_vertex_indices mgrp = Ok faces →
  vertex_unit_coordinates mgrp = Ok coords →
  warp_and_blend_nodes (Z.of_nat (dim mgrp) - 1) (order mgrp)
    = Ok bdry_unit_nodes →
  simplex_onb (dim mgrp) (order mgrp) = Ok vol_basis →
  face_batch igrp mgrp vol_to_bdry_vertices group_boundary_faces
    bdry_unit_nodes vol_basis faces coords st face_id = Ok st' →
  (∀ i f data,
     st_connection_data st !! (i, f) = Some data →
     if decide (i = igrp) then
       ∃ face_unit_nodes,
         batch_resampled mgrp f data bdry_unit_nodes face_unit_nodes
           (st_nodes st)
     else connection_data !! (i, f) = Some data) →
  ∀ i f data,
    st_connection_data st' !! (i, f) = Some data →
    if decide (i = igrp) then
      ∃ face_unit_nodes,
        batch_resampled mgrp f data bdry_unit_nodes face_unit_nodes
          (st_nodes st')
    else connection_data !! (i, f) = Some data.
Proof.
  intros Hfaces Hcoords Hwb Hbasis Hbatch Hst. unfold face_batch in Hbatch.
  apply bind_Ok in Hbatch as (loc & _ & Hbatch).
  apply bind_Ok in Hbatch as ([A b] & Hmap & Hbatch).
  apply bind_Ok in Hbatch as (face_unit_nodes & Hpoints & Hbatch).
  apply bind_Ok in Hbatch as (resampling_mat & Hmat & Hbatch).
  apply bind_Ok in Hbatch as (el_vertices & _ & Hbatch).
  apply bind_Ok in Hbatch as (glob & _ & Hbatch).
  apply bind_Ok in Hbatch as (new_rows & _ & Hbatch).
  apply bind_Ok in Hbatch as (vi' & _ & Hbatch).
  apply bind_Ok in Hbatch as (new_nodes & Hresample & Hbatch).
  apply bind_Ok in Hbatch as (nodes' & Hassign & [= <-]).
  cbn [st_connection_data st_nodes].
  intros i f data.
  destruct (decide ((igrp, face_id) = (i, f))) as [[= <- <-]|Hne].
  - rewrite lookup_insert_eq. intros [= <-]. rewrite decide_True by done.
    exists face_unit_nodes.
    exists faces, coords, vol_basis, resampling_mat, new_nodes, (st_nodes st),
      nodes'.
    cbn [Cbd.A Cbd.b Cbd.group_source_element_indices
         Cbd.group_target_element_indices].
    do 9 (split; [done|]). apply rtc_refl.
  - rewrite lookup_insert_ne by done. intros Hdata.
    specialize (Hst i f data Hdata).
    destruct (decide (i = igrp)) as [->|_]; [|done].
    destruct Hst as (points & fs & cs & vb & mat & nn & before & after
                     & H1 & H2 & H3 & H4 & H5 & H6 & H7 & H8 & H9 & Hlater).
    exists points, fs, cs, vb, mat, nn, before, after.
    do 9 (split; [done|]).
    eapply rtc_r; [exact Hlater|]. by eexists _, _.
Qed.

(** The body of the loop over the groups, for the group at the position that
    the derived groups made so far leave free. *)
Lemma restrict_group_resampled discr boundary_tag btag_bit vol_to_bdry_vertices
    bdry_mesh_groups connection_data grp fagrp_map acc' :
  discr_groups discr !! length bdry_mesh_groups = Some grp →
  restrict_group discr boundary_tag btag_bit vol_to_bdry_vertices
    (bdry_mesh_groups, connection_data)
    (length bdry_mesh_groups, (grp, fagrp_map)) = Ok acc' →
  batches_resampled discr bdry_mesh_groups connection_data →
  length (fst acc') = S (length bdry_mesh_groups)
  ∧ batches_resampled discr (fst acc') (snd acc').
Proof.
  intros Hgrp Hstep Hdone. unfold restrict_group in Hstep.
  case_decide as Hclass; [done|].
  apply bind_Ok in Hstep as (gbf & _ & Hstep).
  apply bind_Ok in Hstep as (bdry_unit_nodes & Hwb & Hstep).
  apply bind_Ok in Hstep as (vol_basis & Hbasis & Hstep).
  apply bind_Ok in Hstep as (faces & Hfaces & Hstep).
  apply bind_Ok in Hstep as (coords & Hcoords & Hstep).
  apply bind_Ok in Hstep as (st & Hfold & Hstep).
  apply bind_Ok in Hstep as (bg & Hbg & [= <-]). cbn [fst snd].
  split; [rewrite length_app; simpl; lia|].
  apply SimplexElementGroup_init_with_nodes in Hbg as [_ ->].
  assert (Hst : ∀ i f data,
            st_connection_data st !! (i, f) = Some data →
            if decide (i = length bdry_mesh_groups) then
              ∃ face_unit_nodes,
                batch_resampled (mesh_el_group grp) f data bdry_unit_nodes
                  face_unit_nodes (st_nodes st)
            else connection_data !! (i, f) = Some data).
  { apply (foldM_invariant_Ok
             (λ st, ∀ i f data,
                st_connection_data st !! (i, f) = Some data →
                if decide (i = length bdry_mesh_groups) then
                  ∃ face_unit_nodes,
                    batch_resampled (mesh_el_group grp) f data
                      bdry_unit_nodes face_unit_nodes (st_nodes st)
                else connection_data !! (i, f) = Some data)
             _ _ _ _ Hfold).
    - cbn [st_connection_data]. intros i f data Hdata.
      destruct (decide (i = length bdry_mesh_groups)) as [->|_]; [|done].
      destruct (Hdone _ _ _ Hdata) as (_ & bg0 & _ & _ & Hbg0 & _).
      apply lookup_lt_Some in Hbg0. lia.
    - intros face_id st0 st1 _ Hst0 Hbatch.
      by eapply face_batch_resampled. }
  intros i f data Hdata. specialize (Hst i f data Hdata).
  destruct (decide (i = length bdry_mesh_groups)) as [->|Hne].
  - destruct Hst as [face_unit_nodes Hst].
    eexists grp, _, face_unit_nodes. split; [done|].
    split; [by rewrite lookup_app_r, Nat.sub_diag by lia|].
    exact Hst.
  - destruct (Hdone _ _ _ Hst) as (vol_grp & bg0 & points & Hvol & Hbg0 & Hr).
    exists vol_grp, bg0, points. split; [done|].
    split; [|done]. rewrite lookup_app_l; [done|]. by eapply lookup_lt_Some.
Qed.

(** Everything up to the boundary mesh: the batch data is that of batches
    resampled into the nodes of the groups of the boundary mesh. *)
Lemma restrict_mesh_resampled discr boundary_tag bdry_mesh connection_data :
  restrict_mesh discr boundary_tag = Ok (bdry_mesh, connection_data) →
  batches_resampled discr (groups bdry_mesh) connection_data.
Proof.
  unfold restrict_mesh. intros Hrestrict.
  apply bind_Ok in Hrestrict as (kept & _ & Hrestrict).
  apply bind_Ok in Hrestrict as (v2b & _ & Hrestrict).
  apply bind_Ok in Hrestrict as (bdry_vertices & _ & Hrestrict).
  apply bind_Ok in Hrestrict as ([bgs cd] & Hfold & Hrestrict).
  apply bind_Ok in Hrestrict as (bm & Hinit & [= <- <-]).
  assert (Hbgs : length bgs
                 = length (enumerate (zip (discr_groups discr)
                             (facial_adjacency_groups (mesh discr))))
                 ∧ batches_resampled discr bgs cd).
  { apply (foldM_invariant_split
             (λ done (acc : list MeshElementGroup
                            * gmap (nat * nat) _ConnectionBatchData),
                length (fst acc) = length done
                ∧ batches_resampled discr (fst acc) (snd acc))
             _ _ _ _ Hfold).
    - split; [done|]. intros i f data. simpl. by rewrite lookup_empty.
    - intros done [igrp [grp fm]] rest [bgs0 cd0] acc1 Hitems [Hlen Hdone]
        Hstep.
      cbn [fst snd] in Hlen, Hdone.
      assert (Hat : enumerate (zip (discr_groups discr)
                                 (facial_adjacency_groups (mesh discr)))
                      !! length done = Some (igrp, (grp, fm))).
      { rewrite Hitems, lookup_app_r by lia.
        by replace (length done - length done)%nat with 0%nat by lia. }
      apply lookup_enumerate in Hat as [Higrp Hzip]. simpl in Higrp, Hzip.
      apply lookup_zip_with_Some in Hzip as (? & ? & [= <- <-] & Hgrp & _).
      subst igrp. rewrite <-Hlen in Hstep, Hgrp.
      destruct (restrict_group_resampled _ _ _ _ _ _ _ _ _ Hgrp Hstep Hdone)
        as [Hlen1 Hdone1].
      split; [|done]. rewrite Hlen1, length_app. simpl. lia. }
  destruct Hbgs as [_ Hbgs].
  apply Mesh_init_Ok in Hinit as (_ & Hjoin & _).
  apply join_groups_Ok in Hjoin as [_ Hlook].
  intros i f data Hdata.
  destruct (Hbgs i f data Hdata) as (vol_grp & bg & points & Hvol & Hbg & Hr).
  destruct (Hlook i bg Hbg) as [_ Hbg'].
  eexists vol_grp, _, points. split; [done|]. split; [exact Hbg'|].
  exact Hr.
Qed.

(** C2, as the code has it.  For the batch of group [igrp] and face
    [face_id], [make_face_restriction] took the warp-and-blend nodes of the
    reference face, which are the unit nodes of the derived mesh group, to
    [face_unit_nodes] by the coefficients [(A, b)] of the face, gave these
    points to [resampling_matrix], made with that matrix the nodes of the
    faces of the batch from the nodes of the elements of the batch, and
    assigned them to the elements of the batch in the nodes of the derived
    group, where only the assignments of later batches follow.  The
    evaluation points the batch stores are the image under the same [(A, b)]
    of the unit nodes that the group factory gave the boundary
    discretization group, mapped into [0,1]; they are [face_unit_nodes]
    whenever the factory gives the group the unit nodes of its mesh
    group. *)
Theorem connection_nodes_of_boundary_group discr group_factory boundary_tag
    bdry_mesh bdry_discr connection igrp face_id batch_group batch :
  make_face_restriction discr group_factory boundary_tag
    = Ok (bdry_mesh, bdry_discr, connection) →
  connection_groups connection !! igrp = Some batch_group →
  batch_group !! face_id = Some batch →
  ∃ vol_grp bdry_mgrp faces coords A b vol_basis face_unit_nodes
      resampling_mat source_elements target_elements new_nodes nodes_before
      nodes_after,
    discr_groups discr !! igrp = Some vol_grp
    ∧ groups bdry_mesh !! igrp = Some bdry_mgrp
    ∧ face_vertex_indices (mesh_el_group vol_grp) = Ok faces
    ∧ vertex_unit_coordinates (mesh_el_group vol_grp) = Ok coords
    ∧ face_affine_map faces coords face_id = Ok (A, b)
    ∧ warp_and_blend_nodes (Z.of_nat (dim (mesh_el_group vol_grp)) - 1)
        (order (mesh_el_group vol_grp)) = Ok (unit_nodes bdry_mgrp)
    ∧ simplex_onb (dim (mesh_el_group vol_grp)) (order (mesh_el_group vol_grp))
      = Ok vol_basis
    ∧ face_unit_nodes_of A b (unit_nodes bdry_mgrp) = Ok face_unit_nodes
    ∧ resampling_matrix vol_basis face_unit_nodes
        (unit_nodes (mesh_el_group vol_grp)) = Ok resampling_mat
    ∧ offset_indices (element_nr_base (mesh_el_group vol_grp)) source_elements
      = Ok (from_element_indices batch)
    ∧ offset_indices (element_nr_base bdry_mgrp) target_elements
      = Ok (to_element_indices batch)
    ∧ nodes_resample resampling_mat (nodes (mesh_el_group vol_grp))
        source_elements = Ok new_nodes
    ∧ nodes_assign nodes_before target_elements new_nodes = Ok nodes_after
    ∧ rtc assigned_into nodes_after (nodes bdry_mgrp)
    ∧ face_unit_nodes_of A b (group_factory bdry_mgrp)
      = Ok (result_unit_nodes batch)
    ∧ (group_factory bdry_mgrp = unit_nodes bdry_mgrp →
       result_unit_nodes batch = face_unit_nodes).
Proof.
  unfold make_face_restriction. intros Hmake Hgroup Hbatch.
  apply bind_Ok in Hmake as ([bdry_mesh' connection_data] & Hrestrict & Hmake).
  apply bind_Ok in Hmake as (connection' & Hbuild & [= <- <- <-]).
  pose proof (restrict_mesh_resampled _ _ _ _ Hrestrict) as Hdone.
  destruct (build_boundary_connection_batch _ _ _ _ _ _ _ _
              Hbuild Hgroup Hbatch)
    as (vol_grp & bdry_grp & data & Hvol & Hbdry & Hkey & Hnodes & Hfrom
        & Hto).
  destruct (Hdone _ _ _ Hkey)
    as (vol_grp' & bdry_mgrp & face_unit_nodes & Hvol' & Hmg & Hr).
  rewrite Hvol in Hvol'. injection Hvol' as <-.
  simpl in Hbdry. rewrite list_lookup_fmap, Hmg in Hbdry.
  injection Hbdry as <-. cbn [mesh_el_group discr_unit_nodes] in Hnodes, Hto.
  destruct Hr as (faces & coords & vol_basis & resampling_mat & new_nodes
                  & nodes_before & nodes_after & Hfaces & Hcoords & Hmap
                  & Hwb & Hbasis & Hpoints & Hmat & Hresample & Hassign
                  & Hlater).
  exists vol_grp, bdry_mgrp, faces, coords, (Cbd.A data), (Cbd.b data),
    vol_basis, face_unit_nodes, resampling_mat,
    (Cbd.group_source_element_indices data),
    (Cbd.group_target_element_indices data), new_nodes, nodes_before,
    nodes_after.
  do 15 (split; [done|]).
  intros Hsame. unfold face_unit_nodes_of in Hpoints.
  rewrite Hsame in Hnodes. congruence.
Qed.

End face_claims.

(** C2, as the spec states it, fails: on the triangle with one tagged face,
    restricted with a node layout of order two while the mesh has order one,
    the batch of face 2 stores three evaluation points, and the
    [face_unit_nodes] of that face are two. *)
Lemma connection_nodes_differ_from_face_nodes :
  ∃ bdry_mesh bdry_discr connection batch_group batch mgrp faces coords A b
      bdry_unit_nodes face_unit_nodes,
    make_face_restriction triangle_discr factory_order_2 (Some "top"%string)
      = Ok (bdry_mesh, bdry_discr, connection)
    ∧ connection_groups connection !! 0%nat = Some batch_group
    ∧ batch_group !! 2%nat = Some batch
    ∧ groups triangle_mesh !! 0%nat = Some mgrp
    ∧ face_vertex_indices mgrp = Ok faces
    ∧ vertex_unit_coordinates mgrp = Ok coords
    ∧ face_affine_map faces coords 2 = Ok (A, b)
    ∧ warp_and_blend_nodes (Z.of_nat (dim mgrp) - 1) (order mgrp)
      = Ok bdry_unit_nodes
    ∧ face_unit_nodes_of A b bdry_unit_nodes = Ok face_unit_nodes
    ∧ face_unit_nodes = NdArray 2 [[1; -1]; [-1; 1]]%float
    ∧ result_unit_nodes batch = NdArray 3 [[1; 0; -1]; [-1; 0; 1]]%float
    ∧ result_unit_nodes batch ≠ face_unit_nodes.
Proof.
  do 12 eexists.
  do 11 (split; [vm_compute; reflexivity|]).
  vm_compute. intros Heq. discriminate Heq.
Qed.

(** The batch of face 2 of the triangle, restricted with the node layout of
    the order of the mesh. *)
Lemma connection_nodes_of_boundary_group_witness :
  ∃ bdry_mesh bdry_discr connection batch_group batch bdry_mgrp A b
      face_unit_nodes resampling_mat,
    make_face_restriction triangle_discr factory_order_1 (Some "top"%string)
      = Ok (bdry_mesh, bdry_discr, connection)
    ∧ connection_groups connection !! 0%nat = Some batch_group
    ∧ batch_group !! 2%nat = Some batch
    ∧ groups bdry_mesh !! 0%nat = Some bdry_mgrp
    ∧ face_affine_map [[0; 1]; [2; 0]; [1; 2]]
        (NdArray 2 [[-1; -1]; [1; -1]; [-1; 1]])%float 2 = Ok (A, b)
    ∧ factory_order_1 bdry_mgrp = unit_nodes bdry_mgrp
    ∧ face_unit_nodes_of A b (unit_nodes bdry_mgrp) = Ok face_unit_nodes
    ∧ resampling_matrix (2%nat, 1%nat) face_unit_nodes triangle_nodes_1
      = Ok resampling_mat
    ∧ result_unit_nodes batch = face_unit_nodes.
Proof.
  assert (Hmake : ∃ r, make_face_restriction triangle_discr factory_order_1
                         (Some "top"%string) = Ok r).
  { eexists. vm_compute. reflexivity. }
  destruct Hmake as [[[bdry_mesh bdry_discr] connection] Hmake].
  assert (Hgroup : ∃ g, connection_groups connection !! 0%nat = Some g).
  { revert Hmake. vm_compute. intros [= <- <- <-]. eexists. reflexivity. }
  destruct Hgroup as [batch_group Hgroup].
  assert (Hbatch : ∃ batch, batch_group !! 2%nat = Some batch).
  { revert Hmake Hgroup. vm_compute. intros [= <- <- <-] [= <-].
    eexists. reflexivity. }
  destruct Hbatch as [batch Hbatch].
  destruct (connection_nodes_of_boundary_group
              triangle_discr factory_order_1 (Some "top"%string)
              bdry_mesh bdry_discr connection 0 2 batch_group batch
              Hmake Hgroup Hbatch)
    as (vol_grp & bdry_mgrp & faces & coords & A & b & vol_basis
        & face_unit_nodes & resampling_mat & sources & targets & new_nodes
        & nodes_before & nodes_after & Hvol & Hmg & Hfaces & Hcoords & Hmap
        & _ & Hbasis & Hpoints & Hmat & _ & _ & _ & _ & _ & _ & Hsame).
  injection Hvol as <-. injection Hfaces as <-. injection Hcoords as <-.
  injection Hbasis as <-.
  assert (Hfactory : factory_order_1 bdry_mgrp = unit_nodes bdry_mgrp).
  { revert Hmake Hmg. vm_compute. intros [= <- <- <-] [= <-]. reflexivity. }
  exists bdry_mesh, bdry_discr, connection, batch_group, batch, bdry_mgrp, A, b,
    face_unit_nodes, resampling_mat.
  split; [exact Hmake|]. split; [exact Hgroup|]. split; [exact Hbatch|].
  split; [exact Hmg|]. split; [exact Hmap|]. split; [exact Hfactory|].
  split; [exact Hpoints|]. split; [exact Hmat|]. exact (Hsame Hfactory).
Defined.


(** ** What a face restriction returns *)

Lemma np_take_all {A} (l : list A) :
  np_take l (Z.of_nat <$> seq 0 (length l)) = Ok l.
Proof.
  unfold np_take.
  cut (∀ (r pre : list A),
         mapM (py_index (pre ++ r))
           (Z.of_nat <$> seq (length pre) (length r)) = Ok r).
  { intros Hcut. apply (Hcut l []). }
  induction r as [|x r IH]; intros pre; [done|].
  cbn [length seq]. rewrite fmap_cons, mapM_cons.
  rewrite (py_index_nat _ _ x) by (by rewrite lookup_app_r, Nat.sub_diag).
  simpl. specialize (IH (pre ++ [x])).
  rewrite <-app_assoc, length_app in IH. simpl in IH.
  replace (length pre + 1)%nat with (S (length pre)) in IH by lia.
  by rewrite IH.
Qed.

Lemma take_cols_all {A} (a : ndarray A) :
  Forall (λ r, length r = shape1 a) (rows a) →
  take_cols a (Z.of_nat <$> seq 0 (shape1 a)) = Ok a.
Proof.
  intros Hrows. unfold take_cols.
  assert (mapM (λ r, np_take r (Z.of_nat <$> seq 0 (shape1 a))) (rows a)
          = Ok (rows a)) as ->.
  { induction Hrows as [|r rs Hr Hrs IH]; [done|].
    rewrite mapM_cons, <-Hr, np_take_all. simpl. rewrite Hr, IH. done. }
  simpl. rewrite length_fmap, length_seq. by destruct a.
Qed.

Lemma np_take_seq (n : nat) (idx r : list Z) :
  np_take (Z.of_nat <$> seq 0 n) idx = Ok r → r = wrap_index n <$> idx.
Proof.
  unfold np_take. intros Htake.
  pose proof (mapM_Ok_lookup _ _ _ Htake) as [Hlen Hlook].
  apply list_eq_same_length with (length idx);
    [by rewrite length_fmap|done|].
  intros i x y Hi Hx Hy.
  apply list_lookup_fmap_Some in Hy as (v & -> & Hv).
  destruct (Hlook i v Hv) as (x' & Hx' & Hindex).
  rewrite Hx in Hx'. injection Hx' as <-.
  apply py_index_Ok in Hindex as (j & Hj & Hxj).
  rewrite length_fmap, length_seq in Hj.
  apply list_lookup_fmap_Some in Hxj as (j' & -> & Hj').
  apply lookup_seq in Hj' as [-> _]. simpl. unfold wrap_index. lia.
Qed.

Lemma make_vol_to_bdry_vertices_all (n : nat) :
  make_vol_to_bdry_vertices n (Z.of_nat <$> seq 0 n)
  = Ok (Z.of_nat <$> seq 0 n).
Proof.
  unfold make_vol_to_bdry_vertices, enumerate, py_set.
  cut (∀ (m k : nat) (pre : list Z),
         length pre = k →
         foldM (λ vol_to_bdry_vertices '(i, v),
                  py_alter (λ _, Z.of_nat i) vol_to_bdry_vertices v)
           (pre ++ replicate m (-1))
           (imap (λ i v, ((k + i)%nat, v)) (Z.of_nat <$> seq k m))
         = Ok (pre ++ (Z.of_nat <$> seq k m))).
  { intros Hcut. apply (Hcut n 0%nat []). done. }
  induction m as [|m IH]; intros k pre Hpre; [done|].
  cbn [seq replicate]. rewrite fmap_cons. cbn [imap foldM].
  rewrite py_alter_in_range.
  2: { rewrite length_app. simpl. lia. }
  simpl. rewrite Nat2Z.id, <-Hpre.
  rewrite alter_app_r_alt by lia. rewrite Nat.sub_diag. simpl.
  rewrite Nat.add_0_r.
  specialize (IH (S (length pre)) (pre ++ [Z.of_nat (length pre)])).
  rewrite <-!app_assoc in IH. simpl in IH.
  rewrite <-IH by (rewrite length_app; simpl; lia).
  f_equal. apply imap_ext. intros i x _. simpl. f_equal. lia.
Qed.

Section restriction_results.
Context `{Environment}.

Lemma group_restricted_faces boundary_tag btag_bit v2b k grp fm bg cd :
  group_restricted boundary_tag btag_bit v2b k grp fm bg cd →
  ∃ faces, face_vertex_indices (mesh_el_group grp) = Ok faces
           ∧ (0 < length faces)%nat
           ∧ ∀ loc, loc ∈ faces → length loc = dim (mesh_el_group grp).
Proof.
  intros (gbf & faces & _ & Hfaces & Hclass & Hdim & _).
  exists faces. split; [done|].
  unfold face_vertex_indices in Hfaces. rewrite Hclass in Hfaces.
  destruct Hdim as [Hdim|Hdim]; rewrite Hdim in Hfaces |- *; simpl in Hfaces;
    injection Hfaces as <-; (split; [simpl; lia|]); intros loc Hloc;
    repeat (apply elem_of_cons in Hloc as [->|Hloc]; [done|]);
    by apply elem_of_nil in Hloc.
Qed.

(** X12. [make_face_restriction] returns only if every group it goes through
    (those that have a facial adjacency table) is a simplex group of
    dimension two or three.  A group of another class makes it raise, and so
    does one of a dimension that [face_vertex_indices] has no table for;
    for a group of dimension one it raises as well, at the latest where the
    two vertices of the single face are assigned to the one column of the
    array made for the vertex indices. *)
Theorem face_restriction_takes_triangles_and_tetrahedra discr group_factory
    boundary_tag r (k : nat) grp fm :
  make_face_restriction discr group_factory boundary_tag = Ok r →
  discr_groups discr !! k = Some grp →
  facial_adjacency_groups (mesh discr) !! k = Some fm →
  class_of (mesh_el_group grp) = SimplexElementGroup_class
  ∧ (dim (mesh_el_group grp) = 2 ∨ dim (mesh_el_group grp) = 3)%nat.
Proof.
  destruct r as [[bm bd] conn]. intros Hmake Hgrp Hfm.
  apply make_face_restriction_Ok in Hmake as (cd & Hrestrict & _).
  apply restrict_mesh_Ok in Hrestrict as (kept & v2b & _ & _ & _ & _ & _ & _ & Hall).
  destruct (Hall k grp fm Hgrp Hfm) as (bg & _ & _ & Hr).
  destruct Hr as (gbf & faces & _ & _ & Hclass & Hdim & _). done.
Qed.

(** X13. The mesh that [make_face_restriction] returns has one group for
    each group of the discretization that has a facial adjacency table, in
    the same order; the group is a simplex group of the order of its parent,
    one dimension lower, on the warp-and-blend nodes of that dimension and
    order, with one element per (element, face) pair gathered for the
    parent; the groups carry the offsets of [Mesh.__init__]; the mesh has no
    connectivity; the discretization returned is the one on that mesh, and
    the connection leads from the given discretization to it, with one group
    of batches per group of the mesh. *)
Theorem restricted_mesh_mirrors_the_groups discr group_factory boundary_tag
    bdry_mesh bdry_discr connection :
  make_face_restriction discr group_factory boundary_tag
    = Ok (bdry_mesh, bdry_discr, connection) →
  bdry_discr = Discretization_init bdry_mesh group_factory
  ∧ from_discr connection = discr
  ∧ to_discr connection = bdry_discr
  ∧ _element_connectivity bdry_mesh = ConnFalse
  ∧ stamped_from 0 (groups bdry_mesh)
  ∧ length (groups bdry_mesh)
    = Nat.min (length (discr_groups discr))
        (length (facial_adjacency_groups (mesh discr)))
  ∧ length (connection_groups connection) = length (groups bdry_mesh)
  ∧ ∀ k grp fm,
      discr_groups discr !! k = Some grp →
      facial_adjacency_groups (mesh discr) !! k = Some fm →
      ∃ bg group_boundary_faces,
        groups bdry_mesh !! k = Some bg
        ∧ group_boundary_faces_of boundary_tag
            (boundary_tag_bit (mesh discr) boundary_tag) fm
          = Ok group_boundary_faces
        ∧ nelements bg = length group_boundary_faces
        ∧ class_of bg = SimplexElementGroup_class
        ∧ order bg = order (mesh_el_group grp)
        ∧ warp_and_blend_nodes (Z.of_nat (dim (mesh_el_group grp)) - 1)
            (order (mesh_el_group grp)) = Ok (unit_nodes bg)
        ∧ (dim bg + 1)%nat = dim (mesh_el_group grp).
Proof.
  intros Hmake.
  apply make_face_restriction_Ok in Hmake as (cd & Hrestrict & -> & Hbuild).
  apply restrict_mesh_Ok in Hrestrict
    as (kept & v2b & _ & _ & _ & Hconn & Hstamped & Hlen & Hall).
  apply build_boundary_connection_Ok in Hbuild as (Hfrom & Hto & Hlen_c & _).
  rewrite length_zip_with in Hlen.
  split; [done|]. split; [done|]. split; [done|]. split; [done|].
  split; [done|]. split; [done|]. split.
  { rewrite Hlen_c, length_zip_with. simpl. rewrite length_fmap. lia. }
  intros k grp fm Hgrp Hfm.
  destruct (Hall k grp fm Hgrp Hfm) as (bg & Hbg & _ & Hr).
  destruct Hr as (gbf & faces & Hgbf & _ & _ & _ & Hclass & Horder & Hwb
                  & Hdim & _ & Hn & _).
  by exists bg, gbf.
Qed.

(** X14. The batches of the connection.  For a group of the discretization,
    the connection has one batch per face of the reference element, in the
    order of the faces.  The batch of a face takes the pairs gathered for
    the group that name this face, in their order: its source elements are
    the elements of these pairs and its target elements are as many
    consecutive elements of the derived group, starting where the batch of
    the face before ended, each shifted by the element offset of its
    group. *)
Theorem connection_batches_number_the_faces discr group_factory boundary_tag
    bdry_mesh bdry_discr connection (k : nat) grp fm :
  make_face_restriction discr group_factory boundary_tag
    = Ok (bdry_mesh, bdry_discr, connection) →
  discr_groups discr !! k = Some grp →
  facial_adjacency_groups (mesh discr) !! k = Some fm →
  ∃ group_boundary_faces faces bg batches (vol_base bdry_base : nat),
    group_boundary_faces_of boundary_tag
      (boundary_tag_bit (mesh discr) boundary_tag) fm
      = Ok group_boundary_faces
    ∧ face_vertex_indices (mesh_el_group grp) = Ok faces
    ∧ groups bdry_mesh !! k = Some bg
    ∧ element_nr_base (mesh_el_group grp) = Some vol_base
    ∧ element_nr_base bg = Some bdry_base
    ∧ connection_groups connection !! k = Some batches
    ∧ length batches = length faces
    ∧ batch_start group_boundary_faces 0 = 0%nat
    ∧ ∀ (f : nat) batch,
        batches !! f = Some batch →
        from_group_index batch = k
        ∧ to_element_face batch = f
        ∧ from_element_indices batch
          = (λ p : Z * Z, Z.of_nat vol_base + fst p)
              <$> batch_pairs group_boundary_faces f
        ∧ to_element_indices batch
          = (λ i : nat, Z.of_nat bdry_base + Z.of_nat i)
              <$> seq (batch_start group_boundary_faces f)
                    (length (batch_pairs group_boundary_faces f))
        ∧ batch_start group_boundary_faces (S f)
          = (batch_start group_boundary_faces f
             + length (batch_pairs group_boundary_faces f))%nat.
Proof.
  intros Hmake Hgrp Hfm.
  apply make_face_restriction_Ok in Hmake as (cd & Hrestrict & -> & Hbuild).
  apply restrict_mesh_Ok in Hrestrict
    as (kept & v2b & _ & _ & _ & _ & _ & _ & Hall).
  destruct (Hall k grp fm Hgrp Hfm) as (bg & Hbg & Hbase & Hr).
  destruct (group_restricted_faces _ _ _ _ _ _ _ _ Hr)
    as (faces & Hfaces & Hnonempty & _).
  destruct Hr as (gbf & faces' & Hgbf & Hfaces' & _ & _ & _ & _ & _ & _ & _
                  & _ & [_ Hdata] & _).
  rewrite Hfaces in Hfaces'. injection Hfaces' as <-.
  apply build_boundary_connection_Ok in Hbuild as (_ & _ & _ & Hgroups).
  destruct (Hgroups k grp {| mesh_el_group := bg;
                             discr_unit_nodes := group_factory bg |} Hgrp)
    as (faces' & batches & Hfaces' & Hbatches & Hlen & Hbatch).
  { simpl. by rewrite list_lookup_fmap, Hbg. }
  rewrite Hfaces in Hfaces'. injection Hfaces' as <-.
  destruct (Hbatch 0%nat Hnonempty)
    as (data0 & batch0 & _ & _ & _ & Hfrom0 & _).
  destruct (element_nr_base (mesh_el_group grp)) as [vol_base|] eqn:Hvol;
    [|done].
  eexists gbf, faces, bg, batches, vol_base, _.
  split; [done|]. split; [done|]. split; [done|]. split; [done|].
  split; [exact Hbase|]. split; [done|]. split; [done|].
  split; [apply batch_start_0|].
  intros f batch Hf.
  assert (f < length faces)%nat as Hlt.
  { rewrite <-Hlen. by eapply lookup_lt_Some. }
  destruct (Hbatch f Hlt)
    as (data & batch' & Hkey & Hf' & _ & Hfrom & Hto & Hk & Hface).
  rewrite Hf in Hf'. injection Hf' as <-.
  destruct (Hdata f Hlt) as (data' & Hkey' & Hsrc & Htgt).
  rewrite Hkey in Hkey'. injection Hkey' as <-.
  split; [done|]. split; [done|].
  simpl in Hfrom, Hto. rewrite Hbase in Hto. simpl in Hto.
  injection Hfrom as <-. injection Hto as <-.
  rewrite Hsrc, Htgt, <-!list_fmap_compose.
  split; [done|]. split; [done|]. apply batch_start_S.
Qed.

(** X15. The vertex indices of the derived groups.  The row of a derived
    element holds the new numbers of the vertices of the face it stands for:
    for the [j]-th pair that names face [f] among the pairs of a group, row
    [batch_start f + j] of the derived group is what the renumbering array
    gives for the vertices that the element of the pair has at the positions
    that [face_vertex_indices] lists for [f]. *)
Theorem restricted_rows_are_renumbered_faces discr group_factory boundary_tag
    bdry_mesh bdry_discr connection (k : nat) grp fm :
  make_face_restriction discr group_factory boundary_tag
    = Ok (bdry_mesh, bdry_discr, connection) →
  discr_groups discr !! k = Some grp →
  facial_adjacency_groups (mesh discr) !! k = Some fm →
  ∃ kept vol_to_bdry_vertices group_boundary_faces faces bg,
    _get_face_vertices (mesh discr) boundary_tag = Ok kept
    ∧ make_vol_to_bdry_vertices (shape1 (vertices (mesh discr))) kept
      = Ok vol_to_bdry_vertices
    ∧ group_boundary_faces_of boundary_tag
        (boundary_tag_bit (mesh discr) boundary_tag) fm
      = Ok group_boundary_faces
    ∧ face_vertex_indices (mesh_el_group grp) = Ok faces
    ∧ groups bdry_mesh !! k = Some bg
    ∧ shape1 (vertex_indices bg) = dim (mesh_el_group grp)
    ∧ ∀ (f j : nat) el face,
        (f < length faces)%nat →
        batch_pairs group_boundary_faces f !! j = Some (el, face) →
        ∃ loc r,
          faces !! f = Some loc
          ∧ renumbered_face (mesh_el_group grp) vol_to_bdry_vertices loc el
            = Ok r
          ∧ rows (vertex_indices bg)
              !! (batch_start group_boundary_faces f + j)%nat = Some r.
Proof.
  intros Hmake Hgrp Hfm.
  apply make_face_restriction_Ok in Hmake as (cd & Hrestrict & _).
  apply restrict_mesh_Ok in Hrestrict
    as (kept & v2b & Hkept & Hv2b & _ & _ & _ & _ & Hall).
  destruct (Hall k grp fm Hgrp Hfm) as (bg & Hbg & _ & Hr).
  destruct Hr as (gbf & faces & Hgbf & Hfaces & _ & _ & _ & _ & _ & _
                  & Hshape & _ & [Hrows _] & _).
  exists kept, v2b, gbf, faces, bg. done.
Qed.

(** X16. A restriction to the interior faces keeps the vertices of the mesh
    and their numbers.  The derived mesh has the vertex array of the given
    mesh, and the row of a derived element holds the vertex numbers that the
    parent element has for the face, a negative one replaced by the
    position it addresses. *)
Theorem interior_restriction_keeps_the_vertex_numbers discr group_factory
    bdry_mesh bdry_discr connection :
  make_face_restriction discr group_factory None
    = Ok (bdry_mesh, bdry_discr, connection) →
  Forall (λ r, length r = nvertices (mesh discr))
    (rows (vertices (mesh discr))) →
  vertices bdry_mesh = vertices (mesh discr)
  ∧ ∀ k grp fm,
      discr_groups discr !! k = Some grp →
      facial_adjacency_groups (mesh discr) !! k = Some fm →
      ∃ group_boundary_faces faces bg,
        group_boundary_faces_of None (boundary_tag_bit (mesh discr) None) fm
          = Ok group_boundary_faces
        ∧ face_vertex_indices (mesh_el_group grp) = Ok faces
        ∧ groups bdry_mesh !! k = Some bg
        ∧ ∀ (f j : nat) el face,
            (f < length faces)%nat →
            batch_pairs group_boundary_faces f !! j = Some (el, face) →
            ∃ loc row glob_face_vertices,
              faces !! f = Some loc
              ∧ py_index (rows (vertex_indices (mesh_el_group grp))) el
                = Ok row
              ∧ np_take row loc = Ok glob_face_vertices
              ∧ rows (vertex_indices bg)
                  !! (batch_start group_boundary_faces f + j)%nat
                = Some (wrap_index (nvertices (mesh discr))
                          <$> glob_face_vertices).
Proof.
  intros Hmake Hwf.
  apply make_face_restriction_Ok in Hmake as (cd & Hrestrict & _).
  apply restrict_mesh_Ok in Hrestrict
    as (kept & v2b & Hkept & Hv2b & Hvertices & _ & _ & _ & Hall).
  injection Hkept as <-.
  change (shape1 (vertices (mesh discr))) with (nvertices (mesh discr))
    in Hv2b.
  rewrite make_vol_to_bdry_vertices_all in Hv2b. injection Hv2b as <-.
  unfold nvertices in Hvertices, Hwf.
  rewrite take_cols_all in Hvertices by done. injection Hvertices as <-.
  split; [done|].
  intros k grp fm Hgrp Hfm.
  destruct (Hall k grp fm Hgrp Hfm) as (bg & Hbg & _ & Hr).
  destruct Hr as (gbf & faces & Hgbf & Hfaces & _ & _ & _ & _ & _ & _
                  & _ & _ & [Hrows _] & _).
  exists gbf, faces, bg. split; [done|]. split; [done|]. split; [done|].
  intros f j el face Hf Hj.
  destruct (Hrows f j el face Hf Hj) as (loc & r & Hloc & Hren & Hr).
  unfold renumbered_face in Hren.
  apply bind_Ok in Hren as (row & Hrow & Hren).
  apply bind_Ok in Hren as (gface & Hgface & Hren).
  apply np_take_seq in Hren as ->.
  by exists loc, row, gface.
Qed.

(** X17. Once the boundary mesh is built, [make_face_restriction] returns
    exactly when the connection can be built, which is when every group of
    the discretization that has a derived group carries an element offset
    and the group factory gives the derived group unit nodes of the
    dimension of that group. *)
Theorem face_restriction_returns_iff discr group_factory boundary_tag
    bdry_mesh cd :
  restrict_mesh discr boundary_tag = Ok (bdry_mesh, cd) →
  is_Ok (make_face_restriction discr group_factory boundary_tag) ↔
  ∀ k grp bg,
    discr_groups discr !! k = Some grp →
    groups bdry_mesh !! k = Some bg →
    is_Some (element_nr_base (mesh_el_group grp))
    ∧ shape0 (group_factory bg) = dim bg.
Proof.
  intros Hrestrict.
  pose proof (restrict_mesh_resampled _ _ _ _ Hrestrict) as Hdata.
  pose proof (restrict_mesh_Ok _ _ _ _ Hrestrict)
    as (kept & v2b & _ & _ & _ & _ & _ & Hlen & Hall).
  assert (Hfm : ∀ k bg, groups bdry_mesh !! k = Some bg →
                  is_Some (facial_adjacency_groups (mesh discr) !! k)).
  { intros k bg Hbg%lookup_lt_Some. apply lookup_lt_is_Some.
    rewrite Hlen, length_zip_with in Hbg. lia. }
  assert (Hshape : ∀ k grp fm bg faces f data,
            discr_groups discr !! k = Some grp →
            group_restricted boundary_tag
              (boundary_tag_bit (mesh discr) boundary_tag) v2b k grp fm bg cd →
            face_vertex_indices (mesh_el_group grp) = Ok faces →
            (f < length faces)%nat →
            cd !! (k, f) = Some data →
            shape0 (Cbd.A data) = length (Cbd.b data)
            ∧ (shape1 (Cbd.A data) + 1)%nat = (dim bg + 1)%nat).
  { intros k grp fm bg faces f data Hgrp Hr Hfaces Hf Hkey.
    destruct (Hdata k f data Hkey)
      as (grp' & bg' & points & Hgrp' & _ & Hresampled).
    destruct Hresampled
      as (faces' & coords & _ & _ & _ & _ & _ & Hfaces' & Hcoords & Hmap & _).
    rewrite Hgrp in Hgrp'. injection Hgrp' as <-.
    rewrite Hfaces in Hfaces'. injection Hfaces' as <-.
    destruct (face_affine_map_shape _ _ _ _ _ _ Hfaces Hcoords Hmap)
      as (loc & Hloc & HA & Hb).
    destruct (group_restricted_faces _ _ _ _ _ _ _ _ Hr)
      as (faces' & Hfaces' & _ & Hlocs).
    rewrite Hfaces in Hfaces'. injection Hfaces' as <-.
    specialize (Hlocs loc (list_elem_of_lookup_2 _ _ _ Hloc)).
    destruct Hr as (_ & _ & _ & _ & _ & Hdim & _ & _ & _ & Hbg & _).
    split; [done|]. lia. }
  unfold make_face_restriction. rewrite Hrestrict. simpl. split.
  - intros [r Hr] k grp bg Hgrp Hbg.
    apply bind_Ok in Hr as (conn & Hbuild & _).
    apply build_boundary_connection_Ok in Hbuild as (_ & _ & _ & Hgroups).
    destruct (Hgroups k grp {| mesh_el_group := bg;
                               discr_unit_nodes := group_factory bg |} Hgrp)
      as (faces & batches & Hfaces & _ & _ & Hbatch).
    { simpl. by rewrite list_lookup_fmap, Hbg. }
    destruct (Hfm k bg Hbg) as [fm Hfmk].
    destruct (Hall k grp fm Hgrp Hfmk) as (bg' & Hbg' & _ & Hrg).
    rewrite Hbg in Hbg'. injection Hbg' as <-.
    destruct (group_restricted_faces _ _ _ _ _ _ _ _ Hrg)
      as (faces' & Hfaces' & Hnonempty & _).
    rewrite Hfaces in Hfaces'. injection Hfaces' as <-.
    destruct (Hbatch 0%nat Hnonempty)
      as (data & batch & Hkey & _ & Hnodes & Hfrom & _).
    split.
    { destruct (element_nr_base (mesh_el_group grp)); [by eexists|done]. }
    destruct (Hshape k grp fm bg faces 0%nat data Hgrp Hrg Hfaces Hnonempty
                Hkey) as [Hb HA].
    assert (is_Ok (affine_apply (Cbd.A data) (Cbd.b data)
                     (to_01 (group_factory bg)))) as Hok by (by eexists).
    apply affine_apply_is_Ok in Hok; [|done].
    unfold to_01, shape0 in Hok. simpl in Hok. rewrite length_fmap in Hok.
    unfold shape0. lia.
  - intros Hcond.
    destruct (build_boundary_connection_total discr
                (Discretization_init bdry_mesh group_factory) cd)
      as [conn Hconn]; [|rewrite Hconn; apply is_Ok_Ok].
    intros k grp bdry_grp Hgrp Hbdry. simpl in Hbdry.
    apply list_lookup_fmap_Some in Hbdry as (bg & -> & Hbg).
    destruct (Hcond k grp bg Hgrp Hbg) as [Hvol Hnodes].
    destruct (Hfm k bg Hbg) as [fm Hfmk].
    destruct (Hall k grp fm Hgrp Hfmk) as (bg' & Hbg' & Hbase & Hrg).
    rewrite Hbg in Hbg'. injection Hbg' as <-.
    destruct (group_restricted_faces _ _ _ _ _ _ _ _ Hrg)
      as (faces & Hfaces & _ & _).
    exists faces. split; [done|]. split; [done|]. simpl.
    split; [by rewrite Hbase|].
    intros f Hf.
    pose proof Hrg as (gbf & faces' & _ & Hfaces' & _ & _ & _ & _ & _ & _ & _
                       & _ & [_ Hbatches] & _).
    rewrite Hfaces in Hfaces'. injection Hfaces' as <-.
    destruct (Hbatches f Hf) as (data & Hkey & _).
    exists data. split; [done|].
    destruct (Hshape k grp fm bg faces f data Hgrp Hrg Hfaces Hf Hkey)
      as [Hb HA].
    apply affine_apply_is_Ok; [done|].
    unfold to_01, shape0. simpl. rewrite length_fmap.
    unfold shape0 in Hnodes. lia.
Qed.

(** X18. The elements of a derived group that stand for no face.  The
    batches assign the rows of the pairs whose face is a face of the
    reference element, as many rows as there are such pairs, from the
    first row on.  A pair that names no face of the reference element is
    taken by no batch: the derived group still has an element for it, and
    the rows after those of the batches hold what [np.empty] gave.  When
    every pair names a face, every row is assigned. *)
Theorem elements_without_a_face_stay_unassigned discr group_factory
    boundary_tag bdry_mesh bdry_discr connection (k : nat) grp fm :
  make_face_restriction discr group_factory boundary_tag
    = Ok (bdry_mesh, bdry_discr, connection) →
  discr_groups discr !! k = Some grp →
  facial_adjacency_groups (mesh discr) !! k = Some fm →
  ∃ group_boundary_faces faces bg,
    group_boundary_faces_of boundary_tag
      (boundary_tag_bit (mesh discr) boundary_tag) fm
      = Ok group_boundary_faces
    ∧ face_vertex_indices (mesh_el_group grp) = Ok faces
    ∧ groups bdry_mesh !! k = Some bg
    ∧ nelements bg = length group_boundary_faces
    ∧ (Forall (λ p : Z * Z, 0 ≤ snd p < Z.of_nat (length faces))
         group_boundary_faces →
       batch_start group_boundary_faces (length faces)
       = length group_boundary_faces)
    ∧ ∀ i : nat,
        (batch_start group_boundary_faces (length faces) ≤ i
         < length group_boundary_faces)%nat →
        rows (vertex_indices bg) !! i
        = Some ((λ j, uninitialized i j)
                  <$> seq 0 (dim (mesh_el_group grp))).
Proof.
  intros Hmake Hgrp Hfm.
  apply make_face_restriction_Ok in Hmake as (cd & Hrestrict & _).
  apply restrict_mesh_Ok in Hrestrict
    as (kept & v2b & _ & _ & _ & _ & _ & _ & Hall).
  destruct (Hall k grp fm Hgrp Hfm) as (bg & Hbg & _ & Hr).
  destruct Hr as (gbf & faces & Hgbf & Hfaces & _ & _ & _ & _ & _ & _
                  & _ & Hn & _ & Hrest).
  exists gbf, faces, bg. split; [done|]. split; [done|]. split; [done|].
  split; [done|]. split.
  { intros Hvalid. unfold batch_start. by rewrite filter_all. }
  intros i [Hlo Hhi]. rewrite (Hrest i Hlo). unfold np_empty. simpl.
  rewrite list_lookup_fmap, lookup_seq_lt by done. done.
Qed.

End restriction_results.

Lemma face_restriction_takes_triangles_and_tetrahedra_witness :
  ∃ grp,
    discr_groups triangle_discr !! 0%nat = Some grp
    ∧ class_of (mesh_el_group grp) = SimplexElementGroup_class
    ∧ (dim (mesh_el_group grp) = 2 ∨ dim (mesh_el_group grp) = 3)%nat.
Proof.
  assert (Hmake : ∃ r, make_face_restriction triangle_discr factory_order_1
                         (Some "top"%string) = Ok r).
  { eexists. vm_compute. reflexivity. }
  destruct Hmake as [r Hmake].
  eexists. split; [reflexivity|].
  exact (face_restriction_takes_triangles_and_tetrahedra
           triangle_discr factory_order_1 (Some "top"%string) r 0 _
           triangle_adjacency Hmake eq_refl eq_refl).
Defined.

Lemma restricted_mesh_mirrors_the_groups_witness :
  ∃ bdry_mesh bdry_discr connection,
    make_face_restriction triangle_discr factory_order_1 (Some "top"%string)
      = Ok (bdry_mesh, bdry_discr, connection)
    ∧ bdry_discr = Discretization_init bdry_mesh factory_order_1
    ∧ _element_connectivity bdry_mesh = ConnFalse
    ∧ length (groups bdry_mesh) = 1%nat
    ∧ length (connection_groups connection) = length (groups bdry_mesh).
Proof.
  assert (Hmake : ∃ r, make_face_restriction triangle_discr factory_order_1
                         (Some "top"%string) = Ok r).
  { eexists. vm_compute. reflexivity. }
  destruct Hmake as [[[bdry_mesh bdry_discr] connection] Hmake].
  destruct (restricted_mesh_mirrors_the_groups
              triangle_discr factory_order_1 (Some "top"%string)
              bdry_mesh bdry_discr connection Hmake)
    as (Hdiscr & _ & _ & Hconn & _ & Hlen & Hlen_c & _).
  exists bdry_mesh, bdry_discr, connection.
  split; [exact Hmake|]. split; [exact Hdiscr|]. split; [exact Hconn|].
  split; [exact Hlen | exact Hlen_c].
Defined.

Lemma connection_batches_number_the_faces_witness :
  ∃ bdry_mesh bdry_discr connection batches,
    make_face_restriction square_interior_discr factory_order_1 None
      = Ok (bdry_mesh, bdry_discr, connection)
    ∧ connection_groups connection !! 0%nat = Some batches
    ∧ length batches = 3%nat
    ∧ ∀ (f : nat) batch,
        batches !! f = Some batch →
        from_group_index batch = 0%nat
        ∧ to_element_face batch = f
        ∧ from_element_indices batch
          = (λ p : Z * Z, Z.of_nat 0 + fst p) <$> batch_pairs square_interior_pairs f
        ∧ to_element_indices batch
          = (λ i : nat, Z.of_nat 0 + Z.of_nat i)
              <$> seq (batch_start square_interior_pairs f)
                    (length (batch_pairs square_interior_pairs f)).
Proof.
  assert (Hmake : ∃ r, make_face_restriction square_interior_discr
                         factory_order_1 None = Ok r).
  { eexists. vm_compute. reflexivity. }
  destruct Hmake as [[[bdry_mesh bdry_discr] connection] Hmake].
  destruct (connection_batches_number_the_faces
              square_interior_discr factory_order_1 None
              bdry_mesh bdry_discr connection 0
              {| mesh_el_group :=
                   {| class_of := SimplexElementGroup_class; order := 1;
                      vertex_indices := NdArray 3 [[0; 1; 2]; [1; 3; 2]];
                      nodes := [[[0; 1; 0]; [1; 1; 0]];
                                [[0; 0; 1]; [0; 1; 1]]]%float;
                      unit_nodes := triangle_nodes_1;
                      element_nr_base := Some 0%nat;
                      node_nr_base := Some 0%nat |};
                 discr_unit_nodes := triangle_nodes_1 |}
              square_interior_adjacency Hmake eq_refl eq_refl)
    as (gbf & faces & bg & batches & vol_base & bdry_base & Hgbf & Hfaces
        & Hbg & Hvol & Hbdry & Hbatches & Hlen & _ & Hall).
  injection Hgbf as <-. injection Hfaces as <-. injection Hvol as <-.
  assert (bdry_base = 0%nat) as ->.
  { pose proof Hmake as (cd & Hrestrict & _)%make_face_restriction_Ok.
    apply restrict_mesh_Ok in Hrestrict
      as (_ & _ & _ & _ & _ & _ & Hstamped & _).
    destruct (groups bdry_mesh) as [|g gs]; [discriminate Hbg|].
    injection Hbg as ->. destruct Hstamped as [Hzero _].
    rewrite Hzero in Hbdry. by injection Hbdry. }
  exists bdry_mesh, bdry_discr, connection, batches.
  split; [exact Hmake|]. split; [exact Hbatches|]. split; [exact Hlen|].
  intros f batch Hf.
  destruct (Hall f batch Hf) as (H1 & H2 & H3 & H4 & _).
  split; [exact H1|]. split; [exact H2|]. split; [exact H3 | exact H4].
Defined.

Lemma restricted_rows_are_renumbered_faces_witness :
  ∃ bdry_mesh bdry_discr connection bg,
    make_face_restriction square_interior_discr factory_order_1 None
      = Ok (bdry_mesh, bdry_discr, connection)
    ∧ groups bdry_mesh !! 0%nat = Some bg
    ∧ shape1 (vertex_indices bg) = 2%nat
    ∧ ∀ (f j : nat) el face,
        (f < 3)%nat →
        batch_pairs square_interior_pairs f !! j = Some (el, face) →
        ∃ loc r,
          [[0; 1]; [2; 0]; [1; 2]] !! f = Some loc
          ∧ renumbered_face
              {| class_of := SimplexElementGroup_class; order := 1;
                 vertex_indices := NdArray 3 [[0; 1; 2]; [1; 3; 2]];
                 nodes := [[[0; 1; 0]; [1; 1; 0]];
                           [[0; 0; 1]; [0; 1; 1]]]%float;
                 unit_nodes := triangle_nodes_1;
                 element_nr_base := Some 0%nat;
                 node_nr_base := Some 0%nat |}
              [0; 1; 2; 3] loc el = Ok r
          ∧ rows (vertex_indices bg)
              !! (batch_start square_interior_pairs f + j)%nat = Some r.
Proof.
  assert (Hmake : ∃ r, make_face_restriction square_interior_discr
                         factory_order_1 None = Ok r).
  { eexists. vm_compute. reflexivity. }
  destruct Hmake as [[[bdry_mesh bdry_discr] connection] Hmake].
  destruct (restricted_rows_are_renumbered_faces
              square_interior_discr factory_order_1 None
              bdry_mesh bdry_discr connection 0
              {| mesh_el_group :=
                   {| class_of := SimplexElementGroup_class; order := 1;
                      vertex_indices := NdArray 3 [[0; 1; 2]; [1; 3; 2]];
                      nodes := [[[0; 1; 0]; [1; 1; 0]];
                                [[0; 0; 1]; [0; 1; 1]]]%float;
                      unit_nodes := triangle_nodes_1;
                      element_nr_base := Some 0%nat;
                      node_nr_base := Some 0%nat |};
                 discr_unit_nodes := triangle_nodes_1 |}
              square_interior_adjacency Hmake eq_refl eq_refl)
    as (kept & v2b & gbf & faces & bg & Hkept & Hv2b & Hgbf & Hfaces & Hbg
        & Hshape & Hrows).
  injection Hkept as <-. vm_compute in Hv2b. injection Hv2b as <-.
  injection Hgbf as <-. injection Hfaces as <-.
  exists bdry_mesh, bdry_discr, connection, bg.
  split; [exact Hmake|]. split; [exact Hbg|].
  split; [exact Hshape | exact Hrows].
Defined.

Lemma interior_restriction_keeps_the_vertex_numbers_witness :
  ∃ bdry_mesh bdry_discr connection,
    make_face_restriction square_interior_discr factory_order_1 None
      = Ok (bdry_mesh, bdry_discr, connection)
    ∧ vertices bdry_mesh = square_vertices.
Proof.
  assert (Hmake : ∃ r, make_face_restriction square_interior_discr
                         factory_order_1 None = Ok r).
  { eexists. vm_compute. reflexivity. }
  destruct Hmake as [[[bdry_mesh bdry_discr] connection] Hmake].
  destruct (interior_restriction_keeps_the_vertex_numbers
              square_interior_discr factory_order_1
              bdry_mesh bdry_discr connection Hmake) as [Hvertices _].
  { repeat constructor. }
  exists bdry_mesh, bdry_discr, connection.
  split; [exact Hmake | exact Hvertices].
Defined.

Lemma face_restriction_returns_iff_witness :
  ∃ bdry_mesh cd,
    restrict_mesh triangle_discr (Some "top"%string) = Ok (bdry_mesh, cd)
    ∧ (is_Ok (make_face_restriction triangle_discr factory_order_2
                (Some "top"%string)) ↔
       ∀ k grp bg,
         discr_groups triangle_discr !! k = Some grp →
         groups bdry_mesh !! k = Some bg →
         is_Some (element_nr_base (mesh_el_group grp))
         ∧ shape0 (factory_order_2 bg) = dim bg).
Proof.
  assert (Hrestrict : ∃ r, restrict_mesh triangle_discr (Some "top"%string)
                             = Ok r).
  { eexists. vm_compute. reflexivity. }
  destruct Hrestrict as [[bdry_mesh cd] Hrestrict].
  exists bdry_mesh, cd. split; [exact Hrestrict|].
  exact (face_restriction_returns_iff triangle_discr factory_order_2
           (Some "top"%string) bdry_mesh cd Hrestrict).
Defined.

Lemma elements_without_a_face_stay_unassigned_witness :
  ∃ bdry_mesh bdry_discr connection bg,
    make_face_restriction stray_face_discr factory_order_1
      (Some "top"%string) = Ok (bdry_mesh, bdry_discr, connection)
    ∧ groups bdry_mesh !! 0%nat = Some bg
    ∧ nelements bg = 2%nat
    ∧ batch_start stray_face_pairs 3 = 1%nat
    ∧ rows (vertex_indices bg) !! 1%nat
      = Some ((λ j, uninitialized 1 j) <$> seq 0 2).
Proof.
  assert (Hmake : ∃ r, make_face_restriction stray_face_discr factory_order_1
                         (Some "top"%string) = Ok r).
  { eexists. vm_compute. reflexivity. }
  destruct Hmake as [[[bdry_mesh bdry_discr] connection] Hmake].
  destruct (elements_without_a_face_stay_unassigned
              stray_face_discr factory_order_1 (Some "top"%string)
              bdry_mesh bdry_discr connection 0 _ stray_face_adjacency
              Hmake eq_refl eq_refl)
    as (gbf & faces & bg & Hgbf & Hfaces & Hbg & Hn & _ & Hrows).
  vm_compute in Hgbf. injection Hgbf as <-. injection Hfaces as <-.
  exists bdry_mesh, bdry_discr, connection, bg.
  split; [exact Hmake|]. split; [exact Hbg|]. split; [exact Hn|].
  split; [reflexivity|].
  apply (Hrows 1%nat). split; [vm_compute; lia | simpl; lia].
Defined.

(** ** The pairs gathered for a group *)

(** X19. The (element, face) pairs that [make_face_restriction] gathers for
    a group.  With a boundary tag they are the places of the boundary entry
    of the table of the group whose negated neighbor has the bit of the tag;
    without one they are all places of all entries of the table that have a
    neighboring group. *)
Theorem gathered_faces_are_the_flagged_ones (boundary_tag : option boundary_tag)
    (btag_bit : Z) (fagrp_map : fagrp_map)
    (group_boundary_faces : list (Z * Z)) (el face : Z) :
  group_boundary_faces_of boundary_tag btag_bit fagrp_map
    = Ok group_boundary_faces →
  (el, face) ∈ group_boundary_faces ↔
  match boundary_tag with
  | Some _ =>
      ∃ bdry_grp k nb,
        fagrp_get fagrp_map None = Some bdry_grp
        ∧ Fa.elements bdry_grp !! k = Some el
        ∧ Fa.element_faces bdry_grp !! k = Some face
        ∧ Fa.neighbors bdry_grp !! k = Some nb
        ∧ Z.land (- nb) btag_bit ≠ 0
  | None =>
      ∃ key fagrp (k : nat),
        (key, fagrp) ∈ fagrp_map
        ∧ is_Some (Fa.ineighbor_group fagrp)
        ∧ Fa.elements fagrp !! k = Some el
        ∧ Fa.element_faces fagrp !! k = Some face
  end.
Proof.
  destruct boundary_tag as [tag|]; intros Hgbf.
  - split; [by apply (group_boundary_faces_of_tagged tag)|].
    intros (bdry_grp & k & nb & Hget & Hel & Hface & Hnb & Hbit).
    unfold group_boundary_faces_of in Hgbf. rewrite Hget in Hgbf.
    apply bind_Ok in Hgbf as (els & Hels & Hgbf).
    apply bind_Ok in Hgbf as (faces & Hfaces & [= <-]).
    unfold np_mask in Hels, Hfaces.
    case_decide; [|done]. case_decide; [|done].
    injection Hels as <-. injection Hfaces as <-.
    rewrite zip_masked. apply list_elem_of_fmap.
    exists ((el, face), true). split; [done|].
    apply list_elem_of_filter. split; [done|].
    apply list_elem_of_lookup. exists k.
    apply lookup_zip_with_Some. exists (el, face), true.
    split; [done|]. split.
    + apply lookup_zip_with_Some. by exists el, face.
    + apply face_relevant_flags_lookup. by exists nb.
  - injection Hgbf as <-. rewrite elem_of_concat. split.
    + intros (l & Hl & Hin).
      apply list_elem_of_fmap in Hl as ([key fagrp] & -> & Hentry).
      destruct (Fa.ineighbor_group fagrp) as [nbgrp|] eqn:Hnb;
        [|by apply elem_of_nil in Hin].
      apply list_elem_of_lookup in Hin as [k Hk].
      apply lookup_zip_with_Some in Hk as (? & ? & [= <- <-] & Hel & Hface).
      exists key, fagrp, k. rewrite Hnb. by repeat split.
    + intros (key & fagrp & k & Hentry & [nbgrp Hnb] & Hel & Hface).
      exists (zip (Fa.elements fagrp) (Fa.element_faces fagrp)). split.
      * apply list_elem_of_fmap. exists (key, fagrp). by rewrite Hnb.
      * apply list_elem_of_lookup. exists k.
        apply lookup_zip_with_Some. by exists el, face.
Qed.

Lemma gathered_faces_are_the_flagged_ones_witness :
  (0, 2) ∈ [(0, 2)] ↔
  ∃ bdry_grp k nb,
    fagrp_get triangle_adjacency None = Some bdry_grp
    ∧ Fa.elements bdry_grp !! k = Some 0
    ∧ Fa.element_faces bdry_grp !! k = Some 2
    ∧ Fa.neighbors bdry_grp !! k = Some nb
    ∧ Z.land (- nb) 2 ≠ 0.
Proof.
  apply (gathered_faces_are_the_flagged_ones (Some "top"%string) 2
           triangle_adjacency [(0, 2)] 0 2).
  vm_compute. reflexivity.
Defined.

(** ** The renumbering and the vertex array *)

Lemma fmap_snd_enumerate {A} (l : list A) : snd <$> enumerate l = l.
Proof.
  apply list_eq. intros i. unfold enumerate.
  rewrite list_lookup_fmap, list_lookup_imap.
  by destruct (l !! i).
Qed.

(** The renumbering array inverts the list of kept vertices, and holds [-1]
    at every other place. *)
Lemma make_vol_to_bdry_vertices_inverse (n : nat) (kept v2b : list Z) :
  make_vol_to_bdry_vertices n kept = Ok v2b →
  NoDup kept → Forall (λ v, 0 ≤ v) kept →
  (∀ (i : nat) v, kept !! i = Some v →
     v < Z.of_nat n ∧ v2b !! Z.to_nat v = Some (Z.of_nat i))
  ∧ ∀ j : nat, (j < n)%nat → Z.of_nat j ∉ kept → v2b !! j = Some (-1).
Proof.
  intros Hmake Hnodup Hnonneg. unfold make_vol_to_bdry_vertices in Hmake.
  pose (P := λ (done : list (nat * Z)) (l : list Z),
         length l = n
         ∧ (∀ p, p ∈ done →
              snd p < Z.of_nat n
              ∧ l !! Z.to_nat (snd p) = Some (Z.of_nat (fst p)))
         ∧ ∀ j : nat, (j < n)%nat → Z.of_nat j ∉ snd <$> done →
             l !! j = Some (-1)).
  assert (HP : P (enumerate kept) v2b).
  { apply (foldM_invariant_split P _ _ _ _ Hmake).
    - split; [apply length_replicate|]. split.
      + by intros p ?%elem_of_nil.
      + intros j Hj _. by apply lookup_replicate.
    - intros done [i v] rest l l' Hsplit (Hlen & Hdone & Hrest) Hstep.
      assert (Hv : 0 ≤ v).
      { rewrite Forall_forall in Hnonneg. apply Hnonneg.
        rewrite <-(fmap_snd_enumerate kept), Hsplit.
        apply list_elem_of_fmap. exists (i, v). split; [done|].
        apply elem_of_app. right. left. }
      assert (Hfresh : v ∉ snd <$> done).
      { rewrite <-(fmap_snd_enumerate kept), Hsplit, fmap_app, fmap_cons
          in Hnodup.
        apply NoDup_app in Hnodup as (_ & Hdisj & _).
        intros Hin. apply (Hdisj v Hin). left. }
      unfold py_set in Hstep.
      apply py_alter_Ok in Hstep as (j & Hj & Hjlt & ->).
      destruct (decide (v < 0)); [lia|].
      assert (j = Z.to_nat v) as -> by lia.
      split; [by rewrite length_alter|]. split.
      + intros p [Hp | ->%list_elem_of_singleton]%elem_of_app.
        * destruct (Hdone p Hp) as [Hlt Hlook]. split; [done|].
          rewrite list_lookup_alter_ne; [done|].
          intros Heq. apply Hfresh. apply list_elem_of_fmap.
          exists p. split; [|done].
          assert (0 ≤ snd p).
          { rewrite Forall_forall in Hnonneg. apply Hnonneg.
            rewrite <-(fmap_snd_enumerate kept), Hsplit.
            apply list_elem_of_fmap. exists p. split; [done|].
            apply elem_of_app. by left. }
          lia.
        * simpl. split; [lia|]. rewrite list_lookup_alter_eq.
          destruct (lookup_lt_is_Some_2 l (Z.to_nat v)) as [x ->]; [lia|].
          done.
      + intros j Hj' Hnotin. rewrite fmap_app in Hnotin. simpl in Hnotin.
        rewrite list_lookup_alter_ne.
        * apply Hrest; [done|]. intros Hin. apply Hnotin.
          apply elem_of_app. by left.
        * intros <-. apply Hnotin. apply elem_of_app. right.
          rewrite Z2Nat.id by lia. left. }
  destruct HP as (_ & Hin & Hout). split.
  - intros i v Hiv. apply (Hin (i, v)). by apply elem_of_enumerate.
  - intros j Hj Hnotin. apply Hout; [done|]. by rewrite fmap_snd_enumerate.
Qed.

Lemma StronglySorted_lt_NoDup (l : list Z) : StronglySorted Z.lt l → NoDup l.
Proof.
  induction 1 as [|x l Hl IH Hx]; constructor; [|done].
  intros Hin. rewrite Forall_forall in Hx. specialize (Hx x Hin). lia.
Qed.

Section renumbering.
Context `{Environment}.

(** X20. The vertex array of the derived mesh follows the renumbering.
    When no kept vertex number is negative, the renumbering array sends the
    [i]-th kept vertex to [i] and every other vertex to [-1], and vertex
    [i] of the derived mesh has the coordinates of the [i]-th kept vertex
    of the given mesh. *)
Theorem restricted_vertices_follow_the_renumbering discr group_factory
    boundary_tag bdry_mesh bdry_discr connection (kept : list Z) :
  make_face_restriction discr group_factory boundary_tag
    = Ok (bdry_mesh, bdry_discr, connection) →
  _get_face_vertices (mesh discr) boundary_tag = Ok kept →
  Forall (λ v, 0 ≤ v) kept →
  ∃ vol_to_bdry_vertices,
    make_vol_to_bdry_vertices (shape1 (vertices (mesh discr))) kept
      = Ok vol_to_bdry_vertices
    ∧ length vol_to_bdry_vertices = nvertices (mesh discr)
    ∧ (∀ j : nat, (j < nvertices (mesh discr))%nat → Z.of_nat j ∉ kept →
         vol_to_bdry_vertices !! j = Some (-1))
    ∧ ∀ (i : nat) v,
        kept !! i = Some v →
        py_index vol_to_bdry_vertices v = Ok (Z.of_nat i)
        ∧ ∀ (axis : nat) r r',
            rows (vertices (mesh discr)) !! axis = Some r →
            rows (vertices bdry_mesh) !! axis = Some r' →
            ∃ x, r' !! i = Some x ∧ r !! Z.to_nat v = Some x.
Proof.
  intros Hmake Hkept Hnonneg.
  apply make_face_restriction_Ok in Hmake as (cd & Hrestrict & _).
  apply restrict_mesh_Ok in Hrestrict
    as (kept' & v2b & Hkept' & Hv2b & Hvertices & _).
  rewrite Hkept in Hkept'. injection Hkept' as <-.
  assert (Hsorted : StronglySorted Z.lt kept).
  { unfold _get_face_vertices in Hkept. destruct boundary_tag as [tag|].
    - apply bind_Ok in Hkept as (s & _ & [= <-]).
      apply sorted_elements_increasing.
    - injection Hkept as <-. apply seq_increasing. }
  destruct (make_vol_to_bdry_vertices_inverse _ _ _ Hv2b
              (StronglySorted_lt_NoDup _ Hsorted) Hnonneg) as [Hin Hout].
  destruct (make_vol_to_bdry_vertices_spec _ _ _ Hv2b) as (Hlen & _).
  exists v2b. split; [done|]. split; [done|]. split; [exact Hout|].
  intros i v Hiv. destruct (Hin i v Hiv) as [Hlt Hlook].
  assert (Hv : 0 ≤ v).
  { rewrite Forall_forall in Hnonneg. apply Hnonneg.
    by eapply list_elem_of_lookup_2. }
  split.
  { apply py_index_Ok. exists (Z.to_nat v). split; [|done].
    destruct (decide (v < 0)); lia. }
  intros axis r r' Hr Hr'.
  unfold take_cols in Hvertices.
  apply bind_Ok in Hvertices as (cols & Hcols & [= Heq]).
  rewrite <-Heq in Hr'. simpl in Hr'.
  apply mapM_Ok_lookup in Hcols as [_ Hcols].
  destruct (Hcols axis r Hr) as (r'' & Hr'' & Htake).
  rewrite Hr' in Hr''. injection Hr'' as <-.
  unfold np_take in Htake. apply mapM_Ok_lookup in Htake as [_ Htake].
  destruct (Htake i v Hiv) as (x & Hx & Hindex).
  exists x. split; [done|].
  apply py_index_Ok in Hindex as (j & Hj & Hxj).
  destruct (decide (v < 0)); [lia|].
  by replace (Z.to_nat v) with j by lia.
Qed.

End renumbering.

Lemma restricted_vertices_follow_the_renumbering_witness :
  ∃ bdry_mesh bdry_discr connection vol_to_bdry_vertices,
    make_face_restriction triangle_discr factory_order_1 (Some "top"%string)
      = Ok (bdry_mesh, bdry_discr, connection)
    ∧ make_vol_to_bdry_vertices (shape1 (vertices (mesh triangle_discr)))
        [0; 1; 2] = Ok vol_to_bdry_vertices
    ∧ ∀ (i : nat) v,
        [0; 1; 2] !! i = Some v →
        py_index vol_to_bdry_vertices v = Ok (Z.of_nat i)
        ∧ ∀ (axis : nat) r r',
            rows (vertices (mesh triangle_discr)) !! axis = Some r →
            rows (vertices bdry_mesh) !! axis = Some r' →
            ∃ x, r' !! i = Some x ∧ r !! Z.to_nat v = Some x.
Proof.
  assert (Hmake : ∃ r, make_face_restriction triangle_discr factory_order_1
                         (Some "top"%string) = Ok r).
  { eexists. vm_compute. reflexivity. }
  destruct Hmake as [[[bdry_mesh bdry_discr] connection] Hmake].
  destruct (restricted_vertices_follow_the_renumbering
              triangle_discr factory_order_1 (Some "top"%string)
              bdry_mesh bdry_discr connection [0; 1; 2] Hmake)
    as (v2b & Hv2b & _ & _ & Hall).
  { vm_compute. reflexivity. }
  { repeat constructor; lia. }
  exists bdry_mesh, bdry_discr, connection, v2b.
  split; [exact Hmake|]. split; [exact Hv2b | exact Hall].
Defined.

(** ** The tables of the reference simplex *)

Section tables.
Context `{Environment}.

(** X21. The two tables of a simplex group fit each other.  Whenever
    [face_vertex_indices] returns, so does [vertex_unit_coordinates], with
    one row of [dim] coordinates for each of the [dim + 1] vertices; every
    face lists vertices of the element, each at most once.  In dimension two
    and three there are [dim + 1] faces of [dim] vertices, and each vertex
    is left out by exactly one face; in dimension one the single face lists
    both vertices of the element. *)
Theorem face_tables_fit_the_reference_simplex (g : MeshElementGroup)
    (faces : list (list Z)) :
  face_vertex_indices g = Ok faces →
  ∃ coords,
    vertex_unit_coordinates g = Ok coords
    ∧ shape0 coords = (dim g + 1)%nat
    ∧ shape1 coords = dim g
    ∧ Forall (λ r, length r = dim g) (rows coords)
    ∧ Forall (λ loc, NoDup loc
                     ∧ Forall (λ c, 0 ≤ c < Z.of_nat (dim g + 1)) loc) faces
    ∧ ((dim g = 2 ∨ dim g = 3)%nat →
       length faces = (dim g + 1)%nat
       ∧ Forall (λ loc, length loc = dim g) faces
       ∧ ∀ c, 0 ≤ c < Z.of_nat (dim g + 1) →
           length (filter (λ loc, c ∉ loc) faces) = 1%nat)
    ∧ (dim g = 1%nat → faces = [[0; 1]]).
Proof.
  unfold face_vertex_indices, vertex_unit_coordinates.
  destruct (class_of g); [done|].
  destruct (decide (dim g = 1%nat)) as [->|_].
  { intros [= <-]. eexists. split; [done|].
    split; [done|]. split; [done|]. split; [by repeat constructor|].
    split.
    { repeat (apply Forall_cons; split;
              [split; [apply (bool_decide_unpack _); vm_compute; exact I
                      |repeat constructor; lia] |]).
      by apply Forall_nil. }
    split; [intros [|]; lia|]. done. }
  destruct (decide (dim g = 2%nat)) as [->|_].
  { intros [= <-]. eexists. split; [done|].
    split; [done|]. split; [done|]. split; [by repeat constructor|].
    split.
    { repeat (apply Forall_cons; split;
              [split; [apply (bool_decide_unpack _); vm_compute; exact I
                      |repeat constructor; lia] |]).
      by apply Forall_nil. }
    split; [|done]. intros _. split; [done|].
    split; [by repeat constructor|].
    intros c Hc.
    assert (c = 0 ∨ c = 1 ∨ c = 2) as [->|[->| ->]] by lia;
      vm_compute; reflexivity. }
  destruct (decide (dim g = 3%nat)) as [->|_]; [|done].
  intros [= <-]. eexists. split; [done|].
  split; [done|]. split; [done|]. split; [by repeat constructor|].
  split.
  { repeat (apply Forall_cons; split;
              [split; [apply (bool_decide_unpack _); vm_compute; exact I
                      |repeat constructor; lia] |]).
      by apply Forall_nil. }
  split; [|done]. intros _. split; [done|].
  split; [by repeat constructor|].
  intros c Hc.
  assert (c = 0 ∨ c = 1 ∨ c = 2 ∨ c = 3) as [->|[->|[->| ->]]] by lia;
    vm_compute; reflexivity.
Qed.

End tables.

Lemma face_tables_fit_the_reference_simplex_witness :
  ∃ coords,
    vertex_unit_coordinates (triangle_group [] []) = Ok coords
    ∧ shape0 coords = 3%nat
    ∧ shape1 coords = 2%nat
    ∧ ∀ c, 0 ≤ c < 3 →
        length (filter (λ loc, c ∉ loc) [[0; 1]; [2; 0]; [1; 2]]) = 1%nat.
Proof.
  destruct (face_tables_fit_the_reference_simplex (triangle_group [] [])
              [[0; 1]; [2; 0]; [1; 2]] eq_refl)
    as (coords & Hcoords & Hshape0 & Hshape1 & _ & _ & Hfaces & _).
  destruct (Hfaces (or_introl eq_refl)) as (_ & _ & Hleft).
  exists coords. split; [exact Hcoords|]. split; [exact Hshape0|].
  split; [exact Hshape1 | exact Hleft].
Defined.

(** ** What the face vertex collector asks of the tables *)

Lemma face_vertex_indices_Ok (g : MeshElementGroup) (faces : list (list Z)) :
  face_vertex_indices g = Ok faces →
  class_of g = SimplexElementGroup_class
  ∧ (dim g = 1 ∨ dim g = 2 ∨ dim g = 3)%nat
  ∧ (0 < length faces)%nat.
Proof.
  unfold face_vertex_indices. destruct (class_of g); [done|].
  repeat case_decide; intros [= <-]; (split; [done|]); simpl; split; lia.
Qed.

(** X22. With a boundary tag, [_get_face_vertices] returns only if every
    table that has a boundary entry has one whose neighbors are all
    negative (the assertion of the code), which names a group of the mesh
    that is a simplex group of dimension one to three, and which lists as
    many neighbors as elements. *)
Theorem face_vertices_need_boundary_entries (mesh : Mesh)
    (tag : boundary_tag) (kept : list Z) (fagrp_map : fagrp_map)
    (bdry_grp : Fa.group) :
  _get_face_vertices mesh (Some tag) = Ok kept →
  fagrp_map ∈ facial_adjacency_groups mesh →
  fagrp_get fagrp_map None = Some bdry_grp →
  Forall (λ nb, nb < 0) (Fa.neighbors bdry_grp)
  ∧ length (Fa.neighbors bdry_grp) = length (Fa.elements bdry_grp)
  ∧ ∃ grp,
      py_index (groups mesh) (Fa.igroup bdry_grp) = Ok grp
      ∧ class_of grp = SimplexElementGroup_class
      ∧ (dim grp = 1 ∨ dim grp = 2 ∨ dim grp = 3)%nat.
Proof.
  intros Hget Hfm Hentry.
  unfold _get_face_vertices in Hget.
  apply bind_Ok in Hget as (s & Hfold & _).
  destruct (foldM_Ok_Forall (λ _, True)
              (λ fm, ∀ bdry_grp, fagrp_get fm None = Some bdry_grp →
                 Forall (λ nb, nb < 0) (Fa.neighbors bdry_grp)
                 ∧ length (Fa.neighbors bdry_grp)
                   = length (Fa.elements bdry_grp)
                 ∧ ∃ grp,
                     py_index (groups mesh) (Fa.igroup bdry_grp) = Ok grp
                     ∧ class_of grp = SimplexElementGroup_class
                     ∧ (dim grp = 1 ∨ dim grp = 2 ∨ dim grp = 3)%nat)
              _ _ _ _ Hfold I) as [_ Hall].
  - clear. intros fm s s' _ _ Hstep. split; [done|].
    intros bdry_grp Hentry. rewrite Hentry in Hstep.
    apply bind_Ok in Hstep as ([] & Hassert & Hstep).
    apply bind_Ok in Hstep as (grp & Hgrp & Hstep).
    apply bind_Ok in Hstep as (faces & Hfaces & Hstep).
    apply face_vertex_indices_Ok in Hfaces as (Hclass & Hdim & Hnonempty).
    split; [|split].
    + unfold py_assert in Hassert.
      destruct (forallb _ _) eqn:Hall; [|done].
      rewrite forallb_forall in Hall. apply Forall_forall.
      intros nb Hnb%list_elem_of_In. specialize (Hall nb Hnb).
      simpl in Hall. lia.
    + destruct faces as [|fvi faces]; [simpl in Hnonempty; lia|].
      unfold enumerate in Hstep. simpl in Hstep.
      apply bind_Ok in Hstep as (s1 & Hs1 & _).
      apply bind_Ok in Hs1 as (els & Hels & _).
      unfold np_mask in Hels. case_decide as Hlen; [|done].
      unfold face_relevant_flags in Hlen. by rewrite length_fmap in Hlen.
    + by exists grp.
  - rewrite Forall_forall in Hall. by apply (Hall fagrp_map Hfm).
Qed.

Lemma face_vertices_need_boundary_entries_witness :
  ∃ bdry_grp,
    fagrp_get triangle_adjacency None = Some bdry_grp
    ∧ Forall (λ nb, nb < 0) (Fa.neighbors bdry_grp)
    ∧ length (Fa.neighbors bdry_grp) = length (Fa.elements bdry_grp).
Proof.
  eexists. split; [reflexivity|].
  destruct (face_vertices_need_boundary_entries triangle_mesh "top"%string
              [0; 1; 2] triangle_adjacency _ eq_refl
              (list_elem_of_here _ _) eq_refl) as (Hneg & Hlen & _).
  split; [exact Hneg | exact Hlen].
Defined.

(** ** The order in which sets are iterated *)

(** X23. The connectivity is determined up to the order within the
    neighbors of an element.  Whatever the order in which Python iterates
    over the sets, [_compute_connectivity_from_vertices] returns for the
    same meshes, with the same [neighbors_starts]; and the neighbors it
    lists for an element under one order are those it lists under another,
    in another order. *)
Theorem connectivity_determined_up_to_order (order1 order2 : SetOrder)
    (mesh : Mesh) (conn1 : ElementConnectivity) :
  @_compute_connectivity_from_vertices order1 mesh = Ok conn1 →
  ∃ conn2,
    @_compute_connectivity_from_vertices order2 mesh = Ok conn2
    ∧ getattr conn2 "neighbors_starts" = getattr conn1 "neighbors_starts"
    ∧ ∀ i, (i < Mesh_nelements mesh)%nat →
        ∃ nbs1 nbs2,
          neighbors_of conn1 i = Ok nbs1
          ∧ neighbors_of conn2 i = Ok nbs2
          ∧ nbs1 ≡ₚ nbs2.
Proof.
  intros Hc.
  apply (@compute_connectivity_Ok order1) in Hc
    as (v2e & e2e & Hv2e & He2e & ->).
  pose proof (gather_neighbors_Ok mesh v2e e2e He2e) as [Hlen _].
  exists (@connectivity_of order2 e2e). split.
  { unfold _compute_connectivity_from_vertices.
    change (shape1 (vertices mesh)) with (nvertices mesh).
    rewrite Hv2e. simpl. rewrite He2e. simpl.
    apply (@assemble_connectivity order2). }
  split.
  { unfold getattr, connectivity_of. by rewrite !lookup_insert_eq. }
  intros i Hi.
  destruct (lookup_lt_is_Some_2 e2e i) as [s Hs]; [lia|].
  exists (@set_iter order1 s), (@set_iter order2 s).
  split; [by apply (@neighbors_of_connectivity_of order1)|].
  split; [by apply (@neighbors_of_connectivity_of order2)|].
  by rewrite (@set_iter_perm order1 s), (@set_iter_perm order2 s).
Qed.

Lemma connectivity_determined_up_to_order_witness :
  ∃ conn1 conn2,
    @_compute_connectivity_from_vertices elements_order square_mesh = Ok conn1
    ∧ @_compute_connectivity_from_vertices reversed_order square_mesh
      = Ok conn2
    ∧ getattr conn2 "neighbors_starts" = getattr conn1 "neighbors_starts"
    ∧ ∀ i, (i < Mesh_nelements square_mesh)%nat →
        ∃ nbs1 nbs2,
          neighbors_of conn1 i = Ok nbs1
          ∧ neighbors_of conn2 i = Ok nbs2
          ∧ nbs1 ≡ₚ nbs2.
Proof.
  assert (Hc : ∃ c, @_compute_connectivity_from_vertices elements_order
                      square_mesh = Ok c).
  { eexists. vm_compute. reflexivity. }
  destruct Hc as [conn1 Hc].
  destruct (connectivity_determined_up_to_order elements_order reversed_order
              square_mesh conn1 Hc) as (conn2 & Hc2 & Hstarts & Hnbs).
  exists conn1, conn2.
  split; [exact Hc|]. split; [exact Hc2|]. split; [exact Hstarts | exact Hnbs].
Defined.
